(** * package-exports: the export-map resolver of [lib/index.js]

    A shallow embedding of the resolver (the recursive walk over the
    [exports] value, wildcard expansion, the negation pass, the packaging
    check and the final ordering) together with the properties that the
    specification states about it, and further properties of the code.

    The file has three parts: the embedding of the code, the vocabulary in
    which the properties are stated, and the properties.

    Conventions of the embedding:
    - JavaScript strings are [string], read as the sequence of their code
      units; [undefined] is [None];
    - the mutable [state] object is threaded explicitly; [Array.push] is
      an append at the end;
    - a diagnostic is recorded with its rule identifier, its JSON path and
      the values interpolated in its text (the text itself and the source
      position derived from the JSON path are presentation, and so are the
      assertions of [message] that the path has a position in the file);
    - an assertion failing inside an [async] function rejects only that
      function's promise: the synchronous work of its callers goes on and
      the rejection surfaces at the top-level [await].  The state therefore
      carries a [rejected] flag;
    - [minimatch], [fs.access], [URL] and [String.localeCompare] belong to
      the platform and are parameters. *)

From Stdlib Require Import String Ascii List ZArith Lia Bool Arith PeanoNat.
From Stdlib Require Import Sorting.Sorted Sorting.Permutation.
Import ListNotations.

Local Open Scope string_scope.
Local Open Scope list_scope.

(** ** JavaScript string primitives *)

Module Js.

(** [s.startsWith(p)] *)
Definition startsWith (s p : string) : bool := String.prefix p s.

Fixpoint drop (n : nat) (s : string) : string :=
match n, s with
| O, _ => s
| S _, EmptyString => EmptyString
| S n', String _ s' => drop n' s'
end.

Fixpoint take (n : nat) (s : string) : string :=
match n, s with
| O, _ => EmptyString
| S _, EmptyString => EmptyString
| S n', String c s' => String c (take n' s')
end.

(** [s.slice(a, b)] and [s.slice(a)] for non-negative indices *)
Definition slice (s : string) (a b : nat) : string := take (b - a) (drop a s).
Definition sliceFrom (s : string) (a : nat) : string := drop a s.

(** [s.endsWith(t)] *)
Definition endsWith (s t : string) : bool :=
(String.length t <=? String.length s)%nat
&& String.eqb (drop (String.length s - String.length t) s) t.

(** [search pat s pos]: the first offset, counted from [pos], at which
  [pat] occurs in the remaining text [s]. *)
Fixpoint search (pat s : string) (pos : nat) : option nat :=
if String.prefix pat s then Some pos
else match s with
     | EmptyString => None
     | String _ s' => search pat s' (S pos)
     end.

(** [s.indexOf(pat, from)]; [None] stands for [-1] *)
Definition indexOf (s pat : string) (from : nat) : option nat :=
let from' := Nat.min from (String.length s) in
search pat (drop from' s) from'.

(** [s.includes(pat, from)] *)
Definition includesFrom (s pat : string) (from : nat) : bool :=
match indexOf s pat from with Some _ => true | None => false end.

(** [s.split(c)] for a separator of one character *)
Fixpoint split (c : ascii) (s : string) : list string :=
match s with
| EmptyString => [EmptyString]
| String a s' =>
    if Ascii.eqb a c then EmptyString :: split c s'
    else match split c s' with
         | [] => [String a EmptyString]
         | p :: ps => String a p :: ps
         end
end.

(** [parts.join(sep)] *)
Fixpoint join (sep : string) (parts : list string) : string :=
match parts with
| [] => EmptyString
| [p] => p
| p :: ps => p ++ sep ++ join sep ps
end.

(** [s.replace(a, b)] with a string pattern of one character: only the
  first occurrence is replaced. *)
Fixpoint replaceFirst (a b : ascii) (s : string) : string :=
match s with
| EmptyString => EmptyString
| String c s' => if Ascii.eqb c a then String b s' else String c (replaceFirst a b s')
end.

(** [array.includes(x)] on an array of strings *)
Definition includes (l : list string) (x : string) : bool :=
existsb (String.eqb x) l.

(** Truthiness of a string: the empty string is falsy. *)
Definition truthy (s : string) : bool := negb (String.eqb s EmptyString).

(** Number of occurrences of a character. *)
Fixpoint occurrences (c : ascii) (s : string) : nat :=
match s with
| EmptyString => O
| String a s' => (if Ascii.eqb a c then 1 else 0) + occurrences c s'
end.

End Js.

(** ** JSON values

    An object is the list of its own properties in [Object.keys] order. *)

Unset Elimination Schemes.
Inductive json : Type :=
| JNull
| JBool (b : bool)
| JNumber (n : Z)
| JString (s : string)
| JArray (items : list json)
| JObject (fields : list (string * json)).
Set Elimination Schemes.

(** [obj[key]] *)
Fixpoint get (fields : list (string * json)) (key : string) : option json :=
  match fields with
  | [] => None
  | (k, v) :: rest => if String.eqb k key then Some v else get rest key
  end.

Definition keysOf (fields : list (string * json)) : list string := map fst fields.

(** Truthiness of an optional JSON value ([!value] is its negation). *)
Definition jsTruthy (v : option json) : bool :=
  match v with
  | None | Some JNull => false
  | Some (JBool b) => b
  | Some (JNumber n) => negb (Z.eqb n 0)
  | Some (JString s) => Js.truthy s
  | Some (JArray _) | Some (JObject _) => true
  end.

(** Induction over JSON values that reaches inside arrays and objects. *)
Section JsonInd.
Variable P : json -> Prop.
Hypothesis Hnull : P JNull.
Hypothesis Hbool : forall b, P (JBool b).
Hypothesis Hnumber : forall n, P (JNumber n).
Hypothesis Hstring : forall s, P (JString s).
Hypothesis Harray : forall items, Forall P items -> P (JArray items).
Hypothesis Hobject :
  forall fields, Forall (fun kv => P (snd kv)) fields -> P (JObject fields).

Fixpoint json_nested_ind (v : json) : P v :=
  match v with
  | JNull => Hnull
  | JBool b => Hbool b
  | JNumber n => Hnumber n
  | JString s => Hstring s
  | JArray items =>
      Harray items
        ((fix all (l : list json) : Forall P l :=
            match l with
            | [] => Forall_nil _
            | x :: l' => Forall_cons x (json_nested_ind x) (all l')
            end) items)
  | JObject fields =>
      Hobject fields
        ((fix all (l : list (string * json)) : Forall (fun kv => P (snd kv)) l :=
            match l with
            | [] => Forall_nil _
            | kv :: l' =>
                Forall_cons (P := fun kv => P (snd kv)) kv
                  (json_nested_ind (snd kv)) (all l')
            end) fields)
  end.
End JsonInd.

(** ** Data model *)

(** A key of a JSON path: a property name or an array index. *)
Inductive segment : Type :=
| Key (name : string)
| Idx (index : nat).

Definition jsonPath := list segment.

(** [Info]: what is known about the current node. *)
Record Info : Type := mkInfo {
  info_conditions : option (list string);
  info_path : jsonPath;
  info_pathOrder : list nat;
  info_specifier : option string
}.

(** [RawExport] *)
Record RawExport : Type := mkExport {
  conditions : option (list string);
  exists_ : bool;
  filePath : string;
  globbed : bool;
  jsonPath_ : jsonPath;
  jsonPathOrder : list nat;
  specifier : string;
  url : string
}.

(** [NegatedExport] *)
Record NegatedExport : Type := mkNegated {
  neg_conditions : option (list string);
  neg_jsonPath : jsonPath;
  neg_jsonPathOrder : list nat;
  neg_specifier : string
}.

(** A message of the virtual file. *)
Record Message : Type := mkMessage {
  ruleId : string;
  place : jsonPath;
  details : list string
}.

(** [State] *)
Record State : Type := mkState {
  exports : list RawExport;
  messages : list Message;
  negatedExports : list NegatedExport;
  packageUrl : string;
  packagedFiles : list string;
  rejected : bool
}.

(** [MutuallyExclusiveInfo] *)
Record MutuallyExclusiveInfo : Type := mkExclusive {
  me_conditions : list string;
  exhaustive : bool
}.

Definition mainDefaults : list string :=
  ["./index.js"; "./index.json"; "./index.node"].

Definition mainSuffixes : list string :=
  [".js"; ".json"; ".node"; "/index.js"; "/index.json"; "/index.node"].

Definition mutuallyExclusiveConditions : list MutuallyExclusiveInfo :=
  [ mkExclusive ["development"; "production"] false;
    mkExclusive ["import"; "require"] true;
    mkExclusive ["node"; "node-addons"] false;
    mkExclusive
      ["browser"; "edge-routine"; "workerd"; "deno"; "lagon"; "react-native";
       "moddable"; "netlify"; "electron"; "node"; "bun"; "react-server";
       "edge-light"; "fastly"] false ].

(** ** State updates *)

(** [message(state, reason, options, jsonPath)] *)
Definition message (st : State) (rule : string) (info : list string)
    (at_ : jsonPath) : State :=
  mkState (exports st) (messages st ++ [mkMessage rule at_ info])
    (negatedExports st) (packageUrl st) (packagedFiles st) (rejected st).

(** [state.exports.push(export_)] *)
Definition pushExport (st : State) (e : RawExport) : State :=
  mkState (exports st ++ [e]) (messages st) (negatedExports st)
    (packageUrl st) (packagedFiles st) (rejected st).

(** [state.negatedExports.push(negated)] *)
Definition pushNegated (st : State) (n : NegatedExport) : State :=
  mkState (exports st) (messages st) (negatedExports st ++ [n])
    (packageUrl st) (packagedFiles st) (rejected st).

(** An assertion threw inside an [async] function. *)
Definition reject (st : State) : State :=
  mkState (exports st) (messages st) (negatedExports st)
    (packageUrl st) (packagedFiles st) true.

Definition setExports (st : State) (l : list RawExport) : State :=
  mkState l (messages st) (negatedExports st)
    (packageUrl st) (packagedFiles st) (rejected st).

(** Truthiness of [info.specifier]. *)
Definition specifierSet (info : Info) : bool :=
  match info_specifier info with
  | Some s => Js.truthy s
  | None => false
  end.

(** [info.specifier || '.'] *)
Definition specifierOrMain (info : Info) : string :=
  match info_specifier info with
  | Some s => if Js.truthy s then s else "."
  | None => "."
  end.

(** ** Wildcard replacements *)

(** The [while (maybeEnd !== -1)] loop of [findWildcardReplacements]. *)
Fixpoint optionsLoop (filePath second : string) (start : nat)
    (maybeEnd : option nat) (fuel : nat) : list string :=
  match fuel, maybeEnd with
  | S fuel', Some e =>
      Js.slice filePath start e
        :: optionsLoop filePath second start (Js.indexOf filePath second (e + 1)) fuel'
  | _, _ => []
  end.

Definition replacementOptions (first second filePath : string) : list string :=
  let start := String.length first in
  (if String.eqb second EmptyString then []
   else optionsLoop filePath second start (Js.indexOf filePath second start)
          (S (String.length filePath)))
  ++ [Js.sliceFrom filePath start].

(** The body of the [for (const filePath of filePaths)] loop: [None] when an
    assertion fails, otherwise the options that are pushed (at most one). *)
Definition replacementFor (parts : list string) (filePath : string)
    : option (list string) :=
  match nth_error parts 0, nth_error parts 1 with
  | Some first, Some second =>
      if String.eqb (Js.slice filePath 0 (String.length first)) first then
        Some match find (fun option => String.eqb (Js.join option parts) filePath)
                     (replacementOptions first second filePath) with
             | Some option => [option]
             | None => []
             end
      else None
  | _, _ => None
  end.

(** [findWildcardReplacements(parts, filePaths)] *)
Fixpoint findWildcardReplacements (parts filePaths : list string)
    : option (list string) :=
  match filePaths with
  | [] => Some []
  | filePath :: rest =>
      match replacementFor parts filePath with
      | None => None
      | Some found =>
          match findWildcardReplacements parts rest with
          | None => None
          | Some results => Some (found ++ results)
          end
      end
  end.

(** ** The walk over the export map *)

Section Resolver.

(** [new Minimatch(pattern, {dot: true, nobrace: true, noext: true}).match(file)] *)
Variable minimatch : string -> string -> bool.
(** [fs.access(url, F_OK)] resolves *)
Variable fsAccess : string -> bool.
(** [new URL(value, base).href] *)
Variable resolveUrl : string -> string -> string.

(** [addResolved(state, info, specifier, value)]; the two extra fields of
    [AddInfo] are passed next to [info].  [checkExists] is folded in: the
    probe only suspends, and its outcome lands in the pushed object before
    anything reads it. *)
Definition addResolved (st : State) (info : Info)
    (definitelyExists explicitlyDefined : bool)
    (specifier : string) (value : option string) : State :=
  match value with
  | None =>
      pushNegated st
        (mkNegated (info_conditions info) (info_path info)
           (info_pathOrder info) specifier)
  | Some value =>
      let target := resolveUrl value (packageUrl st) in
      let found :=
        (definitelyExists || Js.includes (packagedFiles st) value)
        || fsAccess target in
      let st' :=
        pushExport st
          (mkExport (info_conditions info) found value (negb explicitlyDefined)
             (info_path info) (info_pathOrder info) specifier target) in
      if found then st'
      else message st' "exports-path-not-found" [value; specifier] (info_path info)
  end.

(** [addDynamic(state, info, specifier, valueParts)] *)
Definition addDynamic (st : State) (info : Info)
    (specifier : string * string) (valueParts : list string) : State :=
  let results :=
    filter (minimatch (Js.join "**/*" valueParts)) (packagedFiles st) in
  match results with
  | [] =>
      message st "exports-path-wildcard-not-found"
        [Js.join "*" valueParts] (info_path info)
  | _ :: _ =>
      match findWildcardReplacements valueParts results with
      | None => reject st
      | Some replacements =>
          fold_left
            (fun st' replacement =>
               addResolved st' info true false
                 (fst specifier ++ replacement ++ snd specifier)
                 (Some (Js.join replacement valueParts)))
            replacements st
      end
  end.

(** [addValue(state, info, exportsValue)] *)
Definition addValue (st : State) (info : Info) (exportsValue : json) : State :=
  match exportsValue with
  | JNull => addResolved st info false true (specifierOrMain info) None
  | JString value =>
      if negb (Js.startsWith value "./") then
        message st "exports-path-unprefixed" [value] (info_path info)
      else
        let specifier := specifierOrMain info in
        match Js.indexOf specifier "*" 0 with
        | None => addResolved st info false true specifier (Some value)
        | Some specifierAsterisk =>
            if Js.includesFrom specifier "*" (specifierAsterisk + 1) then
              message st "exports-specifier-wildcard-invalid"
                [specifier] (info_path info)
            else
              match Js.indexOf value "*" 0 with
              | None =>
                  addResolved
                    (message st "exports-specifier-wildcard-useless"
                       [specifier; value] (info_path info))
                    info false true specifier (Some value)
              | Some _ =>
                  addDynamic st info
                    (Js.slice specifier 0 specifierAsterisk,
                     Js.sliceFrom specifier (specifierAsterisk + 1))
                    (Js.split "*" value)
              end
        end
  | _ =>
      message st "exports-value-invalid"
        [if specifierSet info then "" else "specifier object, "]
        (info_path info)
  end.

(** The [types] condition repeats what TypeScript infers from [default]. *)
Definition typesVerbose (fields : list (string * json)) : bool :=
  Js.includes (keysOf fields) "default"
  && Js.includes (keysOf fields) "types"
  && match get fields "default", get fields "types" with
     | Some (JString default), Some (JString types) =>
         let parts := Js.split "." default in
         let extname := last parts EmptyString in
         let parts := removelast parts in
         (String.eqb extname "js" || String.eqb extname "cjs"
          || String.eqb extname "mjs")
         && String.eqb types
              (Js.join "." (parts ++ ["d"; Js.replaceFirst "j" "t" extname]))
     | _, _ => false
     end.

(** The two inner loops of [for (const condition of keys)]: every group of
    [mutuallyExclusiveConditions] is visited; within a group the scan of
    [info.conditions] ends at the first member found ([break]). *)
Definition exclusiveCheck (st : State) (info : Info) (condition : string)
    : State :=
  fold_left
    (fun st' exclusive =>
       match info_conditions info with
       | None => st'
       | Some active =>
           if negb (Js.includes (me_conditions exclusive) condition) then st'
           else
             match find (Js.includes (me_conditions exclusive)) active with
             | None => st'
             | Some other =>
                 message st' "exports-conditions-mutually-exclusive"
                   [condition; other] (info_path info ++ [Key condition])
             end
       end)
    mutuallyExclusiveConditions st.

(** Whether some exhaustive group is wholly among the keys. *)
Definition exhaustiveKeys (keys : list string) : bool :=
  existsb
    (fun exclusive =>
       exhaustive exclusive
       && forallb (Js.includes keys) (me_conditions exclusive))
    mutuallyExclusiveConditions.

Section Children.
(** The recursive call [resolveExports]. *)
Variable rec : State -> Info -> json -> State.

(** [for (const condition of keys)] of [resolveExportsConditions],
    returning the state with [hasDefault] and [last]. *)
Fixpoint conditionsLoop (info : Info) (fields : list (string * json))
    (index : nat) (st : State) (hasDefault : bool) (last : option string)
    : State * bool * option string :=
  match fields with
  | [] => (st, hasDefault, last)
  | (condition, value) :: rest =>
      let st1 := exclusiveCheck st info condition in
      let st2 :=
        rec st1
          (mkInfo
             (match info_conditions info with
              | Some active => Some (active ++ [condition])
              | None => Some [condition]
              end)
             (info_path info ++ [Key condition])
             (info_pathOrder info ++ [index])
             (info_specifier info))
          value in
      conditionsLoop info rest (S index) st2
        (hasDefault || String.eqb condition "default") (Some condition)
  end.

(** [resolveExportsConditions(state, info, exportsValue)] *)
Definition resolveExportsConditions (st : State) (info : Info)
    (fields : list (string * json)) : State :=
  let keys := keysOf fields in
  let st1 :=
    match keys with
    | [only] =>
        if String.eqb only "default" then
          message st "exports-conditions-verbose" [] (info_path info)
        else st
    | _ => st
    end in
  let st2 :=
    if typesVerbose fields then
      message st1 "exports-types-verbose" [] (info_path info ++ [Key "types"])
    else st1 in
  match conditionsLoop info fields 0 st2 false None with
  | (st3, hasDefault, last) =>
      match last with
      | Some lastKey =>
          if Js.truthy lastKey then
            if hasDefault then
              if negb (String.eqb lastKey "default") then
                message st3 "exports-conditions-default-misplaced" []
                  (info_path info ++ [Key lastKey])
              else st3
            else if negb (exhaustiveKeys keys) then
              message st3 "exports-conditions-default-missing"
                [specifierOrMain info] (info_path info)
            else st3
          else reject st3
      | None => reject st3
      end
  end.

(** [for (const specifier of keys)] of [resolveExportsSpecifiers] *)
Fixpoint specifiersLoop (info : Info) (keys : list string)
    (fields : list (string * json)) (index : nat) (st : State) : State :=
  match fields with
  | [] => st
  | (specifier, value) :: rest =>
      let parts := Js.split "." specifier in
      let extension := last parts EmptyString in
      let parts := removelast parts in
      let st1 :=
        if Js.truthy extension && negb (Js.includesFrom extension "/" 0) then
          let rest_ := Js.join "." parts in
          message st "exports-specifier-extension"
            [extension; specifier;
             if Js.includes keys rest_ then "remove it" else rest_]
            (info_path info)
        else st in
      let st2 :=
        rec st1
          (mkInfo (info_conditions info)
             (info_path info ++ [Key specifier])
             (info_pathOrder info ++ [index])
             (Some specifier))
          value in
      specifiersLoop info keys rest (S index) st2
  end.

(** [resolveExportsSpecifiers(state, info, exportsValue)] *)
Definition resolveExportsSpecifiers (st : State) (info : Info)
    (fields : list (string * json)) : State :=
  let keys := keysOf fields in
  let st1 :=
    match keys with
    | [only] =>
        if String.eqb only "." then
          message st "exports-specifiers-verbose" [] (info_path info)
        else st
    | _ => st
    end in
  specifiersLoop info keys fields 0 st1.

(** The first loop of [resolveExportsObject]: [dots] and [mixed]. *)
Fixpoint dotsLoop (keys : list string) (dots : option bool) (mixed : bool)
    : option bool * bool :=
  match keys with
  | [] => (dots, mixed)
  | key :: rest =>
      let dot := Js.startsWith key "." in
      match dots with
      | None => dotsLoop rest (Some dot) mixed
      | Some d => dotsLoop rest dots (if Bool.eqb d dot then mixed else true)
      end
  end.

(** [resolveExportsObject(state, info, exportsValue)] *)
Definition resolveExportsObject (st : State) (info : Info)
    (fields : list (string * json)) : State :=
  let keys := keysOf fields in
  match dotsLoop keys None false with
  | (None, _) => message st "exports-object-empty" [] (info_path info)
  | (Some dots, mixed) =>
      if mixed then message st "exports-object-mixed" [] (info_path info)
      else if dots && specifierSet info then
        message st "exports-specifier-nested" keys (info_path info)
      else if dots then resolveExportsSpecifiers st info fields
      else resolveExportsConditions st info fields
  end.

(** [resolveExportsList(state, info, exportsValue)] *)
Definition resolveExportsList (st : State) (info : Info)
    (items : list json) : State :=
  match items with
  | [] => message st "exports-alternatives-empty" [] (info_path info)
  | first :: _ =>
      rec (message st "exports-alternatives" [] (info_path info))
        (mkInfo (info_conditions info) (info_path info ++ [Idx 0])
           (info_pathOrder info ++ [0%nat]) (info_specifier info))
        first
  end.
End Children.

(** [resolveExports(state, info, exportsValue)] *)
Fixpoint resolveExports (st : State) (info : Info) (exportsValue : json)
    {struct exportsValue} : State :=
  match exportsValue with
  | JArray items => resolveExportsList resolveExports st info items
  | JObject fields => resolveExportsObject resolveExports st info fields
  | _ => addValue st info exportsValue
  end.

End Resolver.

(** ** The passes of [packageExports] after the walk *)

(** [arrayEquivalent(left, right)] *)
Definition arrayEquivalent (left right : list string) : bool :=
  (length left =? length right)%nat && forallb (Js.includes right) left.

(** The condition of the [if] in the negation loop. *)
Definition negationMatches (negated : NegatedExport) (export_ : RawExport)
    : bool :=
  (match Js.indexOf (neg_specifier negated) "*" 0 with
   | None => String.eqb (specifier export_) (neg_specifier negated)
   | Some asteriskIndex =>
       Js.startsWith (specifier export_)
         (Js.slice (neg_specifier negated) 0 asteriskIndex)
       && Js.endsWith (specifier export_)
            (Js.sliceFrom (neg_specifier negated) (asteriskIndex + 1))
   end)
  && match conditions export_, neg_conditions negated with
     | Some mine, Some theirs => arrayEquivalent mine theirs
     | None, None => true
     | _, _ => false
     end.

(** [list.splice(index, 1)] *)
Definition splice1 {A : Type} (l : list A) (index : nat) : list A :=
  firstn index l ++ skipn (S index) l.

(** [while (++index < state.exports.length)]: [index] is the value after the
    increment; a removal steps it back, so the next round looks at the same
    position. *)
Fixpoint negationLoop (negated : NegatedExport) (l : list RawExport)
    (index : nat) (found : bool) (fuel : nat) : list RawExport * bool :=
  match fuel with
  | O => (l, found)
  | S fuel' =>
      match nth_error l index with
      | None => (l, found)
      | Some export_ =>
          if negationMatches negated export_ then
            negationLoop negated (splice1 l index) index true fuel'
          else negationLoop negated l (S index) found fuel'
      end
  end.

(** The body of [for (const negated of state.negatedExports)]. *)
Definition removeNegated (st : State) (negated : NegatedExport) : State :=
  match negationLoop negated (exports st) 0 false (length (exports st)) with
  | (kept, found) =>
      let st' := setExports st kept in
      if found then st'
      else
        message st' "exports-negated-missing"
          [neg_specifier negated] (neg_jsonPath negated)
  end.

Definition removeAllNegated (st : State) : State :=
  fold_left removeNegated (negatedExports st) st.

(** The final [for (const export_ of state.exports)] loop. *)
Definition npmIgnored (files : bool) (st : State) : State :=
  fold_left
    (fun st' export_ =>
       if exists_ export_
          && negb (Js.includes (packagedFiles st') (filePath export_))
       then
         message st' "npm-ignored"
           [filePath export_;
            if files then "add it to `files` in `package.json`"
            else "remove it from `.npmignore`"]
           (jsonPath_ export_)
       else st')
    (exports st) st.

(** ** Ordering *)

Section Ordering.

(** [left.localeCompare(right)] *)
Variable localeCompare : string -> string -> Z.

(** [while (++index < length)] of [compareExport]: the first non-zero
    difference, a missing position reading as [0]. *)
Fixpoint orderLoop (left right : list nat) (index steps : nat) : Z :=
  match steps with
  | O => 0%Z
  | S steps' =>
      let difference :=
        (Z.of_nat (nth index left 0%nat) - Z.of_nat (nth index right 0%nat))%Z in
      if Z.eqb difference 0 then orderLoop left right (S index) steps'
      else difference
  end.

(** [compareExport(left, right)] *)
Definition compareExport (left right : RawExport) : Z :=
  let length_ :=
    Nat.max (length (jsonPathOrder left)) (length (jsonPathOrder right)) in
  let difference :=
    orderLoop (jsonPathOrder left) (jsonPathOrder right) 0 length_ in
  if negb (Z.eqb difference 0) then difference
  else
    let segments :=
      (Z.of_nat (length (Js.split "/" (specifier left)))
       - Z.of_nat (length (Js.split "/" (specifier right))))%Z in
    if negb (Z.eqb segments 0) then segments
    else localeCompare (specifier left) (specifier right).

(** [Array.prototype.sort] is stable and, for a consistent comparator,
    yields the one stable ordering; it is modelled by stable insertion. *)
Fixpoint insertExport (x : RawExport) (sorted : list RawExport)
    : list RawExport :=
  match sorted with
  | [] => [x]
  | y :: rest =>
      if (compareExport x y <=? 0)%Z then x :: sorted
      else y :: insertExport x rest
  end.

Definition sortExports (l : list RawExport) : list RawExport :=
  fold_right insertExport [] l.

End Ordering.

(** ** The legacy [main] field *)

Section Legacy.

Variable fsAccess : string -> bool.
Variable resolveUrl : string -> string -> string.

(** [resolveMainExport(state, main, type)] *)
Definition resolveMainExport (st : State) (main type : option json) : State :=
  let '(st1, warned, mainFound) :=
    match main with
    | None => (st, false, None)
    | Some (JString main) =>
        let normal :=
          if Js.startsWith main "./" then main else ("./" ++ main)%string in
        if Js.includes (packagedFiles st) normal then
          (message st "main" [normal] [Key "main"], false, Some normal)
        else
          match
            find (fun suffix => Js.includes (packagedFiles st) (normal ++ suffix)%string)
              mainSuffixes
          with
          | Some suffix =>
              match type with
              | Some (JString "module") =>
                  (message st "main-resolve-module" [main; (normal ++ suffix)%string]
                     [Key "main"], true, None)
              | _ =>
                  (message st "main-resolve-commonjs" [main; (normal ++ suffix)%string]
                     [Key "main"], false, Some (normal ++ suffix)%string)
              end
          | None => (message st "main-not-found" [main] [Key "main"], true, None)
          end
    | Some _ => (message st "main-invalid" [] [Key "main"], true, None)
    end in
  match mainFound with
  | Some found =>
      addResolved fsAccess resolveUrl st1
        (mkInfo None [Key "main"] [0%nat] None) true true "." (Some found)
  | None =>
      match find (Js.includes (packagedFiles st1)) mainDefaults with
      | Some option =>
          addResolved fsAccess resolveUrl
            (message st1 "main-inferred" [option] [])
            (mkInfo None [] [] None) true false "." (Some option)
      | None =>
          if warned then st1 else message st1 "main-missing" [] []
      end
  end.

(** [resolvePackagedFiles(state)] *)
Definition resolvePackagedFiles (st : State) : State :=
  fold_left
    (fun st' file =>
       addResolved fsAccess resolveUrl st'
         (mkInfo None [] [] (Some file)) true false file (Some file))
    (packagedFiles st) st.

End Legacy.

(** ** [packageExports] *)

(** The fields of [package.json] that are read. *)
Record PackageJson : Type := mkPackage {
  pkg_name : option json;
  pkg_type : option json;
  pkg_files : option json;
  pkg_exports : option json;
  pkg_main : option json
}.

(** [Export]: a [RawExport] without [filePath], [globbed], [jsonPathOrder]. *)
Record Export : Type := mkCleanExport {
  ex_conditions : option (list string);
  ex_exists : bool;
  ex_jsonPath : jsonPath;
  ex_specifier : string;
  ex_url : string
}.

Definition rawExportToExport (raw : RawExport) : Export :=
  mkCleanExport (conditions raw) (exists_ raw) (jsonPath_ raw)
    (specifier raw) (url raw).

Record Result : Type := mkResult {
  res_exports : list Export;
  res_messages : list Message;
  res_name : option string
}.

Section Package.

Variable minimatch : string -> string -> bool.
Variable fsAccess : string -> bool.
Variable resolveUrl : string -> string -> string.
Variable localeCompare : string -> string -> Z.

(** The checks on [name], [type] and [files]. *)
Definition checkFields (st : State) (packageData : PackageJson) : State :=
  let st1 :=
    match pkg_name packageData with
    | Some (JString _) => st
    | _ => message st "name-missing" [] []
    end in
  let st2 :=
    if negb (jsTruthy (pkg_type packageData)) then
      message st1 "type-missing" [] []
    else
      match pkg_type packageData with
      | Some (JString "commonjs") | Some (JString "module") => st1
      | _ => message st1 "type-invalid" [] [Key "type"]
      end in
  match pkg_files packageData with
  | Some _ => st2
  | None => message st2 "files-missing" [] []
  end.

(** The state before the ordering: [None] when the awaited walk rejects. *)
Definition resolvePackage (packageUrl_ : string) (packed : list string)
    (packageData : PackageJson) : option State :=
  let st0 := checkFields (mkState [] [] [] packageUrl_ packed false) packageData in
  let files := match pkg_files packageData with Some _ => true | None => false end in
  match pkg_exports packageData with
  | Some exportsValue =>
      let st1 :=
        resolveExports minimatch fsAccess resolveUrl st0
          (mkInfo None [Key "exports"] [0%nat] None) exportsValue in
      if rejected st1 then None
      else
        let st2 := removeAllNegated st1 in
        let st3 :=
          if negb (existsb (fun d => String.eqb (specifier d) ".") (exports st2))
          then message st2 "exports-main-missing" [] []
          else st2 in
        let st4 :=
          match pkg_main packageData with
          | Some _ => message st3 "main-extra" [] [Key "main"]
          | None => st3
          end in
        Some (npmIgnored files st4)
  | None =>
      let st1 :=
        resolveMainExport fsAccess resolveUrl st0
          (pkg_main packageData) (pkg_type packageData) in
      Some (npmIgnored files (resolvePackagedFiles fsAccess resolveUrl st1))
  end.

(** [packageExports(folder)], from the parsed [package.json] and the
    packed files (already in [./]-prefixed posix form).  The messages stay
    in the order of their emission: [compareMessage] orders them by source
    position, which the JSON path stands for here. *)
Definition packageExports (packageUrl_ : string) (packed : list string)
    (packageData : PackageJson) : option Result :=
  match resolvePackage packageUrl_ packed packageData with
  | None => None
  | Some st =>
      Some
        (mkResult
           (map rawExportToExport (sortExports localeCompare (exports st)))
           (messages st)
           (match pkg_name packageData with
            | Some (JString name) => Some name
            | _ => None
            end))
  end.

End Package.

(** * Vocabulary of the properties *)

(** ** Sample platform

    Concrete stand-ins for the platform functions, used to run the resolver
    on examples. *)

Module Sample.

(** A matcher for patterns whose only magic is the [**/*] that [addDynamic]
    inserts: the file starts with the text before it and ends with the
    text after it. *)
Definition minimatch (pattern file : string) : bool :=
  match Js.indexOf pattern "**/*" 0 with
  | Some i =>
      Js.startsWith file (Js.slice pattern 0 i)
      && Js.endsWith file (Js.sliceFrom pattern (i + 4))
  | None => String.eqb pattern file
  end.

(** A file system on which no probe succeeds: only what is packed exists. *)
Definition noFile (_ : string) : bool := false.

(** A relative [./]-prefixed path resolved against the folder of [base]. *)
Definition resolveUrl (value base : string) : string :=
  (Js.join "/" (removelast (Js.split "/" base)) ++ "/"
   ++ (if Js.startsWith value "./" then Js.sliceFrom value 2 else value))%string.

(** Comparison by code units. *)
Definition localeCompare (a b : string) : Z :=
  match String.compare a b with
  | Lt => (-1)%Z
  | Eq => 0%Z
  | Gt => 1%Z
  end.

Definition packageUrl : string := "file:///package/package.json".

(** A [package.json] with [name], [type], [files] and the given [exports]. *)
Definition withExports (exportsValue : json) : PackageJson :=
  mkPackage (Some (JString "x")) (Some (JString "module"))
    (Some (JArray [])) (Some exportsValue) None.

Definition rootInfo : Info := mkInfo None [Key "exports"] [0%nat] None.

Definition emptyState (packed : list string) : State :=
  mkState [] [] [] packageUrl packed false.

End Sample.

(** The diagnostic of the packaging check for an entry. *)
Definition ignoredMessage (files : bool) (export_ : RawExport) : Message :=
  mkMessage "npm-ignored" (jsonPath_ export_)
    [filePath export_;
     if files then "add it to `files` in `package.json`"
     else "remove it from `.npmignore`"].

(** Whether the packaging check reports an entry. *)
Definition reportedIgnored (packed : list string) (export_ : RawExport) : bool :=
  exists_ export_ && negb (Js.includes packed (filePath export_)).

(** Whether a negation leaves an entry in place. *)
Definition keptBy (negated : NegatedExport) (export_ : RawExport) : bool :=
  negb (negationMatches negated export_).

(** The tie-break of [compareExport]. *)
Definition tieBreak (localeCompare : string -> string -> Z)
    (x y : RawExport) : Z :=
  let segments :=
    (Z.of_nat (length (Js.split "/" (specifier x)))
     - Z.of_nat (length (Js.split "/" (specifier y))))%Z in
  if Z.eqb segments 0 then localeCompare (specifier x) (specifier y)
  else segments.

(** Two entries are in order. *)
Definition inOrder (localeCompare : string -> string -> Z)
    (x y : RawExport) : Prop :=
  (compareExport localeCompare x y <= 0)%Z.

(** A package with [main] and no [exports]. *)
Definition legacyPackage : PackageJson :=
  mkPackage (Some (JString "x")) (Some (JString "commonjs"))
    (Some (JArray [])) None (Some (JString "./index.js")).

(** The entries that this package resolves to, before the ordering. *)
Definition legacyEntries : list RawExport :=
  [ mkExport None true "./index.js" false [Key "main"] [0%nat] "."
      "file:///package/index.js";
    mkExport None true "./index.js" true [] [] "./index.js"
      "file:///package/index.js" ].

(** Whether [findWildcardReplacements] recovers a substitution for a file. *)
Definition hasReplacement (parts : list string) (filePath_ : string) : bool :=
  match replacementFor parts filePath_ with
  | Some (_ :: _) => true
  | _ => false
  end.

(** The entry that [addDynamic] pushes for a substitution. *)
Definition expandedEntry (resolveUrl : string -> string -> string)
    (st : State) (info : Info)
    (specifier_ : string * string) (valueParts : list string)
    (replacement : string) : RawExport :=
  mkExport (info_conditions info) true (Js.join replacement valueParts) true
    (info_path info) (info_pathOrder info)
    (fst specifier_ ++ replacement ++ snd specifier_)
    (resolveUrl (Js.join replacement valueParts) (packageUrl st)).

(** The substitutions for which [addDynamic] pushes an entry. *)
Definition expansions (minimatch : string -> string -> bool)
    (st : State) (valueParts : list string) : list string :=
  match
    findWildcardReplacements valueParts
      (filter (minimatch (Js.join "**/*" valueParts)) (packagedFiles st))
  with
  | Some replacements => replacements
  | None => []
  end.

(** Rules whose diagnostics are anchored at a key of the object that they
    are about, one level below the object itself. *)
Definition keyRule (rule : string) : bool :=
  String.eqb rule "exports-conditions-mutually-exclusive"
  || String.eqb rule "exports-types-verbose".

(** The message is anchored at [p] or below it, and below it for a
    [keyRule]. *)
Definition under (p : jsonPath) (m : Message) : Prop :=
  exists suffix,
    place m = p ++ suffix /\ (keyRule (ruleId m) = true -> suffix <> []).

(** The message is anchored strictly below [p]. *)
Definition below (p : jsonPath) (m : Message) : Prop :=
  exists suffix, place m = p ++ suffix /\ suffix <> [].

(** The shape of the specifier of an entry. *)
Definition entryOK (e : RawExport) : Prop :=
  Js.startsWith (specifier e) "." = true
  /\ (globbed e = false ->
      Js.occurrences "*" (specifier e) = 0%nat
      \/ (Js.occurrences "*" (specifier e) = 1%nat
          /\ Js.occurrences "*" (filePath e) = 0%nat))
  /\ (globbed e = true ->
      (Js.occurrences "*" (specifier e) <= Js.occurrences "*" (filePath e))%nat).

(** [st'] is [st] with entries satisfying [PE], messages satisfying [PM] and
    negations appended; the inputs are unchanged. *)
Definition grows (PE : RawExport -> Prop) (PM : Message -> Prop)
    (st st' : State) : Prop :=
  exists es ms ns,
    exports st' = exports st ++ es /\ Forall PE es
    /\ messages st' = messages st ++ ms /\ Forall PM ms
    /\ negatedExports st' = negatedExports st ++ ns
    /\ packagedFiles st' = packagedFiles st
    /\ packageUrl st' = packageUrl st.

(** The specifier in force starts with a dot. *)
Definition infoOK (info : Info) : Prop :=
  Js.startsWith (specifierOrMain info) "." = true.

(** What is shown of a walk, for any state and any node information. *)
Definition walkGrows (minimatch : string -> string -> bool)
    (fsAccess : string -> bool) (resolveUrl : string -> string -> string)
    (PE : RawExport -> Prop) (OK : Info -> Prop) (v : json) : Prop :=
  forall st info,
    OK info ->
    grows PE (under (info_path info)) st
      (resolveExports minimatch fsAccess resolveUrl st info v).

(** Equality of JSON paths, decided. *)
Definition segment_eqb (a b : segment) : bool :=
  match a, b with
  | Key x, Key y => String.eqb x y
  | Idx i, Idx j => Nat.eqb i j
  | _, _ => false
  end.

Fixpoint path_eqb (p q : jsonPath) : bool :=
  match p, q with
  | [], [] => true
  | a :: p', b :: q' => segment_eqb a b && path_eqb p' q'
  | _, _ => false
  end.

(** The message has the rule [rule] and is anchored at [p]. *)
Definition anchored (rule : string) (p : jsonPath) (m : Message) : bool :=
  String.eqb (ruleId m) rule && path_eqb (place m) p.

(** The diagnostics of a rule at a JSON path, in order of emission. *)
Definition emitted (rule : string) (p : jsonPath) (st : State) : list Message :=
  filter (anchored rule p) (messages st).

(** The active condition that makes [condition] pointless within a group:
    the first member of the group among [info.conditions], when the group
    also holds [condition]. *)
Definition firstConflict (info : Info) (exclusive : MutuallyExclusiveInfo)
    (condition : string) : option string :=
  match info_conditions info with
  | None => None
  | Some active =>
      if Js.includes (me_conditions exclusive) condition
      then find (Js.includes (me_conditions exclusive)) active
      else None
  end.

(** The diagnostic for [condition] against the active condition [other]. *)
Definition exclusiveMessage (info : Info) (condition other : string) : Message :=
  mkMessage "exports-conditions-mutually-exclusive"
    (info_path info ++ [Key condition]) [condition; other].

(** The diagnostics of [exclusiveCheck] for a key: one for each group with a
    conflict, in table order. *)
Definition exclusiveMessagesIn (groups : list MutuallyExclusiveInfo)
    (info : Info) (condition : string) : list Message :=
  flat_map
    (fun exclusive =>
       match firstConflict info exclusive condition with
       | Some other => [exclusiveMessage info condition other]
       | None => []
       end)
    groups.

(** The same over the table of the resolver. *)
Definition exclusiveMessages : Info -> string -> list Message :=
  exclusiveMessagesIn mutuallyExclusiveConditions.

(** The groups of the table that hold a condition. *)
Definition groupsOf (condition : string) : list MutuallyExclusiveInfo :=
  filter (fun exclusive => Js.includes (me_conditions exclusive) condition)
    mutuallyExclusiveConditions.

(** The conditions object [{"node": "./x.js"}] met under [browser] and
    [node-addons]. *)
Definition nodeUnderBrowserAddons : Info :=
  mkInfo (Some ["browser"; "node-addons"])
    [Key "exports"; Key "browser"; Key "node-addons"]
    [0%nat; 0%nat; 0%nat] None.

(** A conditions object whose [types] repeats what [default] implies. *)
Definition verboseTypes : list (string * json) :=
  [("types", JString "./index.d.ts"); ("default", JString "./index.js")].

(** The shape that C2 claims for every specifier. *)
Definition plainSpecifier (s : string) : bool :=
  (String.eqb s "." || Js.startsWith s "./")
  && Nat.eqb (Js.occurrences "*" s) 0.

(** What [packageExports] yields with the sample platform: the specifiers of
    the entries and the rules of the diagnostics. *)
Definition outcome (packed : list string) (exportsValue : json)
    : option (list string * list string) :=
  match
    packageExports Sample.minimatch Sample.noFile Sample.resolveUrl
      Sample.localeCompare Sample.packageUrl packed
      (Sample.withExports exportsValue)
  with
  | Some result =>
      Some (map ex_specifier (res_exports result),
            map ruleId (res_messages result))
  | None => None
  end.

(** ** Vocabulary of the further properties *)

(** [pathToPosixPath(value)], with [path.sep] as a parameter *)
Definition pathToPosixPath (sep : ascii) (value : string) : string :=
  ("./" ++ Js.join "/" (Js.split sep value))%string.

(** The diagnostic for a negation that matched nothing. *)
Definition missingMessage (negated : NegatedExport) : Message :=
  mkMessage "exports-negated-missing" (neg_jsonPath negated)
    [neg_specifier negated].

(** Whether some negation of a list matches an entry. *)
Definition negatedBy (negations : list NegatedExport) (export_ : RawExport)
    : bool :=
  existsb (fun negated => negationMatches negated export_) negations.

(** The node information that [resolveExportsList] passes to the first item. *)
Definition listChild (info : Info) : Info :=
  mkInfo (info_conditions info) (info_path info ++ [Idx 0])
    (info_pathOrder info ++ [0%nat]) (info_specifier info).

(** The node information that [resolveExportsConditions] passes to the value
    of the key [condition], the key at [index]. *)
Definition conditionChild (info : Info) (condition : string) (index : nat)
    : Info :=
  mkInfo
    (match info_conditions info with
     | Some active => Some (active ++ [condition])
     | None => Some [condition]
     end)
    (info_path info ++ [Key condition])
    (info_pathOrder info ++ [index])
    (info_specifier info).

(** The node information that [resolveExportsSpecifiers] passes to the value
    of the key [specifier_], the key at [index]. *)
Definition specifierChild (info : Info) (specifier_ : string) (index : nat)
    : Info :=
  mkInfo (info_conditions info) (info_path info ++ [Key specifier_])
    (info_pathOrder info ++ [index]) (Some specifier_).

(** The nodes that a walk started at [root] with [rootValue] may visit, with
    the information that it has when it gets there. *)
Inductive reaches (root : Info) (rootValue : json) : Info -> json -> Prop :=
| reaches_root : reaches root rootValue root rootValue
| reaches_item (info : Info) (first : json) (others : list json) :
    reaches root rootValue info (JArray (first :: others)) ->
    reaches root rootValue (listChild info) first
| reaches_condition (info : Info) (fields : list (string * json))
    (index : nat) (condition : string) (value : json) :
    reaches root rootValue info (JObject fields) ->
    Js.startsWith condition "." = false ->
    nth_error fields index = Some (condition, value) ->
    reaches root rootValue (conditionChild info condition index) value
| reaches_specifier (info : Info) (fields : list (string * json))
    (index : nat) (specifier_ : string) (value : json) :
    reaches root rootValue info (JObject fields) ->
    specifierSet info = false ->
    Js.startsWith specifier_ "." = true ->
    nth_error fields index = Some (specifier_, value) ->
    reaches root rootValue (specifierChild info specifier_ index) value.

(** Rules of the diagnostics that an array or an object gets at its own
    path. *)
Definition nodeRules : list string :=
  ["exports-alternatives-empty"; "exports-alternatives"; "exports-object-empty";
   "exports-object-mixed"; "exports-specifier-nested";
   "exports-conditions-verbose"; "exports-conditions-default-missing";
   "exports-specifiers-verbose"; "exports-specifier-extension"].

(** Rules of the diagnostics that a conditions object gets at one of its
    keys. *)
Definition keyedRules : list string :=
  ["exports-types-verbose"; "exports-conditions-mutually-exclusive";
   "exports-conditions-default-misplaced"].

(** Rules of the diagnostics of a leaf. *)
Definition leafRules : list string :=
  ["exports-value-invalid"; "exports-path-unprefixed";
   "exports-specifier-wildcard-invalid"; "exports-specifier-wildcard-useless";
   "exports-path-wildcard-not-found"; "exports-path-not-found"].

(** A diagnostic that the functions for arrays and objects emit at a node:
    at its path, or at one of its keys. *)
Definition ownMessage (info : Info) (v : json) (m : Message) : Prop :=
  (place m = info_path info /\ In (ruleId m) nodeRules)
  \/ (exists fields key,
         v = JObject fields /\ In key (keysOf fields)
         /\ place m = info_path info ++ [Key key]
         /\ In (ruleId m) keyedRules).

(** Neither an array nor an object. *)
Definition isLeaf (v : json) : Prop :=
  match v with
  | JArray _ | JObject _ => False
  | _ => True
  end.

(** A relation [T] between states holds from before to after every walk of
    [v] that starts with information satisfying [OK]. *)
Definition walkKeeps (minimatch : string -> string -> bool)
    (fsAccess : string -> bool) (resolveUrl : string -> string -> string)
    (T : State -> State -> Prop) (OK : Info -> json -> Prop) (v : json)
    : Prop :=
  forall st info,
    OK info v -> T st (resolveExports minimatch fsAccess resolveUrl st info v).

(** [st'] is [st] with entries, negation records and messages of the given
    kinds appended; the packed files and the package URL are the same. *)
Definition adds (PE : RawExport -> Prop) (PN : NegatedExport -> Prop)
    (PM : Message -> Prop) (st st' : State) : Prop :=
  grows PE PM st st'
  /\ exists ns,
       negatedExports st' = negatedExports st ++ ns /\ Forall PN ns.

(** An entry that a leaf [v], met with the information [info], may push:
    it carries the conditions and the position of the leaf; its file path
    starts with [./]; when declared literally it has the value of the leaf
    and the specifier in force, and exists if packed or found on disk; when
    expanded from a wildcard it is a packed file. *)
Definition leafEntry (fsAccess : string -> bool)
    (resolveUrl : string -> string -> string) (packed : list string)
    (base : string) (info : Info) (v : json) (e : RawExport) : Prop :=
  conditions e = info_conditions info
  /\ jsonPath_ e = info_path info
  /\ jsonPathOrder e = info_pathOrder info
  /\ url e = resolveUrl (filePath e) base
  /\ Js.startsWith (filePath e) "./" = true
  /\ exists value,
       v = JString value
       /\ (globbed e = false ->
           filePath e = value
           /\ specifier e = specifierOrMain info
           /\ exists_ e = Js.includes packed value || fsAccess (url e))
       /\ (globbed e = true -> exists_ e = true /\ In (filePath e) packed).

(** The negation record that a [null] leaf pushes. *)
Definition leafNegation (info : Info) (v : json) (n : NegatedExport) : Prop :=
  v = JNull
  /\ n = mkNegated (info_conditions info) (info_path info)
           (info_pathOrder info) (specifierOrMain info).

(** A diagnostic of a leaf: at its path, with one of the leaf rules. *)
Definition leafMessage (info : Info) (m : Message) : Prop :=
  place m = info_path info /\ In (ruleId m) leafRules.

(** Where the additions of a walk come from: each entry, negation record
    and diagnostic belongs to a node that the walk reaches. *)
Definition entryAt (fsAccess : string -> bool)
    (resolveUrl : string -> string -> string) (packed : list string)
    (base : string) (root : Info) (rootValue : json) (e : RawExport) : Prop :=
  exists info v,
    reaches root rootValue info v
    /\ leafEntry fsAccess resolveUrl packed base info v e.

Definition negationAt (root : Info) (rootValue : json) (n : NegatedExport)
    : Prop :=
  exists info v, reaches root rootValue info v /\ leafNegation info v n.

Definition messageAt (root : Info) (rootValue : json) (m : Message) : Prop :=
  exists info v,
    reaches root rootValue info v
    /\ ((isLeaf v /\ leafMessage info m) \/ ownMessage info v m).

(** The condition keys and the specifier keys of a path: the property names
    that do not, respectively do, start with a dot. *)
Definition conditionKeys (p : jsonPath) : list string :=
  flat_map
    (fun seg =>
       match seg with
       | Key k => if Js.startsWith k "." then [] else [k]
       | Idx _ => []
       end) p.

Definition specifierKeys (p : jsonPath) : list string :=
  flat_map
    (fun seg =>
       match seg with
       | Key k => if Js.startsWith k "." then [k] else []
       | Idx _ => []
       end) p.

(** The active conditions after some more condition keys. *)
Definition moreConditions (active : option (list string)) (keys : list string)
    : option (list string) :=
  match keys with
  | [] => active
  | _ :: _ =>
      Some (match active with Some a => a ++ keys | None => keys end)
  end.

(** [follow v order]: go down from [v], taking at each level the property
    or the item at the given position; the result is the path of keys that
    was taken and the value that was found. *)
Fixpoint follow (v : json) (order : list nat) : option (jsonPath * json) :=
  match order with
  | [] => Some ([], v)
  | i :: rest =>
      match v with
      | JObject fields =>
          match nth_error fields i with
          | Some (k, w) =>
              match follow w rest with
              | Some (p, x) => Some (Key k :: p, x)
              | None => None
              end
          | None => None
          end
      | JArray items =>
          match nth_error items i with
          | Some w =>
              match follow w rest with
              | Some (p, x) => Some (Idx i :: p, x)
              | None => None
              end
          | None => None
          end
      | _ => None
      end
  end.

(** A node of [rootValue], given by the keys [rel] and the positions
    [relOrder] that lead to it. *)
Definition locates (rootValue : json) (rel : jsonPath) (relOrder : list nat)
    (node : json) : Prop :=
  follow rootValue relOrder = Some (rel, node).

(** All the rules of the diagnostics of the walk. *)
Definition walkRules : list string := nodeRules ++ keyedRules ++ leafRules.

(** The first assertion of [findWildcardReplacements] on a file: it starts
    with the text before the first wildcard of the value. *)
Definition startsWithFirstPart (parts : list string) (file : string) : bool :=
  match parts with
  | first :: _ => String.eqb (Js.slice file 0 (String.length first)) first
  | [] => false
  end.

(** Every packed file that the matcher selects for a wildcard value passes
    that assertion. *)
Definition matchesKeepPrefix (minimatch : string -> string -> bool)
    (packed : list string) (value : string) : bool :=
  match Js.indexOf value "*" 0 with
  | Some _ =>
      forallb
        (fun file =>
           implb (minimatch (Js.join "**/*" (Js.split "*" value)) file)
             (startsWithFirstPart (Js.split "*" value) file))
        packed
  | None => true
  end.

(** The assertions of the walk hold everywhere in a value: the last property
    name of an object is not empty, and the matches of a wildcard value keep
    its prefix. *)
Fixpoint assertionsHold (minimatch : string -> string -> bool)
    (packed : list string) (v : json) : bool :=
  match v with
  | JString value => matchesKeepPrefix minimatch packed value
  | JArray items => forallb (assertionsHold minimatch packed) items
  | JObject fields =>
      Js.truthy (last (keysOf fields) "default")
      && forallb (fun kv => assertionsHold minimatch packed (snd kv)) fields
  | _ => true
  end.

(** The rules of the checks on [name], [type] and [files]. *)
Definition fieldRules : list string :=
  ["name-missing"; "type-missing"; "type-invalid"; "files-missing"].

(** [has rule ms]: some diagnostic of [ms] has the rule. *)
Definition has (rule : string) (ms : list Message) : bool :=
  existsb (fun m => String.eqb (ruleId m) rule) ms.




(** A package whose export map has a main entry with conditions, a negation
    and a wildcard. *)
Definition wildcardPackage : PackageJson :=
  Sample.withExports
    (JObject
       [(".", JObject [("import", JString "./index.js"); ("default", JNull)]);
        ("./*", JString "./lib/*.js")]).

(** The diagnostic for an entry whose file was not found. *)
Definition notFoundMessage (e : RawExport) : Message :=
  mkMessage "exports-path-not-found" (jsonPath_ e) [filePath e; specifier e].

(** [st'] is [st] with entries and diagnostics appended, among them one
    [exports-path-not-found] for each appended entry that does not exist,
    and no other; the existence probes are taken in the order of the
    entries. *)
Definition reportsMissing (st st' : State) : Prop :=
  exists es ms,
    exports st' = exports st ++ es
    /\ messages st' = messages st ++ ms
    /\ map notFoundMessage (filter (fun e => negb (exists_ e)) es)
       = filter (fun m => String.eqb (ruleId m) "exports-path-not-found") ms.

(** An object that mixes a specifier with a condition, and one that nests
    specifiers. *)
Definition mixedObject : list (string * json) :=
  [("import", JString "./index.js"); ("./a", JString "./a.js")].

Definition nestedSpecifiers : list (string * json) :=
  [("./b", JString "./b.js")].

(** * Properties *)

Lemma sample_localeCompare_total :
  forall a b, (Sample.localeCompare a b > 0)%Z -> (Sample.localeCompare b a <= 0)%Z.
Proof.
  intros a b. unfold Sample.localeCompare.
  rewrite (String.compare_antisym a b).
  destruct (String.compare b a); simpl; lia.
Qed.

(** ** The packaging check *)

Lemma npmIgnored_fold (files : bool) (packed : list string) :
  forall (l : list RawExport) (st : State),
    packagedFiles st = packed ->
    fold_left
      (fun st' export_ =>
         if exists_ export_
            && negb (Js.includes (packagedFiles st') (filePath export_))
         then
           message st' "npm-ignored"
             [filePath export_;
              if files then "add it to `files` in `package.json`"
              else "remove it from `.npmignore`"]
             (jsonPath_ export_)
         else st')
      l st
    = mkState (exports st)
        (messages st ++ map (ignoredMessage files) (filter (reportedIgnored packed) l))
        (negatedExports st) (packageUrl st) (packagedFiles st) (rejected st).
Proof.
  induction l as [|e l IH]; intros st Hp; simpl.
  - rewrite app_nil_r. destruct st; reflexivity.
  - subst packed.
    change (exists_ e && negb (Js.includes (packagedFiles st) (filePath e)))
      with (reportedIgnored (packagedFiles st) e).
    destruct (reportedIgnored (packagedFiles st) e).
    + rewrite IH by reflexivity. unfold message; simpl.
      rewrite <- app_assoc. reflexivity.
    + apply IH; reflexivity.
Qed.
(** C1 (amended).  The packaging check adds one [npm-ignored] diagnostic,
    anchored at the entry's JSON path, for exactly the entries that are
    marked as existing and whose declared file path is not among the packed
    files, in entry order; it changes nothing else.  An entry whose
    existence probe failed is passed over. *)
Theorem npm_ignored_reports_existing_unshipped :
  forall (files : bool) (st : State),
    npmIgnored files st
    = mkState (exports st)
        (messages st
         ++ map (ignoredMessage files)
              (filter (reportedIgnored (packagedFiles st)) (exports st)))
        (negatedExports st) (packageUrl st) (packagedFiles st) (rejected st).
Proof.
  intros files st. unfold npmIgnored.
  apply npmIgnored_fold. reflexivity.
Qed.

(** C1 as stated fails: the sole entry of this package points to a file that
    is neither on disk nor packed, and no packaging diagnostic is emitted
    for it. *)
Lemma npm_ignored_skips_missing_file :
  exists st export_,
    resolvePackage Sample.minimatch Sample.noFile Sample.resolveUrl
      Sample.packageUrl [] (Sample.withExports (JString "./missing.js"))
    = Some st
    /\ exports st = [export_]
    /\ filePath export_ = "./missing.js"
    /\ exists_ export_ = false
    /\ Js.includes (packagedFiles st) (filePath export_) = false
    /\ map ruleId (messages st) = ["exports-path-not-found"].
Proof.
  eexists. eexists. vm_compute. repeat split; reflexivity.
Qed.

(** ** The negation pass *)

Lemma splice1_middle {A : Type} (l1 l2 : list A) (x : A) :
  splice1 (l1 ++ x :: l2) (length l1) = l1 ++ l2.
Proof.
  unfold splice1.
  induction l1 as [|a l1 IH]; simpl; [reflexivity|].
  f_equal. exact IH.
Qed.

Lemma negationLoop_filter (negated : NegatedExport) :
  forall (fuel : nat) (l1 l2 : list RawExport) (found : bool),
    (length l2 <= fuel)%nat ->
    negationLoop negated (l1 ++ l2) (length l1) found fuel
    = (l1 ++ filter (keptBy negated) l2,
       found || existsb (negationMatches negated) l2).
Proof.
  induction fuel as [|fuel IH]; intros l1 l2 found Hfuel.
  - destruct l2; simpl in Hfuel; [|lia].
    simpl. rewrite orb_false_r. reflexivity.
  - destruct l2 as [|e l2]; simpl.
    + rewrite app_nil_r.
      assert (nth_error l1 (length l1) = None) as ->
        by (apply nth_error_None; lia).
      rewrite orb_false_r. reflexivity.
    + rewrite nth_error_app2, Nat.sub_diag by lia. simpl.
      unfold keptBy at 1.
      destruct (negationMatches negated e) eqn:E; simpl.
      * rewrite splice1_middle. rewrite IH by (simpl in Hfuel; lia).
        rewrite orb_true_r. reflexivity.
      * replace (l1 ++ e :: l2) with ((l1 ++ [e]) ++ l2)
          by (rewrite <- app_assoc; reflexivity).
        replace (S (length l1)) with (length (l1 ++ [e]))
          by (rewrite length_app; simpl; lia).
        rewrite IH by (simpl in Hfuel; lia).
        rewrite <- app_assoc. reflexivity.
Qed.

(** One negation keeps the entries that it does not match and reports when
    it matched none. *)
Lemma removeNegated_filter (st : State) (negated : NegatedExport) :
  removeNegated st negated
  = let st' := setExports st (filter (keptBy negated) (exports st)) in
    if existsb (negationMatches negated) (exports st) then st'
    else
      message st' "exports-negated-missing"
        [neg_specifier negated] (neg_jsonPath negated).
Proof.
  unfold removeNegated.
  pose proof (negationLoop_filter negated (length (exports st)) []
                (exports st) false (le_n _)) as H.
  simpl in H. rewrite H. reflexivity.
Qed.
(** A negation that matches no entry leaves the entries as they are and
    adds exactly one [exports-negated-missing] diagnostic. *)
Lemma removeNegated_unmatched (st : State) (negated : NegatedExport) :
  existsb (negationMatches negated) (exports st) = false ->
  removeNegated st negated
  = message st "exports-negated-missing"
      [neg_specifier negated] (neg_jsonPath negated).
Proof.
  intros Hnone. rewrite removeNegated_filter. simpl. rewrite Hnone.
  assert (filter (keptBy negated) (exports st) = exports st) as Hkeep.
  { revert Hnone. generalize (exports st) as l.
    induction l as [|e l IH]; simpl; intros H; [reflexivity|].
    apply orb_false_iff in H as [He Hl].
    unfold keptBy at 1. rewrite He. simpl. f_equal. apply IH; exact Hl. }
  unfold setExports, message; simpl. rewrite Hkeep. reflexivity.
Qed.

Lemma includes_In (l : list string) (x : string) :
  Js.includes l x = true <-> In x l.
Proof.
  unfold Js.includes. rewrite existsb_exists. split.
  - intros [y [Hy Heq]]. apply String.eqb_eq in Heq. subst; exact Hy.
  - intros Hx. exists x. split; [exact Hx | apply String.eqb_refl].
Qed.

(** On sequences without repeated names [arrayEquivalent] is equality of the
    sets of names. *)
Lemma arrayEquivalent_sets (l r : list string) :
  NoDup l -> NoDup r ->
  (arrayEquivalent l r = true <-> (forall x, In x l <-> In x r)).
Proof.
  intros Hl Hr. unfold arrayEquivalent.
  rewrite andb_true_iff, Nat.eqb_eq, forallb_forall. split.
  - intros [Hlen Hincl] x. split.
    + intros Hx. apply includes_In. apply Hincl; exact Hx.
    + revert x. apply (NoDup_length_incl Hl); [lia|].
      intros y Hy. apply includes_In. apply Hincl; exact Hy.
  - intros Hsame. split.
    + apply Nat.le_antisymm; apply NoDup_incl_length; try assumption;
        intros y Hy; apply Hsame; exact Hy.
    + intros x Hx. apply includes_In. apply Hsame; exact Hx.
Qed.

(** C4 at [{"./a": {"import": {"import": "./a.js", "require": null}}}].
    The walk yields one entry, under the conditions [import, import], and
    one negation, under [import, require].  The two sequences do not hold
    the same names, yet [arrayEquivalent] accepts them (equal lengths, every
    name of the first among the second): the entry is removed and no
    [exports-negated-missing] is reported. *)
Theorem negation_removes_entry_with_other_conditions :
  let exportsValue :=
    JObject
      [("./a",
        JObject
          [("import",
            JObject [("import", JString "./a.js"); ("require", JNull)])])] in
  let st :=
    resolveExports Sample.minimatch Sample.noFile Sample.resolveUrl
      (Sample.emptyState ["./a.js"]) Sample.rootInfo exportsValue in
  exists export_ negated,
    exports st = [export_]
    /\ negatedExports st = [negated]
    /\ specifier export_ = "./a" /\ neg_specifier negated = "./a"
    /\ conditions export_ = Some ["import"; "import"]
    /\ neg_conditions negated = Some ["import"; "require"]
    /\ ~ (forall c, In c ["import"; "import"] <-> In c ["import"; "require"])
    /\ negationMatches negated export_ = true
    /\ exports (removeAllNegated st) = []
    /\ existsb (fun m => String.eqb (ruleId m) "exports-negated-missing")
         (messages (removeAllNegated st)) = false.
Proof.
  cbv zeta. eexists. eexists.
  split; [vm_compute; reflexivity|].
  split; [vm_compute; reflexivity|].
  repeat (split; [reflexivity|]).
  split.
  - intros H. destruct (proj2 (H "require")) as [Hc|[Hc|[]]];
      [right; left; reflexivity | discriminate Hc | discriminate Hc].
  - repeat split; vm_compute; reflexivity.
Qed.
(** ** Ordering *)

Lemma orderLoop_opp (l r : list nat) :
  forall (steps index : nat),
    orderLoop r l index steps = (- orderLoop l r index steps)%Z.
Proof.
  induction steps as [|steps IH]; intros index; simpl; [reflexivity|].
  rewrite IH.
  destruct (Z.eqb_spec (Z.of_nat (nth index r 0%nat) - Z.of_nat (nth index l 0%nat)) 0);
    destruct (Z.eqb_spec (Z.of_nat (nth index l 0%nat) - Z.of_nat (nth index r 0%nat)) 0);
    lia.
Qed.

Lemma orderLoop_first_difference (l r : list nat) :
  forall (steps index k : nat),
    (index <= k < index + steps)%nat ->
    (forall j, (index <= j < k)%nat -> nth j l 0%nat = nth j r 0%nat) ->
    nth k l 0%nat <> nth k r 0%nat ->
    orderLoop l r index steps
    = (Z.of_nat (nth k l 0%nat) - Z.of_nat (nth k r 0%nat))%Z.
Proof.
  induction steps as [|steps IH]; intros index k Hk Hsame Hdiff; [lia|].
  simpl. destruct (Nat.eq_dec index k) as [->|Hne].
  - destruct (Z.eqb_spec (Z.of_nat (nth k l 0%nat) - Z.of_nat (nth k r 0%nat)) 0);
      [lia | reflexivity].
  - rewrite (Hsame index) by lia. rewrite Z.sub_diag. simpl.
    apply IH; [lia | intros j Hj; apply Hsame; lia | exact Hdiff].
Qed.

Lemma orderLoop_no_difference (l r : list nat) :
  forall (steps index : nat),
    (forall j, (index <= j < index + steps)%nat -> nth j l 0%nat = nth j r 0%nat) ->
    orderLoop l r index steps = 0%Z.
Proof.
  induction steps as [|steps IH]; intros index Hsame; [reflexivity|].
  simpl. rewrite (Hsame index) by lia. rewrite Z.sub_diag. simpl.
  apply IH. intros j Hj. apply Hsame. lia.
Qed.

Section OrderingFacts.

Variable localeCompare : string -> string -> Z.

Lemma compareExport_first_difference (x y : RawExport) (k : nat) :
  (forall j, (j < k)%nat ->
     nth j (jsonPathOrder x) 0%nat = nth j (jsonPathOrder y) 0%nat) ->
  nth k (jsonPathOrder x) 0%nat <> nth k (jsonPathOrder y) 0%nat ->
  compareExport localeCompare x y
  = (Z.of_nat (nth k (jsonPathOrder x) 0%nat)
     - Z.of_nat (nth k (jsonPathOrder y) 0%nat))%Z.
Proof.
  intros Hsame Hdiff. unfold compareExport.
  assert (k < Nat.max (length (jsonPathOrder x)) (length (jsonPathOrder y)))%nat
    as Hk.
  { destruct (Nat.lt_ge_cases k
                (Nat.max (length (jsonPathOrder x)) (length (jsonPathOrder y))))
      as [H|H]; [exact H|].
    exfalso. apply Hdiff. rewrite !nth_overflow by lia. reflexivity. }
  rewrite (orderLoop_first_difference _ _ _ 0 k);
    [| lia | intros j Hj; apply Hsame; lia | exact Hdiff].
  destruct (Z.eqb_spec
              (Z.of_nat (nth k (jsonPathOrder x) 0%nat)
               - Z.of_nat (nth k (jsonPathOrder y) 0%nat)) 0);
    [lia | reflexivity].
Qed.

Lemma compareExport_no_difference (x y : RawExport) :
  (forall j, nth j (jsonPathOrder x) 0%nat = nth j (jsonPathOrder y) 0%nat) ->
  compareExport localeCompare x y = tieBreak localeCompare x y.
Proof.
  intros Hsame. unfold compareExport, tieBreak.
  rewrite orderLoop_no_difference by (intros j _; apply Hsame).
  simpl.
  destruct (Z.eqb_spec
              (Z.of_nat (length (Js.split "/" (specifier x)))
               - Z.of_nat (length (Js.split "/" (specifier y)))) 0);
    reflexivity.
Qed.

Lemma sortExports_permutation (l : list RawExport) :
  Permutation l (sortExports localeCompare l).
Proof.
  induction l as [|x l IH]; simpl; [constructor|].
  apply perm_trans with (x :: sortExports localeCompare l);
    [constructor; exact IH|].
  generalize (sortExports localeCompare l) as s. clear.
  induction s as [|y s IH]; simpl; [apply Permutation_refl|].
  destruct (compareExport localeCompare x y <=? 0)%Z.
  - apply Permutation_refl.
  - apply perm_trans with (y :: x :: s); [apply perm_swap|].
    constructor. exact IH.
Qed.

Lemma sortExports_fixed (l : list RawExport) :
  Sorted (inOrder localeCompare) l -> sortExports localeCompare l = l.
Proof.
  induction 1 as [|x l Hsorted IH Hhd]; simpl; [reflexivity|].
  rewrite IH. destruct Hhd as [|y l Hxy]; simpl; [reflexivity|].
  unfold inOrder in Hxy. apply Z.leb_le in Hxy. rewrite Hxy. reflexivity.
Qed.

Hypothesis localeCompare_total :
  forall a b, (localeCompare a b > 0)%Z -> (localeCompare b a <= 0)%Z.

Lemma compareExport_total (x y : RawExport) :
  ~ inOrder localeCompare x y -> inOrder localeCompare y x.
Proof.
  unfold inOrder, compareExport. intros Hxy.
  rewrite (Nat.max_comm (length (jsonPathOrder y))).
  rewrite (orderLoop_opp (jsonPathOrder x) (jsonPathOrder y)).
  remember (orderLoop (jsonPathOrder x) (jsonPathOrder y) 0
              (Nat.max (length (jsonPathOrder x)) (length (jsonPathOrder y))))
    as d eqn:Hd. clear Hd.
  remember (Z.of_nat (length (Js.split "/" (specifier x)))) as sx eqn:Hsx.
  remember (Z.of_nat (length (Js.split "/" (specifier y)))) as sy eqn:Hsy.
  clear Hsx Hsy.
  pose proof (localeCompare_total (specifier x) (specifier y)) as Hlc.
  destruct (Z.eqb_spec d 0); destruct (Z.eqb_spec (- d) 0); simpl in *; try lia.
  destruct (Z.eqb_spec (sx - sy) 0); destruct (Z.eqb_spec (sy - sx) 0);
    simpl in *; lia.
Qed.

Lemma insertExport_sorted (x : RawExport) (l : list RawExport) :
  Sorted (inOrder localeCompare) l -> Sorted (inOrder localeCompare) (insertExport localeCompare x l).
Proof.
  induction 1 as [|y l Hsorted IH Hhd]; simpl.
  - repeat constructor.
  - destruct (Z.leb_spec (compareExport localeCompare x y) 0) as [Hle|Hgt].
    + constructor; [constructor; assumption | constructor; exact Hle].
    + constructor; [exact IH|].
      assert (inOrder localeCompare y x) as Hyx
        by (apply compareExport_total; unfold inOrder; lia).
      destruct Hhd as [|z l Hyz]; simpl.
      * constructor; exact Hyx.
      * destruct (compareExport localeCompare x z <=? 0)%Z;
          constructor; assumption.
Qed.

Lemma sortExports_sorted (l : list RawExport) :
  Sorted (inOrder localeCompare) (sortExports localeCompare l).
Proof.
  induction l as [|x l IH]; simpl; [constructor|].
  apply insertExport_sorted; exact IH.
Qed.

End OrderingFacts.
(** C7 (amended).  [packageExports] returns the entries ordered by
    [compareExport]: the result is a rearrangement of the resolved entries in
    which every entry is in order with its successor, and sorting it once
    more changes nothing.  The comparator takes the first non-zero
    difference between the two [jsonPathOrder] sequences read position by
    position, a missing position counting as [0] (a sequence and its
    extension by zeros tie); on a tie it compares the numbers of
    [/]-separated segments of the specifiers and then the specifiers with
    [localeCompare]. *)
Theorem final_entries_sorted_by_compareExport :
  forall (localeCompare : string -> string -> Z),
    (forall a b, (localeCompare a b > 0)%Z -> (localeCompare b a <= 0)%Z) ->
    (forall minimatch fsAccess resolveUrl packageUrl_ packed packageData st,
        resolvePackage minimatch fsAccess resolveUrl packageUrl_ packed packageData
        = Some st ->
        exists result,
          packageExports minimatch fsAccess resolveUrl localeCompare
            packageUrl_ packed packageData = Some result
          /\ res_exports result
             = map rawExportToExport (sortExports localeCompare (exports st)))
    /\ (forall l,
           Permutation l (sortExports localeCompare l)
           /\ Sorted (inOrder localeCompare) (sortExports localeCompare l)
           /\ sortExports localeCompare (sortExports localeCompare l)
              = sortExports localeCompare l)
    /\ (forall x y k,
           (forall j, (j < k)%nat ->
              nth j (jsonPathOrder x) 0%nat = nth j (jsonPathOrder y) 0%nat) ->
           nth k (jsonPathOrder x) 0%nat <> nth k (jsonPathOrder y) 0%nat ->
           compareExport localeCompare x y
           = (Z.of_nat (nth k (jsonPathOrder x) 0%nat)
              - Z.of_nat (nth k (jsonPathOrder y) 0%nat))%Z)
    /\ (forall x y,
           (forall j, nth j (jsonPathOrder x) 0%nat = nth j (jsonPathOrder y) 0%nat) ->
           compareExport localeCompare x y = tieBreak localeCompare x y).
Proof.
  intros localeCompare Htotal. repeat split.
  - intros minimatch fsAccess resolveUrl packageUrl_ packed packageData st Hst.
    unfold packageExports. rewrite Hst. eexists. split; reflexivity.
  - apply sortExports_permutation.
  - apply sortExports_sorted; exact Htotal.
  - apply sortExports_fixed. apply sortExports_sorted; exact Htotal.
  - intros x y k. apply compareExport_first_difference.
  - intros x y. apply compareExport_no_difference.
Qed.

Lemma final_entries_sorted_by_compareExport_witness :
  (forall a b,
      (Sample.localeCompare a b > 0)%Z -> (Sample.localeCompare b a <= 0)%Z)
  /\ Permutation legacyEntries (sortExports Sample.localeCompare legacyEntries)
  /\ Sorted (inOrder Sample.localeCompare)
       (sortExports Sample.localeCompare legacyEntries)
  /\ sortExports Sample.localeCompare
       (sortExports Sample.localeCompare legacyEntries)
     = sortExports Sample.localeCompare legacyEntries.
Proof.
  split; [exact sample_localeCompare_total|].
  exact (proj1 (proj2 (final_entries_sorted_by_compareExport
                         Sample.localeCompare sample_localeCompare_total))
           legacyEntries).
Defined.

(** C7 as stated fails: with [main] and no [exports], the entry of a packed
    file carries the empty [jsonPathOrder], a strict prefix of the [[0]] of
    the entry for [main], and yet is ordered after it. *)
Lemma strict_prefix_ordered_after_extension :
  exists st main file,
    resolvePackage Sample.minimatch Sample.noFile Sample.resolveUrl
      Sample.packageUrl ["./index.js"] legacyPackage = Some st
    /\ exports st = legacyEntries
    /\ sortExports Sample.localeCompare (exports st) = [main; file]
    /\ jsonPathOrder file = []
    /\ jsonPathOrder main = [0%nat]
    /\ (compareExport Sample.localeCompare file main > 0)%Z.
Proof.
  do 3 eexists. vm_compute. repeat split; reflexivity.
Qed.
(** ** Wildcard expansion *)

Lemma replacementFor_round_trip (parts : list string) (filePath_ : string)
    (found : list string) :
  replacementFor parts filePath_ = Some found ->
  map (fun replacement => Js.join replacement parts) found
  = if hasReplacement parts filePath_ then [filePath_] else [].
Proof.
  unfold hasReplacement. intros H. rewrite H.
  unfold replacementFor in H.
  destruct (nth_error parts 0) as [first|]; [|discriminate].
  destruct (nth_error parts 1) as [second|]; [|discriminate].
  destruct (String.eqb (Js.slice filePath_ 0 (String.length first)) first);
    [|discriminate].
  destruct (find _ _) as [option|] eqn:Hfind; inversion H; subst; simpl.
  - apply find_some in Hfind as [_ Heq]. apply String.eqb_eq in Heq.
    rewrite Heq. reflexivity.
  - reflexivity.
Qed.

(** The recovered substitutions, re-joined through the value pattern, are
    the files for which one was recovered, in order. *)
Lemma findWildcardReplacements_round_trip (parts : list string) :
  forall (filePaths replacements : list string),
    findWildcardReplacements parts filePaths = Some replacements ->
    map (fun replacement => Js.join replacement parts) replacements
    = filter (hasReplacement parts) filePaths.
Proof.
  induction filePaths as [|f rest IH]; simpl; intros replacements H.
  - inversion H. reflexivity.
  - destruct (replacementFor parts f) as [found|] eqn:Hf; [|discriminate].
    destruct (findWildcardReplacements parts rest) as [results|]; [|discriminate].
    inversion H; subst. rewrite map_app, (IH results eq_refl).
    rewrite (replacementFor_round_trip _ _ _ Hf).
    destruct (hasReplacement parts f); reflexivity.
Qed.

Section WildcardFacts.

Variable minimatch : string -> string -> bool.
Variable fsAccess : string -> bool.
Variable resolveUrl : string -> string -> string.

Lemma addDynamic_fold (info : Info) (specifier_ : string * string)
    (valueParts : list string) :
  forall (replacements : list string) (st : State),
    fold_left
      (fun st' replacement =>
         addResolved fsAccess resolveUrl st' info true false
           (fst specifier_ ++ replacement ++ snd specifier_)
           (Some (Js.join replacement valueParts)))
      replacements st
    = mkState
        (exports st
         ++ map (expandedEntry resolveUrl st info specifier_ valueParts) replacements)
        (messages st) (negatedExports st) (packageUrl st)
        (packagedFiles st) (rejected st).
Proof.
  induction replacements as [|r rs IH]; intros st; simpl.
  - rewrite app_nil_r. destruct st; reflexivity.
  - rewrite IH. unfold pushExport; simpl.
    rewrite <- app_assoc. reflexivity.
Qed.

Lemma addDynamic_exports (st : State) (info : Info)
    (specifier_ : string * string) (valueParts : list string) :
  exports (addDynamic minimatch fsAccess resolveUrl st info specifier_ valueParts)
  = exports st
    ++ map (expandedEntry resolveUrl st info specifier_ valueParts) (expansions minimatch st valueParts).
Proof.
  unfold addDynamic, expansions.
  destruct (filter _ (packagedFiles st)) as [|f results] eqn:Hresults.
  - simpl. rewrite app_nil_r. reflexivity.
  - destruct (findWildcardReplacements valueParts (f :: results)).
    + rewrite addDynamic_fold. reflexivity.
    + simpl. rewrite app_nil_r. reflexivity.
Qed.

Lemma expansions_matched (st : State) (valueParts : list string) :
  exists matched,
    incl matched
      (filter (minimatch (Js.join "**/*" valueParts)) (packagedFiles st))
    /\ (NoDup (packagedFiles st) -> NoDup matched)
    /\ map (fun replacement => Js.join replacement valueParts)
         (expansions minimatch st valueParts) = matched.
Proof.
  unfold expansions.
  destruct (findWildcardReplacements valueParts _) as [rs|] eqn:H.
  - apply findWildcardReplacements_round_trip in H. rewrite H.
    eexists. split; [|split; [|reflexivity]].
    + intros f Hf. apply filter_In in Hf. tauto.
    + intros Hnodup. apply NoDup_filter. apply NoDup_filter. exact Hnodup.
  - exists []. split; [intros f []|]. split; [constructor | reflexivity].
Qed.

End WildcardFacts.

Example wildcard_expansion_sample :
  map specifier
    (exports (addDynamic Sample.minimatch Sample.noFile Sample.resolveUrl
                (Sample.emptyState ["./lib/a.js"; "./lib/sub/b.js"; "./readme.md"])
                (mkInfo None [Key "exports"; Key "./*"] [0%nat; 0%nat] (Some "./*"))
                ("./", "") ["./lib/"; ".js"]))
  = ["./a"; "./sub/b"].
Proof. vm_compute. reflexivity. Qed.
(** ** Facts about the string primitives *)

Lemma occurrences_app (c : ascii) (a b : string) :
  Js.occurrences c (a ++ b) = (Js.occurrences c a + Js.occurrences c b)%nat.
Proof.
  induction a as [|x a IH]; simpl; [reflexivity|]. rewrite IH. lia.
Qed.

Lemma prefix_char (c x : ascii) (s : string) :
  String.prefix (String c EmptyString) (String x s) = Ascii.eqb x c.
Proof.
  simpl. destruct (ascii_dec c x) as [->|Hne].
  - rewrite Ascii.eqb_refl. destruct s; reflexivity.
  - symmetry. apply Ascii.eqb_neq. congruence.
Qed.

(** What a search for one character finds: nothing when the character does
    not occur, else the offset of its first occurrence. *)
Lemma search_char (c : ascii) (s : string) :
  forall pos,
    match Js.search (String c EmptyString) s pos with
    | None => Js.occurrences c s = 0%nat
    | Some k =>
        exists n, k = (pos + n)%nat /\ (n < String.length s)%nat
                  /\ Js.occurrences c (Js.take n s) = 0%nat
                  /\ s = (Js.take n s ++ String c (Js.drop (S n) s))%string
    end.
Proof.
  induction s as [|x s IH]; intros pos.
  - simpl. reflexivity.
  - unfold Js.search; fold Js.search. rewrite prefix_char.
    destruct (Ascii.eqb x c) eqn:E.
    + exists 0%nat. apply Ascii.eqb_eq in E. subst. simpl.
      repeat split; lia.
    + specialize (IH (S pos)).
      destruct (Js.search (String c EmptyString) s (S pos)) as [k|].
      * destruct IH as [n [Hk [Hn [Hocc Hs]]]].
        exists (S n). simpl. rewrite E. simpl.
        repeat split; try lia; try assumption.
        f_equal. exact Hs.
      * simpl. rewrite E. simpl. exact IH.
Qed.

Lemma indexOf_char_None (c : ascii) (s : string) :
  Js.indexOf s (String c EmptyString) 0 = None -> Js.occurrences c s = 0%nat.
Proof.
  unfold Js.indexOf. simpl. intros H.
  pose proof (search_char c s 0) as Hs. rewrite H in Hs. exact Hs.
Qed.

Lemma indexOf_char_Some (c : ascii) (s : string) (i : nat) :
  Js.indexOf s (String c EmptyString) 0 = Some i ->
  (i < String.length s)%nat
  /\ Js.occurrences c (Js.slice s 0 i) = 0%nat
  /\ s = (Js.slice s 0 i ++ String c (Js.sliceFrom s (i + 1)))%string.
Proof.
  unfold Js.indexOf, Js.slice, Js.sliceFrom. simpl. intros H.
  pose proof (search_char c s 0) as Hs. rewrite H in Hs.
  destruct Hs as [n [Hk [Hn [Hocc Hs]]]]. simpl in Hk. subst n.
  rewrite Nat.sub_0_r. replace (i + 1)%nat with (S i) by lia.
  repeat split; assumption.
Qed.

Lemma includesFrom_char_false (c : ascii) (s : string) (from : nat) :
  (from <= String.length s)%nat ->
  Js.includesFrom s (String c EmptyString) from = false ->
  Js.occurrences c (Js.sliceFrom s from) = 0%nat.
Proof.
  unfold Js.includesFrom, Js.indexOf, Js.sliceFrom. intros Hle H.
  rewrite Nat.min_l in H by exact Hle.
  pose proof (search_char c (Js.drop from s) from) as Hs.
  destruct (Js.search (String c EmptyString) (Js.drop from s) from);
    [discriminate | exact Hs].
Qed.

Lemma startsWith_app (s t p : string) :
  Js.startsWith s p = true -> Js.startsWith (s ++ t) p = true.
Proof.
  unfold Js.startsWith. revert s.
  induction p as [|a p IH]; intros s H; [destruct (s ++ t)%string; reflexivity|].
  destruct s as [|b s]; simpl in *; [discriminate|].
  destruct (ascii_dec a b); [apply IH; exact H | discriminate].
Qed.

Lemma startsWith_dot_take (s : string) (n : nat) :
  Js.startsWith s "." = true ->
  Js.occurrences "*" (Js.take n s) = 0%nat ->
  (n < String.length s)%nat ->
  s = (Js.take n s ++ String "*" (Js.drop (S n) s))%string ->
  Js.startsWith (Js.take n s) "." = true.
Proof.
  intros Hdot _ Hn Hs. destruct n as [|n].
  - destruct s as [|a s]; [discriminate Hdot|].
    simpl in Hs. injection Hs as Ha. subst a.
    unfold Js.startsWith in Hdot. simpl in Hdot.
    destruct (ascii_dec "." "*"); discriminate.
  - destruct s as [|a s]; [discriminate Hdot|].
    unfold Js.startsWith in *. simpl Js.take.
    rewrite prefix_char in *. exact Hdot.
Qed.

Lemma split_length (c : ascii) (s : string) :
  length (Js.split c s) = S (Js.occurrences c s).
Proof.
  induction s as [|a s IH]; simpl; [reflexivity|].
  destruct (Ascii.eqb a c); simpl; [rewrite IH; reflexivity|].
  destruct (Js.split c s); simpl in *; [discriminate | exact IH].
Qed.

Lemma join_occurrences (c : ascii) (r : string) (parts : list string) :
  (2 <= length parts)%nat ->
  (Js.occurrences c r <= Js.occurrences c (Js.join r parts))%nat.
Proof.
  destruct parts as [|p [|q rest]]; simpl; try lia. intros _.
  rewrite !occurrences_app. lia.
Qed.
(** ** What a walk adds to the state *)

Lemma under_child (p : jsonPath) (seg : segment) (m : Message) :
  under (p ++ [seg]) m -> below p m.
Proof.
  intros [suffix [Hplace _]]. exists (seg :: suffix).
  rewrite Hplace, <- app_assoc. split; [reflexivity | discriminate].
Qed.

Lemma below_under (p : jsonPath) (m : Message) : below p m -> under p m.
Proof.
  intros [suffix [Hplace Hne]]. exists suffix. split; [exact Hplace | auto].
Qed.

Lemma under_here (p : jsonPath) (rule : string) (info : list string) :
  keyRule rule = false -> under p (mkMessage rule p info).
Proof.
  intros Hrule. exists []. simpl. rewrite app_nil_r.
  split; [reflexivity | rewrite Hrule; discriminate].
Qed.

Lemma below_key (p : jsonPath) (seg : segment) (rule : string)
    (info : list string) :
  below p (mkMessage rule (p ++ [seg]) info).
Proof. exists [seg]. split; [reflexivity | discriminate]. Qed.

Section Grows.

Variable PE : RawExport -> Prop.
Variable PM : Message -> Prop.

Lemma grows_refl (st : State) : grows PE PM st st.
Proof.
  exists [], [], []. rewrite !app_nil_r. repeat split; constructor.
Qed.

Lemma grows_trans (st1 st2 st3 : State) :
  grows PE PM st1 st2 -> grows PE PM st2 st3 -> grows PE PM st1 st3.
Proof.
  intros [es [ms [ns [He [HPe [Hm [HPm [Hn [Hf Hu]]]]]]]]]
         [es' [ms' [ns' [He' [HPe' [Hm' [HPm' [Hn' [Hf' Hu']]]]]]]]].
  exists (es ++ es'), (ms ++ ms'), (ns ++ ns').
  rewrite He', He, Hm', Hm, Hn', Hn, Hf', Hf, Hu', Hu, !app_assoc.
  repeat split; try reflexivity; apply Forall_app; split; assumption.
Qed.

Lemma grows_message (st : State) (rule : string) (info : list string)
    (p : jsonPath) :
  PM (mkMessage rule p info) -> grows PE PM st (message st rule info p).
Proof.
  intros H. exists [], [mkMessage rule p info], []. simpl.
  rewrite !app_nil_r. repeat split; repeat constructor; exact H.
Qed.

Lemma grows_pushExport (st : State) (e : RawExport) :
  PE e -> grows PE PM st (pushExport st e).
Proof.
  intros H. exists [e], [], []. simpl.
  rewrite !app_nil_r. repeat split; repeat constructor; exact H.
Qed.

Lemma grows_pushNegated (st : State) (n : NegatedExport) :
  grows PE PM st (pushNegated st n).
Proof.
  exists [], [], [n]. simpl.
  rewrite !app_nil_r. repeat split; repeat constructor.
Qed.

Lemma grows_reject (st : State) : grows PE PM st (reject st).
Proof.
  exists [], [], []. simpl.
  rewrite !app_nil_r. repeat split; repeat constructor.
Qed.

End Grows.

Lemma grows_weaken (PE PE' : RawExport -> Prop) (PM PM' : Message -> Prop)
    (st st' : State) :
  (forall e, PE e -> PE' e) -> (forall m, PM m -> PM' m) ->
  grows PE PM st st' -> grows PE' PM' st st'.
Proof.
  intros HE HM [es [ms [ns [He [HPe [Hm [HPm H]]]]]]].
  exists es, ms, ns. repeat split; try tauto.
  - eapply Forall_impl; [exact HE | exact HPe].
  - eapply Forall_impl; [exact HM | exact HPm].
Qed.
Lemma slice_keeps_dot (s : string) (i : nat) :
  Js.startsWith s "." = true ->
  Js.indexOf s "*" 0 = Some i ->
  Js.startsWith (Js.slice s 0 i) "." = true.
Proof.
  intros Hdot Hi. apply indexOf_char_Some in Hi as [Hlt [Hocc Hs]].
  unfold Js.slice, Js.sliceFrom in *. simpl Js.drop in *.
  rewrite Nat.sub_0_r in *. replace (i + 1)%nat with (S i) in Hs by lia.
  apply startsWith_dot_take; assumption.
Qed.

Lemma indexOf_char_occurs (c : ascii) (s : string) (i : nat) :
  Js.indexOf s (String c EmptyString) 0 = Some i ->
  (1 <= Js.occurrences c s)%nat.
Proof.
  intros Hi. apply indexOf_char_Some in Hi as [_ [_ Hs]].
  rewrite Hs, occurrences_app. simpl. rewrite Ascii.eqb_refl. lia.
Qed.

Lemma single_wildcard (s : string) (i : nat) :
  Js.indexOf s "*" 0 = Some i ->
  Js.includesFrom s "*" (i + 1) = false ->
  Js.occurrences "*" (Js.slice s 0 i) = 0%nat
  /\ Js.occurrences "*" (Js.sliceFrom s (i + 1)) = 0%nat
  /\ Js.occurrences "*" s = 1%nat.
Proof.
  intros Hi Hno. apply indexOf_char_Some in Hi as [Hlt [Hocc Hs]].
  assert (Js.occurrences "*" (Js.sliceFrom s (i + 1)) = 0%nat) as Hrest
    by (apply includesFrom_char_false; [lia | exact Hno]).
  repeat split; try assumption.
  rewrite Hs, occurrences_app. simpl. rewrite Hocc, Hrest. reflexivity.
Qed.

Section WalkFacts.

Variable minimatch : string -> string -> bool.
Variable fsAccess : string -> bool.
Variable resolveUrl : string -> string -> string.

Lemma addResolved_grows (PE : RawExport -> Prop) (st : State) (info : Info)
    (definitelyExists explicitlyDefined : bool) (specifier_ : string)
    (value : option string) :
  (forall v found target,
      value = Some v ->
      PE
        (mkExport (info_conditions info) found v (negb explicitlyDefined)
           (info_path info) (info_pathOrder info) specifier_ target)) ->
  grows PE (under (info_path info)) st
    (addResolved fsAccess resolveUrl st info definitelyExists
       explicitlyDefined specifier_ value).
Proof.
  intros Hentry. destruct value as [v|]; simpl.
  - match goal with
    | |- context [if ?found then _ else _] => destruct found eqn:Hfound
    end.
    + apply grows_pushExport. apply Hentry. reflexivity.
    + eapply grows_trans.
      * apply grows_pushExport. apply Hentry. reflexivity.
      * apply grows_message. apply under_here. reflexivity.
  - apply grows_pushNegated.
Qed.

Lemma addDynamic_grows (PE : RawExport -> Prop) (st : State) (info : Info)
    (specifier_ : string * string) (valueParts : list string) :
  (forall replacement,
      PE (expandedEntry resolveUrl st info specifier_ valueParts replacement)) ->
  grows PE (under (info_path info)) st
    (addDynamic minimatch fsAccess resolveUrl st info specifier_ valueParts).
Proof.
  intros Hentry. unfold addDynamic.
  destruct (filter _ (packagedFiles st)) as [|f results].
  - apply grows_message. apply under_here. reflexivity.
  - destruct (findWildcardReplacements valueParts (f :: results)) as [rs|].
    + rewrite addDynamic_fold.
      exists (map (expandedEntry resolveUrl st info specifier_ valueParts) rs),
        [], [].
      simpl. rewrite !app_nil_r. repeat split; try constructor.
      apply Forall_forall. intros e He.
      apply in_map_iff in He as [r [<- _]]. apply Hentry.
    + apply grows_reject.
Qed.

Lemma expandedEntry_ok (st : State) (info : Info)
    (specifier_ : string * string) (valueParts : list string)
    (replacement : string) :
  Js.startsWith (fst specifier_) "." = true ->
  Js.occurrences "*" (fst specifier_) = 0%nat ->
  Js.occurrences "*" (snd specifier_) = 0%nat ->
  (2 <= length valueParts)%nat ->
  entryOK (expandedEntry resolveUrl st info specifier_ valueParts replacement).
Proof.
  intros Hdot Hpre Hsuf Hparts.
  unfold entryOK, expandedEntry; simpl. repeat split.
  - apply startsWith_app. exact Hdot.
  - discriminate.
  - intros _. rewrite !occurrences_app, Hpre, Hsuf.
    pose proof (join_occurrences "*" replacement valueParts Hparts). lia.
Qed.

(** A leaf adds messages at its own path only. *)
Lemma addValue_messages (st : State) (info : Info) (exportsValue : json) :
  grows (fun _ => True) (under (info_path info)) st
    (addValue minimatch fsAccess resolveUrl st info exportsValue).
Proof.
  destruct exportsValue as [|b|n|value|items|fields];
    unfold addValue; cbv beta iota;
    try (apply grows_message; apply under_here; reflexivity).
  - apply addResolved_grows. trivial.
  - destruct (Js.startsWith value "./"); cbv beta iota delta [negb];
      [|apply grows_message; apply under_here; reflexivity].
    destruct (Js.indexOf (specifierOrMain info) "*" 0) as [i|];
      [|apply addResolved_grows; trivial].
    destruct (Js.includesFrom (specifierOrMain info) "*" (i + 1));
      [apply grows_message; apply under_here; reflexivity|].
    destruct (Js.indexOf value "*" 0) as [j|].
    + apply addDynamic_grows. trivial.
    + eapply grows_trans; cycle 1.
      * apply addResolved_grows. trivial.
      * apply grows_message. apply under_here. reflexivity.
Qed.

Lemma addValue_grows (st : State) (info : Info) (exportsValue : json) :
  infoOK info ->
  grows entryOK (under (info_path info)) st (addValue minimatch fsAccess resolveUrl st info exportsValue).
Proof.
  intros Hok. unfold infoOK in Hok.
  destruct exportsValue as [|b|n|value|items|fields];
    unfold addValue; cbv beta iota;
    try (apply grows_message; apply under_here; reflexivity).
  - apply addResolved_grows. discriminate.
  - destruct (Js.startsWith value "./"); cbv beta iota delta [negb];
      [|apply grows_message; apply under_here; reflexivity].
    destruct (Js.indexOf (specifierOrMain info) "*" 0) as [i|] eqn:Hi.
    + destruct (Js.includesFrom (specifierOrMain info) "*" (i + 1)) eqn:Hmore;
        [apply grows_message; apply under_here; reflexivity|].
      destruct (single_wildcard _ _ Hi Hmore) as [Hpre [Hsuf Hone]].
      destruct (Js.indexOf value "*" 0) as [j|] eqn:Hj.
      * apply addDynamic_grows. intros replacement.
        apply expandedEntry_ok; simpl; try assumption.
        -- apply slice_keeps_dot; assumption.
        -- rewrite split_length.
           pose proof (indexOf_char_occurs "*" value j Hj). lia.
      * eapply grows_trans; cycle 1.
        -- apply addResolved_grows. intros v found target Hv.
           inversion Hv; subst v. unfold entryOK; simpl.
           repeat split; [exact Hok | | discriminate].
           intros _. right. split; [exact Hone|].
           apply indexOf_char_None. exact Hj.
        -- apply grows_message. apply under_here. reflexivity.
    + apply addResolved_grows. intros v found target Hv.
      unfold entryOK; simpl. repeat split; [exact Hok | | discriminate].
      intros _. left. apply indexOf_char_None. exact Hi.
Qed.

Abbreviation walk := (resolveExports minimatch fsAccess resolveUrl).

Section Generic.

(** A property [PE] of the entries, kept by the leaves whenever the node
  information satisfies [OK]; [OK] passes from a node to its children. *)
Variable PE : RawExport -> Prop.
Variable OK : Info -> Prop.

Hypothesis leaf_ok :
forall st info v,
  OK info ->
  grows PE (under (info_path info)) st
    (addValue minimatch fsAccess resolveUrl st info v).
Hypothesis same_ok :
forall info c p o, OK info -> OK (mkInfo c p o (info_specifier info)).
Hypothesis key_ok :
forall key c p o,
  Js.startsWith key "." = true -> OK (mkInfo c p o (Some key)).

Lemma exclusiveCheck_grows (st : State) (info : Info) (condition : string) :
grows PE (below (info_path info)) st (exclusiveCheck st info condition).
Proof.
unfold exclusiveCheck. generalize mutuallyExclusiveConditions as groups.
intros groups. revert st.
induction groups as [|g groups IH]; intros st; simpl; [apply grows_refl|].
eapply grows_trans; [|apply IH].
destruct (info_conditions info) as [active|]; [|apply grows_refl].
destruct (negb (Js.includes (me_conditions g) condition)); [apply grows_refl|].
destruct (find (Js.includes (me_conditions g)) active);
  [|apply grows_refl].
apply grows_message. apply below_key.
Qed.

Lemma child_grows (v : json) (st : State) (info : Info) (seg : segment)
  (c : option (list string)) (o : list nat) (s : option string) :
walkGrows minimatch fsAccess resolveUrl PE OK v ->
OK (mkInfo c (info_path info ++ [seg]) o s) ->
grows PE (below (info_path info)) st
  (walk st (mkInfo c (info_path info ++ [seg]) o s) v).
Proof.
intros Hv Hok.
eapply grows_weaken; [| |apply (Hv st _ Hok)]; [auto|].
intros m Hm. simpl in Hm. apply under_child in Hm. exact Hm.
Qed.

Lemma conditionsLoop_grows (info : Info) :
OK info ->
forall fields,
  Forall (fun kv => walkGrows minimatch fsAccess resolveUrl PE OK (snd kv)) fields ->
  forall index st hasDefault last_,
    grows PE (below (info_path info)) st
      (fst (fst (conditionsLoop walk info fields index st hasDefault last_))).
Proof.
intros Hok fields Hfields.
induction Hfields as [|[condition value] rest Hvalue _ IH];
  intros index st hasDefault last_; simpl; [apply grows_refl|].
eapply grows_trans; [|apply IH].
eapply grows_trans; [apply exclusiveCheck_grows|].
apply child_grows; [exact Hvalue|].
apply same_ok. exact Hok.
Qed.

Lemma specifiersLoop_grows (info : Info) (keys : list string) :
forall fields,
  Forall (fun kv => walkGrows minimatch fsAccess resolveUrl PE OK (snd kv)) fields ->
  Forall (fun kv => Js.startsWith (fst kv) "." = true) fields ->
  forall index st,
    grows PE (under (info_path info)) st
      (specifiersLoop walk info keys fields index st).
Proof.
intros fields Hfields.
induction Hfields as [|[key value] rest Hvalue _ IH];
  intros Hdots index st; simpl; [apply grows_refl|].
inversion Hdots as [|? ? Hkey Hrest]; subst.
eapply grows_trans; [|apply IH; exact Hrest].
eapply grows_trans; cycle 1.
- eapply grows_weaken; [| |apply child_grows];
    [auto | apply below_under | exact Hvalue |].
  apply key_ok. exact Hkey.
- match goal with
  | |- grows _ _ _ (if ?c then _ else _) => destruct c
  end;
    [apply grows_message; apply under_here; reflexivity | apply grows_refl].
Qed.

Lemma dotsLoop_some (keys : list string) :
forall d mixed d' mixed',
  dotsLoop keys (Some d) mixed = (d', mixed') ->
  d' = Some d
  /\ (mixed' = false ->
      mixed = false /\ Forall (fun k => Js.startsWith k "." = d) keys).
Proof.
induction keys as [|key rest IH]; intros d mixed d' mixed' H; simpl in H.
- inversion H; subst. split; [reflexivity|]. intros ->. split; constructor.
- apply IH in H as [Hd Hmixed]. split; [exact Hd|].
  intros Hfalse. destruct (Hmixed Hfalse) as [Hif Hrest].
  destruct (Bool.eqb d (Js.startsWith key ".")) eqn:E; [|discriminate].
  apply Bool.eqb_prop in E. split; [exact Hif|].
  constructor; [symmetry; exact E | exact Hrest].
Qed.

Lemma dotsLoop_unmixed (keys : list string) (dots : bool) :
dotsLoop keys None false = (Some dots, false) ->
Forall (fun k => Js.startsWith k "." = dots) keys.
Proof.
destruct keys as [|key rest]; simpl; [discriminate|].
intros H. apply dotsLoop_some in H as [Hd Hmixed].
inversion Hd; subst. constructor; [reflexivity|].
apply Hmixed. reflexivity.
Qed.

Lemma resolveExportsConditions_grows (st : State) (info : Info)
  (fields : list (string * json)) :
OK info ->
Forall (fun kv => walkGrows minimatch fsAccess resolveUrl PE OK (snd kv)) fields ->
grows PE (under (info_path info)) st
  (resolveExportsConditions walk st info fields).
Proof.
intros Hok Hfields. unfold resolveExportsConditions.
match goal with
| |- context [if typesVerbose fields then message ?s1 _ _ _ else _] =>
    assert (grows PE (under (info_path info)) st s1) as H1;
    [|remember s1 as st1 eqn:E1; clear E1]
end.
{ destruct (keysOf fields) as [|only [|]]; try apply grows_refl.
  destruct (String.eqb only "default");
    [apply grows_message; apply under_here; reflexivity | apply grows_refl]. }
match goal with
| |- context [conditionsLoop walk info fields 0 ?s2 false None] =>
    assert (grows PE (under (info_path info)) st1 s2) as H2;
    [|remember s2 as st2 eqn:E2; clear E2]
end.
{ destruct (typesVerbose fields); [|apply grows_refl].
  apply grows_message. apply below_under. apply below_key. }
pose proof (grows_trans _ _ _ _ _ H1 H2) as Hpre.
pose proof (conditionsLoop_grows info Hok fields Hfields 0 st2 false None)
  as Hloop.
destruct (conditionsLoop walk info fields 0 st2 false None)
  as [[st3 hasDefault] last_].
simpl in Hloop.
apply (grows_weaken _ PE _ (under (info_path info))) in Hloop;
  [|auto|apply below_under].
eapply grows_trans; [exact Hpre|].
eapply grows_trans; [exact Hloop|].
destruct last_ as [lastKey|]; [|apply grows_reject].
destruct (Js.truthy lastKey); [|apply grows_reject].
destruct hasDefault.
- destruct (negb (String.eqb lastKey "default")); [|apply grows_refl].
  apply grows_message. apply below_under. apply below_key.
- destruct (negb (exhaustiveKeys (keysOf fields))); [|apply grows_refl].
  apply grows_message. apply under_here. reflexivity.
Qed.

Lemma resolveExportsSpecifiers_grows (st : State) (info : Info)
  (fields : list (string * json)) :
Forall (fun kv => walkGrows minimatch fsAccess resolveUrl PE OK (snd kv)) fields ->
Forall (fun kv => Js.startsWith (fst kv) "." = true) fields ->
grows PE (under (info_path info)) st
  (resolveExportsSpecifiers walk st info fields).
Proof.
intros Hfields Hdots. unfold resolveExportsSpecifiers.
eapply grows_trans; [|apply specifiersLoop_grows; assumption].
destruct (keysOf fields) as [|only [|]];
  [apply grows_refl | | apply grows_refl].
destruct (String.eqb only ".");
  [apply grows_message; apply under_here; reflexivity | apply grows_refl].
Qed.

(** Every entry that a walk adds satisfies [PE], and every message that
  it adds is anchored at the node or below it. *)
Lemma walk_grows : forall v, walkGrows minimatch fsAccess resolveUrl PE OK v.
Proof.
induction v as [| | | |items IH|fields IH] using json_nested_ind;
  intros st info Hok;
  try (apply leaf_ok; exact Hok).
- cbn [resolveExports]. unfold resolveExportsList.
  destruct items as [|first rest];
    [apply grows_message; apply under_here; reflexivity|].
  inversion IH as [|? ? Hfirst _]; subst.
  eapply grows_trans; cycle 1.
  + eapply grows_weaken; [| |apply child_grows];
      [auto | apply below_under | exact Hfirst |].
    apply same_ok. exact Hok.
  + apply grows_message; apply under_here; reflexivity.
- cbn [resolveExports]. unfold resolveExportsObject.
  destruct (dotsLoop (keysOf fields) None false) as [[dots|] mixed] eqn:Hdots;
    [|apply grows_message; apply under_here; reflexivity].
  destruct mixed; [apply grows_message; apply under_here; reflexivity|].
  destruct (dots && specifierSet info);
    [apply grows_message; apply under_here; reflexivity|].
  destruct dots.
  + apply resolveExportsSpecifiers_grows; [exact IH|].
    apply dotsLoop_unmixed in Hdots. unfold keysOf in Hdots.
    rewrite Forall_map in Hdots. exact Hdots.
  + apply resolveExportsConditions_grows; assumption.
Qed.

End Generic.

(** Every entry that a walk adds has the shape [entryOK]. *)
Lemma walk_entries (v : json) (st : State) (info : Info) :
  infoOK info ->
  grows entryOK (under (info_path info)) st (walk st info v).
Proof.
  apply (walk_grows entryOK infoOK).
  - intros st' info' v' Hok. apply addValue_grows. exact Hok.
  - intros info' c p o Hok. exact Hok.
  - intros key c p o Hkey. unfold infoOK, specifierOrMain; simpl.
    destruct (Js.truthy key); [exact Hkey | reflexivity].
Qed.

(** Every message that a walk adds is anchored at the node or below it,
    and below it for a [keyRule]. *)
Lemma walk_messages (v : json) (st : State) (info : Info) :
  grows (fun _ => True) (under (info_path info)) st (walk st info v).
Proof.
  apply (walk_grows (fun _ => True) (fun _ => True)); try trivial.
  intros st' info' v' _. apply addValue_messages.
Qed.

End WalkFacts.
(** ** Counting diagnostics *)

#[local] Arguments String.eqb : simpl never.

Lemma segment_eqb_eq (a b : segment) : segment_eqb a b = true <-> a = b.
Proof.
  destruct a as [x|i], b as [y|j]; simpl;
    try (split; [discriminate | intros H; inversion H]).
  - rewrite String.eqb_eq. split; [intros ->; reflexivity | intros H; inversion H; reflexivity].
  - rewrite Nat.eqb_eq. split; [intros ->; reflexivity | intros H; inversion H; reflexivity].
Qed.

Lemma path_eqb_eq (p q : jsonPath) : path_eqb p q = true <-> p = q.
Proof.
  revert q. induction p as [|a p IH]; intros [|b q]; simpl;
    try (split; [reflexivity || discriminate | reflexivity || discriminate]).
  rewrite andb_true_iff, segment_eqb_eq, IH.
  split; [intros [-> ->]; reflexivity | intros H; inversion H; auto].
Qed.

Lemma path_eqb_refl (p : jsonPath) : path_eqb p p = true.
Proof. apply path_eqb_eq. reflexivity. Qed.

Lemma path_eqb_neq (p q : jsonPath) : p <> q -> path_eqb p q = false.
Proof.
  intros H. destruct (path_eqb p q) eqn:E; [|reflexivity].
  apply path_eqb_eq in E. contradiction.
Qed.

Lemma anchored_below (rule : string) (p : jsonPath) (ms : list Message) :
  Forall (below p) ms -> filter (anchored rule p) ms = [].
Proof.
  induction 1 as [|m ms [suffix [Hplace Hne]] _ IH]; simpl; [reflexivity|].
  unfold anchored at 1. rewrite Hplace, path_eqb_neq, andb_false_r; [exact IH|].
  intros H. apply Hne. apply (app_inv_head p). rewrite app_nil_r. exact H.
Qed.

Lemma anchored_under_key (rule : string) (p : jsonPath) (seg seg' : segment)
    (ms : list Message) :
  keyRule rule = true ->
  Forall (under (p ++ [seg])) ms ->
  filter (anchored rule (p ++ [seg'])) ms = [].
Proof.
  intros Hrule. induction 1 as [|m ms [suffix [Hplace Hne]] _ IH]; simpl;
    [reflexivity|].
  unfold anchored at 1.
  destruct (String.eqb_spec (ruleId m) rule) as [Heq|]; simpl; [|exact IH].
  rewrite Hplace, path_eqb_neq; [exact IH|].
  intros H. rewrite <- app_assoc in H. apply app_inv_head in H.
  simpl in H. inversion H as [[Hseg Hsuffix]].
  apply Hne; [rewrite Heq; exact Hrule | exact Hsuffix].
Qed.

Lemma emitted_message (rule : string) (p : jsonPath) (st : State)
    (rule' : string) (info : list string) (p' : jsonPath) :
  emitted rule p (message st rule' info p')
  = emitted rule p st
    ++ (if anchored rule p (mkMessage rule' p' info)
        then [mkMessage rule' p' info] else []).
Proof. unfold emitted. simpl. rewrite filter_app. reflexivity. Qed.

Lemma emitted_reject (rule : string) (p : jsonPath) (st : State) :
  emitted rule p (reject st) = emitted rule p st.
Proof. reflexivity. Qed.

Lemma emitted_grows_below (PE : RawExport -> Prop) (rule : string)
    (p : jsonPath) (st st' : State) :
  grows PE (below p) st st' -> emitted rule p st' = emitted rule p st.
Proof.
  intros [es [ms [ns [_ [_ [Hm [Hbelow _]]]]]]]. unfold emitted.
  rewrite Hm, filter_app, (anchored_below rule p ms Hbelow), app_nil_r.
  reflexivity.
Qed.

Lemma emitted_grows_under_key (PE : RawExport -> Prop) (rule : string)
    (p : jsonPath) (seg seg' : segment) (st st' : State) :
  keyRule rule = true ->
  grows PE (under (p ++ [seg])) st st' ->
  emitted rule (p ++ [seg']) st' = emitted rule (p ++ [seg']) st.
Proof.
  intros Hrule [es [ms [ns [_ [_ [Hm [Hunder _]]]]]]]. unfold emitted.
  rewrite Hm, filter_app, (anchored_under_key rule p seg seg' ms Hrule Hunder),
    app_nil_r.
  reflexivity.
Qed.

Lemma exclusiveCheck_messages (st : State) (info : Info) (condition : string) :
  messages (exclusiveCheck st info condition)
  = messages st ++ exclusiveMessages info condition.
Proof.
  unfold exclusiveCheck, exclusiveMessages.
  generalize mutuallyExclusiveConditions as groups. intros groups. revert st.
  induction groups as [|g groups IH]; intros st; simpl;
    [rewrite app_nil_r; reflexivity|].
  rewrite IH. unfold firstConflict.
  destruct (info_conditions info) as [active|];
    [|simpl; reflexivity].
  destruct (Js.includes (me_conditions g) condition); simpl; [|reflexivity].
  destruct (find (Js.includes (me_conditions g)) active); simpl;
    [rewrite <- app_assoc|]; reflexivity.
Qed.

Lemma exclusiveMessages_anchored (groups : list MutuallyExclusiveInfo)
    (info : Info) (condition key : string) (rule : string) :
  filter (anchored rule (info_path info ++ [Key key]))
    (exclusiveMessagesIn groups info condition)
  = if String.eqb "exports-conditions-mutually-exclusive" rule
       && String.eqb condition key
    then exclusiveMessagesIn groups info condition
    else [].
Proof.
  induction groups as [|g groups IH]; simpl.
  - destruct (_ && _); reflexivity.
  - rewrite filter_app, IH.
    destruct (firstConflict info g condition) as [other|]; simpl;
      [|reflexivity].
    unfold anchored; simpl.
    destruct (String.eqb "exports-conditions-mutually-exclusive" rule); simpl;
      [|reflexivity].
    destruct (String.eqb_spec condition key) as [->|Hne].
    + rewrite path_eqb_refl. reflexivity.
    + rewrite path_eqb_neq; [reflexivity|].
      intros H. apply app_inv_head in H. inversion H. contradiction.
Qed.
Lemma anchored_other_rule (rule rule' : string) (p p' : jsonPath)
    (info : list string) :
  rule' <> rule -> anchored rule p (mkMessage rule' p' info) = false.
Proof.
  intros H. unfold anchored; simpl.
  destruct (String.eqb_spec rule' rule); [contradiction | reflexivity].
Qed.

Lemma anchored_here (rule : string) (p : jsonPath) (info : list string) :
  anchored rule p (mkMessage rule p info) = true.
Proof.
  unfold anchored; simpl. rewrite String.eqb_refl, path_eqb_refl. reflexivity.
Qed.

Lemma anchored_key_above (rule rule' : string) (p : jsonPath) (seg : segment)
    (info : list string) :
  anchored rule p (mkMessage rule' (p ++ [seg]) info) = false.
Proof.
  unfold anchored; simpl. rewrite path_eqb_neq, andb_false_r; [reflexivity|].
  intros H. symmetry in H. rewrite <- (app_nil_r p) in H at 1.
  apply app_inv_head in H. discriminate H.
Qed.

Section Diagnostics.

Variable minimatch : string -> string -> bool.
Variable fsAccess : string -> bool.
Variable resolveUrl : string -> string -> string.

Abbreviation walk := (resolveExports minimatch fsAccess resolveUrl).

(** A child adds nothing at the path of its parent. *)
Lemma child_emits_nothing_above (rule : string) (st : State) (info : Info)
    (seg : segment) (c : option (list string)) (o : list nat)
    (s : option string) (v : json) :
  emitted rule (info_path info)
    (walk st (mkInfo c (info_path info ++ [seg]) o s) v)
  = emitted rule (info_path info) st.
Proof.
  apply (emitted_grows_below (fun _ => True)).
  eapply grows_weaken; [| |apply walk_messages]; [auto|].
  intros m Hm. simpl in Hm. apply under_child in Hm. exact Hm.
Qed.

(** A child adds no diagnostic of a [keyRule] at a key of its parent. *)
Lemma child_emits_no_keyRule (rule : string) (st : State) (info : Info)
    (seg seg' : segment) (c : option (list string)) (o : list nat)
    (s : option string) (v : json) :
  keyRule rule = true ->
  emitted rule (info_path info ++ [seg'])
    (walk st (mkInfo c (info_path info ++ [seg]) o s) v)
  = emitted rule (info_path info ++ [seg']) st.
Proof.
  intros Hrule.
  apply (emitted_grows_under_key (fun _ => True) rule _ seg seg');
    [exact Hrule|].
  apply (walk_messages minimatch fsAccess resolveUrl v st
           (mkInfo c (info_path info ++ [seg]) o s)).
Qed.

Lemma conditionsLoop_keyRule (rule key : string) (info : Info) :
  keyRule rule = true ->
  forall fields index st hasDefault last_,
    emitted rule (info_path info ++ [Key key])
      (fst (fst (conditionsLoop walk info fields index st hasDefault last_)))
    = emitted rule (info_path info ++ [Key key]) st
      ++ flat_map
           (fun kv =>
              filter (anchored rule (info_path info ++ [Key key]))
                (exclusiveMessages info (fst kv)))
           fields.
Proof.
  intros Hrule.
  induction fields as [|[condition value] rest IH];
    intros index st hasDefault last_; simpl;
    [rewrite app_nil_r; reflexivity|].
  rewrite IH, child_emits_no_keyRule by exact Hrule.
  unfold emitted at 1. rewrite exclusiveCheck_messages, filter_app.
  rewrite <- app_assoc. reflexivity.
Qed.

Lemma conditionsLoop_below (rule : string) (info : Info) :
  forall fields index st hasDefault last_,
    emitted rule (info_path info)
      (fst (fst (conditionsLoop walk info fields index st hasDefault last_)))
    = emitted rule (info_path info) st.
Proof.
  intros fields index st hasDefault last_.
  apply (emitted_grows_below (fun _ => True)).
  apply (conditionsLoop_grows minimatch fsAccess resolveUrl
           (fun _ => True) (fun _ => True)); try trivial.
  apply Forall_forall. intros kv _ st' info' _.
  apply walk_messages.
Qed.

Lemma conditionsLoop_flags (info : Info) :
  forall fields index st hasDefault last_,
    snd (fst (conditionsLoop walk info fields index st hasDefault last_))
    = hasDefault || Js.includes (keysOf fields) "default"
    /\ snd (conditionsLoop walk info fields index st hasDefault last_)
       = match fields with
         | [] => last_
         | _ :: _ => Some (last (keysOf fields) EmptyString)
         end.
Proof.
  induction fields as [|[condition value] rest IH];
    intros index st hasDefault last_; cbn [conditionsLoop].
  - unfold Js.includes; simpl. rewrite orb_false_r. split; reflexivity.
  - match goal with
    | |- context [conditionsLoop walk info rest ?i ?s ?h ?l] =>
        destruct (IH i s h l) as [Hd Hl]
    end.
    rewrite Hd, Hl. split.
    + change (Js.includes (keysOf ((condition, value) :: rest)) "default")
        with (String.eqb "default" condition
              || Js.includes (keysOf rest) "default").
      rewrite (String.eqb_sym "default" condition), orb_assoc. reflexivity.
    + destruct rest as [|[k v] rest']; reflexivity.
Qed.

Lemma anchored_not_keyRule (rule rule' : string) (p p' : jsonPath)
    (info : list string) :
  keyRule rule = true -> keyRule rule' = false ->
  anchored rule p (mkMessage rule' p' info) = false.
Proof.
  intros Hrule Hrule'. apply anchored_other_rule.
  intros ->. rewrite Hrule in Hrule'. discriminate.
Qed.

(** The diagnostics of a [keyRule] at a key of a conditions object: the
    one for a verbose [types], and those of [exclusiveCheck]. *)
Lemma conditions_keyRule (rule key : string) (st : State) (info : Info)
    (fields : list (string * json)) :
  keyRule rule = true ->
  emitted rule (info_path info ++ [Key key])
    (resolveExportsConditions walk st info fields)
  = emitted rule (info_path info ++ [Key key]) st
    ++ (if typesVerbose fields
        then filter (anchored rule (info_path info ++ [Key key]))
               [mkMessage "exports-types-verbose"
                  (info_path info ++ [Key "types"]) []]
        else [])
    ++ flat_map
         (fun kv =>
            filter (anchored rule (info_path info ++ [Key key]))
              (exclusiveMessages info (fst kv)))
         fields.
Proof.
  intros Hrule. unfold resolveExportsConditions.
  match goal with
  | |- context [conditionsLoop walk info fields 0 ?s2 false None] =>
      pose proof (conditionsLoop_keyRule rule key info Hrule fields 0 s2
                    false None) as Hloop;
      assert (emitted rule (info_path info ++ [Key key]) s2
              = emitted rule (info_path info ++ [Key key]) st
                ++ (if typesVerbose fields
                    then filter (anchored rule (info_path info ++ [Key key]))
                           [mkMessage "exports-types-verbose"
                              (info_path info ++ [Key "types"]) []]
                    else [])) as Hpre;
      [|remember s2 as st2 eqn:E2; clear E2]
  end.
  { assert (forall s, emitted rule (info_path info ++ [Key key])
                        (match keysOf fields with
                         | [only] =>
                             if String.eqb only "default" then
                               message s "exports-conditions-verbose" []
                                 (info_path info)
                             else s
                         | _ => s
                         end)
                      = emitted rule (info_path info ++ [Key key]) s) as H1.
    { intros s. destruct (keysOf fields) as [|only [|]]; try reflexivity.
      destruct (String.eqb only "default"); [|reflexivity].
      rewrite emitted_message, anchored_not_keyRule, app_nil_r;
        [reflexivity | exact Hrule | reflexivity]. }
    destruct (typesVerbose fields).
    - rewrite emitted_message, H1. reflexivity.
    - rewrite H1, app_nil_r. reflexivity. }
  destruct (conditionsLoop walk info fields 0 st2 false None)
    as [[st3 hasDefault] last_].
  simpl in Hloop.
  assert (forall s, emitted rule (info_path info ++ [Key key])
                      (match last_ with
                       | Some lastKey =>
                           if Js.truthy lastKey then
                             if hasDefault then
                               if negb (String.eqb lastKey "default") then
                                 message s "exports-conditions-default-misplaced"
                                   [] (info_path info ++ [Key lastKey])
                               else s
                             else if negb (exhaustiveKeys (keysOf fields)) then
                               message s "exports-conditions-default-missing"
                                 [specifierOrMain info] (info_path info)
                             else s
                           else reject s
                       | None => reject s
                       end)
                    = emitted rule (info_path info ++ [Key key]) s) as Hpost.
  { intros s. destruct last_ as [lastKey|]; [|reflexivity].
    destruct (Js.truthy lastKey); [|reflexivity].
    destruct hasDefault.
    - destruct (negb (String.eqb lastKey "default")); [|reflexivity].
      rewrite emitted_message, anchored_not_keyRule, app_nil_r;
        [reflexivity | exact Hrule | reflexivity].
    - destruct (negb (exhaustiveKeys (keysOf fields))); [|reflexivity].
      rewrite emitted_message, anchored_not_keyRule, app_nil_r;
        [reflexivity | exact Hrule | reflexivity]. }
  rewrite Hpost, Hloop, Hpre, <- app_assoc. reflexivity.
Qed.

(** The [exports-conditions-default-missing] diagnostics at a conditions
    object without [default] whose last key is not the empty string. *)
Lemma conditions_default_missing (st : State) (info : Info)
    (fields : list (string * json)) :
  fields <> [] ->
  Js.truthy (last (keysOf fields) EmptyString) = true ->
  Js.includes (keysOf fields) "default" = false ->
  emitted "exports-conditions-default-missing" (info_path info)
    (resolveExportsConditions walk st info fields)
  = emitted "exports-conditions-default-missing" (info_path info) st
    ++ (if exhaustiveKeys (keysOf fields) then []
        else [mkMessage "exports-conditions-default-missing"
                (info_path info) [specifierOrMain info]]).
Proof.
  intros Hfields Hlast Hdefault. unfold resolveExportsConditions.
  match goal with
  | |- context [conditionsLoop walk info fields 0 ?s2 false None] =>
      pose proof (conditionsLoop_below "exports-conditions-default-missing"
                    info fields 0 s2 false None) as Hloop;
      pose proof (conditionsLoop_flags info fields 0 s2 false None)
        as [HhasDefault Hlast_];
      assert (emitted "exports-conditions-default-missing" (info_path info) s2
              = emitted "exports-conditions-default-missing" (info_path info) st)
        as Hpre;
      [|remember s2 as st2 eqn:E2; clear E2]
  end.
  { assert (forall s, emitted "exports-conditions-default-missing"
                        (info_path info)
                        (if typesVerbose fields
                         then message s "exports-types-verbose" []
                                (info_path info ++ [Key "types"])
                         else s)
                      = emitted "exports-conditions-default-missing"
                          (info_path info) s) as H2.
    { intros s. destruct (typesVerbose fields); [|reflexivity].
      rewrite emitted_message, anchored_key_above, app_nil_r. reflexivity. }
    rewrite H2. destruct (keysOf fields) as [|only [|]]; try reflexivity.
    destruct (String.eqb only "default"); [|reflexivity].
    rewrite emitted_message, anchored_other_rule, app_nil_r;
      [reflexivity | discriminate]. }
  destruct (conditionsLoop walk info fields 0 st2 false None)
    as [[st3 hasDefault] last_].
  simpl in Hloop, HhasDefault, Hlast_.
  rewrite Hdefault in HhasDefault. subst hasDefault.
  destruct fields as [|kv fields']; [contradiction|]. subst last_.
  rewrite Hlast.
  destruct (exhaustiveKeys (keysOf (kv :: fields'))); simpl negb; cbv iota.
  - rewrite Hloop, Hpre, app_nil_r. reflexivity.
  - rewrite emitted_message, anchored_here, Hloop, Hpre. reflexivity.
Qed.

End Diagnostics.
Lemma flat_map_single_key {A : Type} (f : string -> list A) (key : string) :
  forall fields : list (string * json),
    NoDup (keysOf fields) ->
    In key (keysOf fields) ->
    flat_map
      (fun kv => if String.eqb (fst kv) key then f (fst kv) else [])
      fields
    = f key.
Proof.
  assert (forall fields : list (string * json),
             ~ In key (keysOf fields) ->
             flat_map
               (fun kv => if String.eqb (fst kv) key then f (fst kv) else [])
               fields = []) as Habsent.
  { induction fields as [|[k v] rest IH]; simpl; intros Hnot; [reflexivity|].
    destruct (String.eqb_spec k key) as [->|_]; [tauto|].
    apply IH. tauto. }
  induction fields as [|[k v] rest IH]; simpl; intros Hnodup Hin; [contradiction|].
  inversion Hnodup as [|? ? Hfresh Hrest]; subst.
  destruct (String.eqb_spec k key) as [->|Hne].
  - rewrite (Habsent rest Hfresh), app_nil_r. reflexivity.
  - destruct Hin as [Heq|Hin]; [contradiction|]. apply IH; assumption.
Qed.

Lemma exclusiveMessages_length (info : Info) (condition : string) :
  (length (exclusiveMessages info condition) <= length (groupsOf condition))%nat.
Proof.
  unfold exclusiveMessages, groupsOf.
  generalize mutuallyExclusiveConditions as groups.
  induction groups as [|g groups IH]; simpl; [lia|].
  rewrite length_app. unfold firstConflict.
  destruct (info_conditions info) as [active|].
  - destruct (Js.includes (me_conditions g) condition); simpl; [|exact IH].
    destruct (find (Js.includes (me_conditions g)) active); simpl; lia.
  - destruct (Js.includes (me_conditions g) condition); simpl; lia.
Qed.

(** Only [node] belongs to two groups of the table. *)
Lemma groupsOf_length (condition : string) :
  (length (groupsOf condition) <= 2)%nat
  /\ (condition <> "node" -> (length (groupsOf condition) <= 1)%nat).
Proof.
  unfold groupsOf, mutuallyExclusiveConditions, Js.includes. simpl.
  repeat match goal with
         | |- context [String.eqb condition ?c] =>
             destruct (String.eqb_spec condition c) as [->|?];
             [vm_compute; split; [lia | intros H; try lia; contradiction H; reflexivity]|]
         end.
  simpl. split; intros; lia.
Qed.
(** C5 (amended).  In a conditions object, the
    [exports-conditions-mutually-exclusive] diagnostics anchored at a key are
    one for each group of the table that holds the key and has a member among
    the active conditions, in table order, each naming the key and the first
    active condition that belongs to that group.  The scan of the active
    conditions ends at the first match within a group; the remaining groups
    are still visited.  So a key gets at most one diagnostic per group: at
    most one when it is not [node], and at most two for [node], the only
    condition that sits in two groups. *)
Theorem mutually_exclusive_once_per_group :
  forall (minimatch : string -> string -> bool) (fsAccess : string -> bool)
         (resolveUrl : string -> string -> string)
         (st : State) (info : Info) (fields : list (string * json))
         (key : string),
    NoDup (keysOf fields) ->
    In key (keysOf fields) ->
    let reported :=
      flat_map
        (fun exclusive =>
           match firstConflict info exclusive key with
           | Some other => [exclusiveMessage info key other]
           | None => []
           end)
        mutuallyExclusiveConditions in
    emitted "exports-conditions-mutually-exclusive"
      (info_path info ++ [Key key])
      (resolveExportsConditions (resolveExports minimatch fsAccess resolveUrl)
         st info fields)
    = emitted "exports-conditions-mutually-exclusive"
        (info_path info ++ [Key key]) st
      ++ reported
    /\ (length reported <= 2)%nat
    /\ (key <> "node" -> (length reported <= 1)%nat).
Proof.
  intros minimatch fsAccess resolveUrl st info fields key Hnodup Hin reported.
  split.
  - rewrite conditions_keyRule by reflexivity.
    f_equal.
    assert ((if typesVerbose fields
             then filter
                    (anchored "exports-conditions-mutually-exclusive"
                       (info_path info ++ [Key key]))
                    [mkMessage "exports-types-verbose"
                       (info_path info ++ [Key "types"]) []]
             else []) = []) as ->.
    { destruct (typesVerbose fields); [|reflexivity].
      cbn [filter]. rewrite anchored_other_rule by discriminate. reflexivity. }
    simpl app.
    rewrite (flat_map_ext _
               (fun kv => if String.eqb (fst kv) key
                          then exclusiveMessages info (fst kv) else [])).
    + rewrite (flat_map_single_key (exclusiveMessages info) key fields Hnodup Hin).
      reflexivity.
    + intros [k v]. unfold exclusiveMessages.
      rewrite exclusiveMessages_anchored, String.eqb_refl. reflexivity.
  - pose proof (exclusiveMessages_length info key) as Hlen.
    pose proof (groupsOf_length key) as [Htwo Hone].
    change (length reported) with (length (exclusiveMessages info key)).
    split; [lia|]. intros Hkey. specialize (Hone Hkey). lia.
Qed.

Lemma mutually_exclusive_once_per_group_witness :
  NoDup (keysOf [("node", JString "./x.js")])
  /\ In "node" (keysOf [("node", JString "./x.js")])
  /\ emitted "exports-conditions-mutually-exclusive"
       (info_path nodeUnderBrowserAddons ++ [Key "node"])
       (resolveExportsConditions
          (resolveExports Sample.minimatch Sample.noFile Sample.resolveUrl)
          (Sample.emptyState ["./x.js"]) nodeUnderBrowserAddons
          [("node", JString "./x.js")])
     = [exclusiveMessage nodeUnderBrowserAddons "node" "node-addons";
        exclusiveMessage nodeUnderBrowserAddons "node" "browser"].
Proof.
  assert (NoDup (keysOf [("node", JString "./x.js")])) as Hnodup
    by (repeat constructor; simpl; tauto).
  assert (In "node" (keysOf [("node", JString "./x.js")])) as Hin
    by (left; reflexivity).
  split; [exact Hnodup|]. split; [exact Hin|].
  exact (proj1 (mutually_exclusive_once_per_group Sample.minimatch
                  Sample.noFile Sample.resolveUrl
                  (Sample.emptyState ["./x.js"]) nodeUnderBrowserAddons
                  [("node", JString "./x.js")] "node" Hnodup Hin)).
Defined.

(** C5 as stated fails: in
    [{"browser": {"node-addons": {"node": "./x.js"}}}] the key [node] gets
    two diagnostics, one per group that it shares with an active
    condition. *)
Lemma node_reported_once_per_group :
  exists st first second,
    resolvePackage Sample.minimatch Sample.noFile Sample.resolveUrl
      Sample.packageUrl ["./x.js"]
      (Sample.withExports
         (JObject
            [("browser",
              JObject [("node-addons", JObject [("node", JString "./x.js")])])]))
    = Some st
    /\ emitted "exports-conditions-mutually-exclusive"
         [Key "exports"; Key "browser"; Key "node-addons"; Key "node"] st
       = [first; second]
    /\ details first = ["node"; "node-addons"]
    /\ details second = ["node"; "browser"].
Proof.
  do 3 eexists. vm_compute. repeat split; reflexivity.
Qed.

(** C6 holds wherever the last key is not the empty string
    ([conditions_default_missing]).  At [{"": "./x.js"}] it does not: the
    object has no [default] and holds no exhaustive group, but [assert(last)]
    takes the empty key for a missing one and throws before the diagnostic
    is emitted; the walk is rejected and [packageExports] yields nothing. *)
Theorem default_missing_lost_on_empty_key :
  let fields := [("", JString "./x.js")] in
  let st :=
    resolveExportsConditions
      (resolveExports Sample.minimatch Sample.noFile Sample.resolveUrl)
      (Sample.emptyState ["./x.js"]) Sample.rootInfo fields in
  Js.includes (keysOf fields) "default" = false
  /\ exhaustiveKeys (keysOf fields) = false
  /\ emitted "exports-conditions-default-missing" (info_path Sample.rootInfo) st
     = []
  /\ rejected st = true
  /\ resolveExports Sample.minimatch Sample.noFile Sample.resolveUrl
       (Sample.emptyState ["./x.js"]) Sample.rootInfo (JObject fields) = st
  /\ packageExports Sample.minimatch Sample.noFile Sample.resolveUrl
       Sample.localeCompare Sample.packageUrl ["./x.js"]
       (Sample.withExports (JObject fields)) = None.
Proof.
  vm_compute. repeat split; reflexivity.
Qed.

(** The same object with a key in place of the empty one. *)
Example default_missing_on_named_key :
  map ruleId
    (messages
       (resolveExports Sample.minimatch Sample.noFile Sample.resolveUrl
          (Sample.emptyState ["./x.js"]) Sample.rootInfo
          (JObject [("import", JString "./x.js")])))
  = ["exports-conditions-default-missing"].
Proof. vm_compute. reflexivity. Qed.
(** ** Splitting and joining *)

Lemma split_nonempty (c : ascii) (s : string) : Js.split c s <> [].
Proof.
  pose proof (split_length c s) as H. destruct (Js.split c s); [discriminate H|].
  discriminate.
Qed.

Lemma split_app_sep (c : ascii) (a b : string) :
  Js.split c (a ++ String c b) = Js.split c a ++ Js.split c b.
Proof.
  induction a as [|x a IH]; simpl.
  - rewrite Ascii.eqb_refl. reflexivity.
  - rewrite IH. destruct (Ascii.eqb x c); [reflexivity|].
    pose proof (split_nonempty c a) as Hne.
    destruct (Js.split c a); [contradiction | reflexivity].
Qed.

Lemma join_split (c : ascii) (s : string) :
  Js.join (String c EmptyString) (Js.split c s) = s.
Proof.
  induction s as [|x s IH]; simpl; [reflexivity|].
  pose proof (split_nonempty c s) as Hne.
  destruct (Ascii.eqb_spec x c) as [->|Hx].
  - destruct (Js.split c s) as [|p ps]; [contradiction|].
    simpl in *. rewrite IH. reflexivity.
  - destruct (Js.split c s) as [|p [|q ps]]; [contradiction| |].
    + simpl in *. rewrite IH. reflexivity.
    + change (Js.join (String c EmptyString) (String x p :: q :: ps))
        with (String x (Js.join (String c EmptyString) (p :: q :: ps))).
      rewrite IH. reflexivity.
Qed.

Lemma string_app_assoc (a b c : string) :
  ((a ++ b) ++ c = a ++ (b ++ c))%string.
Proof. induction a as [|x a IH]; simpl; [reflexivity | rewrite IH; reflexivity]. Qed.

Lemma join_app (sep : string) (l l' : list string) :
  l <> [] -> l' <> [] ->
  Js.join sep (l ++ l') = (Js.join sep l ++ sep ++ Js.join sep l')%string.
Proof.
  intros Hl Hl'. induction l as [|p l IH]; [contradiction|].
  destruct l as [|q l].
  - simpl. destruct l'; [contradiction | reflexivity].
  - change (Js.join sep ((p :: q :: l) ++ l'))
      with (p ++ sep ++ Js.join sep ((q :: l) ++ l'))%string.
    rewrite IH by discriminate.
    change (Js.join sep (p :: q :: l))
      with (p ++ sep ++ Js.join sep (q :: l))%string.
    rewrite !string_app_assoc. reflexivity.
Qed.

Lemma get_includes (fields : list (string * json)) (key : string) (v : json) :
  get fields key = Some v -> Js.includes (keysOf fields) key = true.
Proof.
  induction fields as [|[k w] rest IH]; simpl; [discriminate|].
  unfold Js.includes, keysOf; simpl.
  destruct (String.eqb_spec k key) as [->|Hne].
  - intros _. rewrite String.eqb_refl. reflexivity.
  - intros H. rewrite orb_true_iff. right. apply IH. exact H.
Qed.

(** [typesVerbose] when [default] ends in a dot and a JavaScript extension. *)
Lemma typesVerbose_extension (fields : list (string * json))
    (stem extname types : string) :
  get fields "default" = Some (JString (stem ++ String "." extname)) ->
  get fields "types" = Some (JString types) ->
  Js.split "." extname = [extname] ->
  String.eqb extname "js" || String.eqb extname "cjs"
  || String.eqb extname "mjs" = true ->
  typesVerbose fields
  = String.eqb types (stem ++ ".d." ++ Js.replaceFirst "j" "t" extname).
Proof.
  intros Hdefault Htypes Hsplit Hext. unfold typesVerbose.
  rewrite (get_includes _ _ _ Hdefault), (get_includes _ _ _ Htypes).
  rewrite Hdefault, Htypes. cbv beta iota. simpl andb.
  rewrite split_app_sep, Hsplit, last_last, removelast_last, Hext.
  simpl andb.
  rewrite join_app by (try apply split_nonempty; discriminate).
  rewrite join_split. reflexivity.
Qed.

(** C9.  In a conditions object whose [default] and [types] are both
    strings and whose [default] ends in [.js], [.cjs] or [.mjs], an
    [exports-types-verbose] diagnostic is anchored at the [types] key exactly
    when [types] is the [default] path with that extension replaced by
    [.d.ts], [.d.cts] or [.d.mts] respectively; there is never more than
    one. *)
Theorem types_verbose_exactly_when_inferred :
  forall (minimatch : string -> string -> bool) (fsAccess : string -> bool)
         (resolveUrl : string -> string -> string)
         (st : State) (info : Info) (fields : list (string * json))
         (stem extension declaration types : string),
    In (extension, declaration)
      [(".js", ".d.ts"); (".cjs", ".d.cts"); (".mjs", ".d.mts")] ->
    get fields "default" = Some (JString (stem ++ extension)) ->
    get fields "types" = Some (JString types) ->
    emitted "exports-types-verbose" (info_path info ++ [Key "types"])
      (resolveExportsConditions (resolveExports minimatch fsAccess resolveUrl)
         st info fields)
    = emitted "exports-types-verbose" (info_path info ++ [Key "types"]) st
      ++ (if String.eqb types (stem ++ declaration)
          then [mkMessage "exports-types-verbose"
                  (info_path info ++ [Key "types"]) []]
          else []).
Proof.
  intros minimatch fsAccess resolveUrl st info fields stem extension
    declaration types Hext Hdefault Htypes.
  rewrite conditions_keyRule by reflexivity.
  assert (flat_map
            (fun kv =>
               filter (anchored "exports-types-verbose"
                         (info_path info ++ [Key "types"]))
                 (exclusiveMessages info (fst kv)))
            fields = []) as ->.
  { clear Hdefault Htypes.
    induction fields as [|kv rest IH]; simpl; [reflexivity|].
    unfold exclusiveMessages at 1. rewrite exclusiveMessages_anchored.
    exact IH. }
  rewrite app_nil_r. f_equal.
  assert (typesVerbose fields = String.eqb types (stem ++ declaration)) as ->.
  { destruct Hext as [H|[H|[H|[]]]]; inversion H; subst;
      apply (typesVerbose_extension fields stem _ types Hdefault Htypes);
      reflexivity. }
  destruct (String.eqb types (stem ++ declaration)); [|reflexivity].
  cbn [filter]. rewrite anchored_here. reflexivity.
Qed.

Lemma types_verbose_exactly_when_inferred_witness :
  In (".js", ".d.ts") [(".js", ".d.ts"); (".cjs", ".d.cts"); (".mjs", ".d.mts")]
  /\ get verboseTypes "default" = Some (JString ("./index" ++ ".js"))
  /\ get verboseTypes "types" = Some (JString "./index.d.ts")
  /\ emitted "exports-types-verbose" (info_path Sample.rootInfo ++ [Key "types"])
       (resolveExportsConditions
          (resolveExports Sample.minimatch Sample.noFile Sample.resolveUrl)
          (Sample.emptyState ["./index.js"; "./index.d.ts"]) Sample.rootInfo
          verboseTypes)
     = [mkMessage "exports-types-verbose" [Key "exports"; Key "types"] []].
Proof.
  split; [left; reflexivity|]. split; [reflexivity|]. split; [reflexivity|].
  exact (types_verbose_exactly_when_inferred Sample.minimatch Sample.noFile
           Sample.resolveUrl
           (Sample.emptyState ["./index.js"; "./index.d.ts"]) Sample.rootInfo
           verboseTypes "./index" ".js" ".d.ts" "./index.d.ts"
           (or_introl eq_refl) eq_refl eq_refl).
Defined.
(** C8.  An empty array adds the [exports-alternatives-empty] diagnostic
    and nothing else: no entry, no negation.  A non-empty array adds one
    [exports-alternatives] diagnostic at its own path and then resolves its
    first item, at index [0]; the state that results does not depend on the
    other items, which are never looked at. *)
Theorem alternatives_resolve_first_item_only :
  forall (minimatch : string -> string -> bool) (fsAccess : string -> bool)
         (resolveUrl : string -> string -> string) (st : State) (info : Info),
    (resolveExports minimatch fsAccess resolveUrl st info (JArray [])
     = message st "exports-alternatives-empty" [] (info_path info)
     /\ exports (resolveExports minimatch fsAccess resolveUrl st info (JArray []))
        = exports st
     /\ negatedExports
          (resolveExports minimatch fsAccess resolveUrl st info (JArray []))
        = negatedExports st)
    /\ forall (first : json) (others : list json),
         resolveExports minimatch fsAccess resolveUrl st info
           (JArray (first :: others))
         = resolveExports minimatch fsAccess resolveUrl
             (message st "exports-alternatives" [] (info_path info))
             (mkInfo (info_conditions info) (info_path info ++ [Idx 0])
                (info_pathOrder info ++ [0%nat]) (info_specifier info))
             first
         /\ emitted "exports-alternatives" (info_path info)
              (resolveExports minimatch fsAccess resolveUrl st info
                 (JArray (first :: others)))
            = emitted "exports-alternatives" (info_path info) st
              ++ [mkMessage "exports-alternatives" (info_path info) []].
Proof.
  intros minimatch fsAccess resolveUrl st info. split.
  - repeat split; reflexivity.
  - intros first others. split; [reflexivity|].
    cbn [resolveExports]. unfold resolveExportsList.
    rewrite child_emits_nothing_above, emitted_message, anchored_here.
    reflexivity.
Qed.

(** C10.  A specifiers object whose only key is [.] adds one
    [exports-specifiers-verbose] diagnostic at its own path, and the value
    at [.] is then resolved as for any specifier key: with the specifier
    [.], one level down.  At a node with no specifier in force, an object
    with the sole key [.] is such a specifiers object. *)
Theorem sole_main_specifier_is_verbose :
  forall (minimatch : string -> string -> bool) (fsAccess : string -> bool)
         (resolveUrl : string -> string -> string) (st : State) (info : Info)
         (value : json),
    resolveExportsSpecifiers (resolveExports minimatch fsAccess resolveUrl)
      st info [(".", value)]
    = resolveExports minimatch fsAccess resolveUrl
        (message st "exports-specifiers-verbose" [] (info_path info))
        (mkInfo (info_conditions info) (info_path info ++ [Key "."])
           (info_pathOrder info ++ [0%nat]) (Some "."))
        value
    /\ emitted "exports-specifiers-verbose" (info_path info)
         (resolveExportsSpecifiers (resolveExports minimatch fsAccess resolveUrl)
            st info [(".", value)])
       = emitted "exports-specifiers-verbose" (info_path info) st
         ++ [mkMessage "exports-specifiers-verbose" (info_path info) []]
    /\ forall conditions_ path order,
         resolveExports minimatch fsAccess resolveUrl st
           (mkInfo conditions_ path order None) (JObject [(".", value)])
         = resolveExportsSpecifiers
             (resolveExports minimatch fsAccess resolveUrl)
             st (mkInfo conditions_ path order None) [(".", value)].
Proof.
  intros minimatch fsAccess resolveUrl st info value.
  assert (resolveExportsSpecifiers
            (resolveExports minimatch fsAccess resolveUrl) st info [(".", value)]
          = resolveExports minimatch fsAccess resolveUrl
              (message st "exports-specifiers-verbose" [] (info_path info))
              (mkInfo (info_conditions info) (info_path info ++ [Key "."])
                 (info_pathOrder info ++ [0%nat]) (Some "."))
              value) as Hstep by reflexivity.
  split; [exact Hstep|]. split; [|reflexivity].
  rewrite Hstep, child_emits_nothing_above, emitted_message, anchored_here.
  reflexivity.
Qed.

(** C2 (amended).  Every entry that the walk of an export map appends has a
    specifier that starts with [.].  The specifier of an entry declared
    literally holds no [*], except when a dynamic specifier points to a
    static file: it then keeps the single [*] of its key, and the file path
    has none.  The specifier of a wildcard-expanded entry holds a [*] only
    if the matched file name does. *)
Theorem entry_specifiers_start_with_dot :
  forall (minimatch : string -> string -> bool) (fsAccess : string -> bool)
         (resolveUrl : string -> string -> string) (st : State)
         (conditions_ : option (list string)) (path : jsonPath)
         (order : list nat) (exportsValue : json),
  exists added,
    exports (resolveExports minimatch fsAccess resolveUrl st
               (mkInfo conditions_ path order None) exportsValue)
    = exports st ++ added
    /\ Forall
         (fun e =>
            Js.startsWith (specifier e) "." = true
            /\ (globbed e = false ->
                Js.occurrences "*" (specifier e) = 0%nat
                \/ (Js.occurrences "*" (specifier e) = 1%nat
                    /\ Js.occurrences "*" (filePath e) = 0%nat))
            /\ (globbed e = true ->
                (Js.occurrences "*" (specifier e)
                 <= Js.occurrences "*" (filePath e))%nat))
         added.
Proof.
  intros minimatch fsAccess resolveUrl st conditions_ path order exportsValue.
  destruct (walk_entries minimatch fsAccess resolveUrl exportsValue st
              (mkInfo conditions_ path order None) eq_refl)
    as [es [ms [ns [He [HPe _]]]]].
  exists es. split; [exact He | exact HPe].
Qed.

(** C2 as stated fails twice: a dynamic specifier that points to a static
    file is kept with its [*], and a key such as [.foo] is taken for a
    specifier although it neither is [.] nor starts with [./]. *)
Lemma specifier_keeps_wildcard_or_bare_dot :
  (exists st e,
      resolvePackage Sample.minimatch Sample.noFile Sample.resolveUrl
        Sample.packageUrl ["./index.js"]
        (Sample.withExports (JObject [("./*", JString "./index.js")]))
      = Some st
      /\ exports st = [e] /\ specifier e = "./*"
      /\ plainSpecifier (specifier e) = false)
  /\ (exists st e,
         resolvePackage Sample.minimatch Sample.noFile Sample.resolveUrl
           Sample.packageUrl ["./index.js"]
           (Sample.withExports (JObject [(".foo", JString "./index.js")]))
         = Some st
         /\ exports st = [e] /\ specifier e = ".foo"
         /\ plainSpecifier (specifier e) = false).
Proof.
  split; do 2 eexists; vm_compute; repeat split; reflexivity.
Qed.
(** ** The scan of [findWildcardReplacements] ends by itself *)

Lemma search_bounds (pat s : string) :
  pat <> EmptyString ->
  forall pos k,
    Js.search pat s pos = Some k -> (pos <= k < pos + String.length s)%nat.
Proof.
  intros Hpat. induction s as [|x s IH]; intros pos k; simpl.
  - destruct pat; [contradiction | discriminate].
  - destruct pat as [|a pat]; [contradiction|].
    destruct (if ascii_dec a x then String.prefix pat s else false).
    + intros H. inversion H. lia.
    + intros H. apply IH in H. lia.
Qed.

Lemma length_drop (n : nat) (s : string) :
  String.length (Js.drop n s) = (String.length s - n)%nat.
Proof.
  revert s. induction n as [|n IH]; intros s; simpl; [lia|].
  destruct s; simpl; [reflexivity | apply IH].
Qed.

Lemma indexOf_bounds (s pat : string) (from k : nat) :
  pat <> EmptyString ->
  Js.indexOf s pat from = Some k -> (from <= k < String.length s)%nat.
Proof.
  unfold Js.indexOf. intros Hpat H.
  apply (search_bounds _ _ Hpat) in H. rewrite length_drop in H. lia.
Qed.

(** More fuel than the length of the file path allows changes nothing: the
    fuel given in [replacementOptions] never runs out. *)
Lemma optionsLoop_fuel (filePath_ second : string) (start : nat) :
  second <> EmptyString ->
  forall fuel extra e,
    (e < String.length filePath_)%nat ->
    (String.length filePath_ <= fuel + e)%nat ->
    optionsLoop filePath_ second start (Some e) (fuel + extra)
    = optionsLoop filePath_ second start (Some e) fuel.
Proof.
  intros Hsecond. induction fuel as [|fuel IH]; intros extra e He Hfuel; [lia|].
  simpl. f_equal.
  destruct (Js.indexOf filePath_ second (e + 1)) as [e'|] eqn:Hnext.
  - apply (indexOf_bounds _ _ _ _ Hsecond) in Hnext. apply IH; lia.
  - destruct (fuel + extra)%nat, fuel; reflexivity.
Qed.

Lemma replacementOptions_fuel (first second filePath_ : string) (extra : nat) :
  replacementOptions first second filePath_
  = (if String.eqb second EmptyString then []
     else optionsLoop filePath_ second (String.length first)
            (Js.indexOf filePath_ second (String.length first))
            (S (String.length filePath_) + extra))
    ++ [Js.sliceFrom filePath_ (String.length first)].
Proof.
  unfold replacementOptions. f_equal.
  destruct (String.eqb_spec second EmptyString) as [|Hsecond]; [reflexivity|].
  destruct (Js.indexOf filePath_ second (String.length first)) as [e|] eqn:He;
    [|reflexivity].
  apply (indexOf_bounds _ _ _ _ Hsecond) in He.
  symmetry. apply optionsLoop_fuel; [exact Hsecond | lia | lia].
Qed.

(** ** The comparator is consistent *)

Lemma orderLoop_extend (l r : list nat) :
  forall steps index extra,
    (Nat.max (length l) (length r) <= index + steps)%nat ->
    orderLoop l r index (steps + extra) = orderLoop l r index steps.
Proof.
  induction steps as [|steps IH]; intros index extra Hlen.
  - simpl. apply orderLoop_no_difference. intros j Hj.
    rewrite !nth_overflow by lia. reflexivity.
  - simpl. rewrite IH by lia. reflexivity.
Qed.

Lemma orderLoop_transitive (a b c : list nat) :
  forall steps index,
    (orderLoop a b index steps <= 0)%Z ->
    (orderLoop b c index steps <= 0)%Z ->
    (orderLoop a c index steps <= 0)%Z
    /\ (orderLoop a c index steps = 0%Z ->
        orderLoop a b index steps = 0%Z /\ orderLoop b c index steps = 0%Z).
Proof.
  induction steps as [|steps IH]; intros index; simpl; [lia|].
  destruct (Z.eqb_spec (Z.of_nat (nth index a 0%nat) - Z.of_nat (nth index b 0%nat)) 0);
    destruct (Z.eqb_spec (Z.of_nat (nth index b 0%nat) - Z.of_nat (nth index c 0%nat)) 0);
    destruct (Z.eqb_spec (Z.of_nat (nth index a 0%nat) - Z.of_nat (nth index c 0%nat)) 0);
    try lia.
  apply IH.
Qed.

Section Consistency.

Variable localeCompare : string -> string -> Z.

Hypothesis localeCompare_transitive :
  forall a b c,
    (localeCompare a b <= 0)%Z -> (localeCompare b c <= 0)%Z ->
    (localeCompare a c <= 0)%Z.

(** Being in order is transitive: together with [compareExport_total] this
    makes [compareExport] a consistent comparator, for which every stable
    sort returns the same sequence. *)
Lemma compareExport_transitive (x y z : RawExport) :
  inOrder localeCompare x y -> inOrder localeCompare y z ->
  inOrder localeCompare x z.
Proof.
  unfold inOrder, compareExport.
  set (n := Nat.max (length (jsonPathOrder x))
              (Nat.max (length (jsonPathOrder y)) (length (jsonPathOrder z)))).
  rewrite <- (orderLoop_extend (jsonPathOrder x) (jsonPathOrder y)
                (Nat.max (length (jsonPathOrder x)) (length (jsonPathOrder y)))
                0 (n - Nat.max (length (jsonPathOrder x)) (length (jsonPathOrder y))))
    by lia.
  rewrite <- (orderLoop_extend (jsonPathOrder y) (jsonPathOrder z)
                (Nat.max (length (jsonPathOrder y)) (length (jsonPathOrder z)))
                0 (n - Nat.max (length (jsonPathOrder y)) (length (jsonPathOrder z))))
    by lia.
  rewrite <- (orderLoop_extend (jsonPathOrder x) (jsonPathOrder z)
                (Nat.max (length (jsonPathOrder x)) (length (jsonPathOrder z)))
                0 (n - Nat.max (length (jsonPathOrder x)) (length (jsonPathOrder z))))
    by lia.
  replace (Nat.max (length (jsonPathOrder x)) (length (jsonPathOrder y))
           + (n - Nat.max (length (jsonPathOrder x)) (length (jsonPathOrder y))))%nat
    with n by lia.
  replace (Nat.max (length (jsonPathOrder y)) (length (jsonPathOrder z))
           + (n - Nat.max (length (jsonPathOrder y)) (length (jsonPathOrder z))))%nat
    with n by lia.
  replace (Nat.max (length (jsonPathOrder x)) (length (jsonPathOrder z))
           + (n - Nat.max (length (jsonPathOrder x)) (length (jsonPathOrder z))))%nat
    with n by lia.
  pose proof (orderLoop_transitive (jsonPathOrder x) (jsonPathOrder y)
                (jsonPathOrder z) n 0) as Hloop.
  remember (orderLoop (jsonPathOrder x) (jsonPathOrder y) 0 n) as dxy eqn:E1.
  remember (orderLoop (jsonPathOrder y) (jsonPathOrder z) 0 n) as dyz eqn:E2.
  remember (orderLoop (jsonPathOrder x) (jsonPathOrder z) 0 n) as dxz eqn:E3.
  clear E1 E2 E3.
  remember (Z.of_nat (length (Js.split "/" (specifier x)))) as sx eqn:E1.
  remember (Z.of_nat (length (Js.split "/" (specifier y)))) as sy eqn:E2.
  remember (Z.of_nat (length (Js.split "/" (specifier z)))) as sz eqn:E3.
  clear E1 E2 E3.
  pose proof (localeCompare_transitive (specifier x) (specifier y) (specifier z))
    as Hlc.
  destruct (Z.eqb_spec dxy 0); destruct (Z.eqb_spec dyz 0);
    destruct (Z.eqb_spec dxz 0); simpl; try lia.
  destruct (Z.eqb_spec (sx - sy) 0); destruct (Z.eqb_spec (sy - sz) 0);
    destruct (Z.eqb_spec (sx - sz) 0); simpl; lia.
Qed.

End Consistency.

(** ** The resolver on cases of the repository's test suite *)

(** "should support multiple wildcards in path" *)
Example replacements_for_two_wildcards :
  findWildcardReplacements ["./a/"; "/b/"; ".js"]
    ["./a/x/b/x.js"; "./a/x/b/y.js"; "./a/y/b/x.js"; "./a/y/b/y.js"]
  = Some ["x"; "y"].
Proof. vm_compute. reflexivity. Qed.

(** "should support a useful `null`" *)
Example useful_negation :
  outcome ["./example.js"; "./index.js"; "./package.json"; "./test.js"]
    (JObject
       [(".", JString "./index.js"); ("./*", JString "./*.js");
        ("./index", JNull)])
  = Some ([".";  "./example"; "./test"], []).
Proof. vm_compute. reflexivity. Qed.

(** "should warn for a dynamic specifier pointing to a static file" *)
Example useless_wildcard :
  outcome ["./index.js"; "./package.json"]
    (JObject [("./*", JString "./index.js")])
  = Some (["./*"],
          ["exports-specifier-wildcard-useless"; "exports-main-missing"]).
Proof. vm_compute. reflexivity. Qed.

(** "should warn for mutually exclusive conditions" *)
Example exclusive_runtime_keys :
  outcome ["./index.js"; "./package.json"]
    (JObject
       [("deno",
         JObject [("node", JObject [("browser", JString "./index.js")])])])
  = Some (["."],
          ["exports-conditions-mutually-exclusive";
           "exports-conditions-mutually-exclusive";
           "exports-conditions-default-missing";
           "exports-conditions-default-missing";
           "exports-conditions-default-missing"]).
Proof. vm_compute. reflexivity. Qed.

(** An alternatives list next to a plain main export. *)
Example alternatives_list :
  outcome ["./index.js"; "./other.js"; "./package.json"]
    (JObject
       [(".", JString "./index.js");
        ("./other", JArray [JString "./other.js"])])
  = Some ([".";  "./other"], ["exports-alternatives"]).
Proof. vm_compute. reflexivity. Qed.

(** [import] and [require] together need no [default]. *)
Example exhaustive_conditions :
  outcome ["./index.cjs"; "./index.js"; "./package.json"]
    (JObject
       [("import", JString "./index.js"); ("require", JString "./index.cjs")])
  = Some ([".";  "."], []).
Proof. vm_compute. reflexivity. Qed.

(** * Further properties *)

(** ** Packed paths in posix form *)

Lemma split_pieces_free (c : ascii) (s : string) :
  Forall (fun piece => Js.occurrences c piece = 0%nat) (Js.split c s).
Proof.
  induction s as [|a s IH]; simpl; [repeat constructor|].
  destruct (Ascii.eqb a c) eqn:E; [constructor; [reflexivity | exact IH]|].
  destruct (Js.split c s) as [|p ps]; [repeat constructor; simpl; rewrite E; reflexivity|].
  inversion IH; subst. constructor; [|assumption].
  simpl. rewrite E. simpl. assumption.
Qed.

Lemma join_free (c : ascii) (sep : string) (parts : list string) :
  Js.occurrences c sep = 0%nat ->
  Forall (fun piece => Js.occurrences c piece = 0%nat) parts ->
  Js.occurrences c (Js.join sep parts) = 0%nat.
Proof.
  intros Hsep. induction 1 as [|p ps Hp Hps IH]; [reflexivity|].
  destruct ps as [|q ps]; [exact Hp|].
  change (Js.join sep (p :: q :: ps)) with (p ++ sep ++ Js.join sep (q :: ps))%string.
  rewrite !occurrences_app, Hp, Hsep, IH. reflexivity.
Qed.

(** X1.  [pathToPosixPath]: the result starts with [./]; with the posix
    separator it is the path itself behind [./]; with the Windows separator
    no backslash is left in it, and each one has become a slash. *)
Theorem pathToPosixPath_normalizes :
  forall value : string,
    (forall sep, Js.startsWith (pathToPosixPath sep value) "./" = true)
    /\ pathToPosixPath "/" value = ("./" ++ value)%string
    /\ Js.occurrences "\" (pathToPosixPath "\" value) = 0%nat
    /\ Js.occurrences "/" (pathToPosixPath "\" value)
       = (1 + Js.occurrences "/" value + Js.occurrences "\" value)%nat.
Proof.
  intros value. unfold pathToPosixPath. repeat split.
  - intros sep. unfold Js.startsWith. simpl.
    destruct (Js.join "/" (Js.split sep value)); reflexivity.
  - rewrite join_split. reflexivity.
  - rewrite occurrences_app. simpl.
    apply join_free; [reflexivity | apply split_pieces_free].
  - rewrite occurrences_app.
    change (Js.occurrences "/" "./") with 1%nat.
    induction value as [|a value IH]; [reflexivity|].
    simpl Js.split.
    destruct (Ascii.eqb_spec a "\"%char) as [->|Ha].
    + pose proof (split_nonempty "\" value) as Hne.
      destruct (Js.split "\" value) as [|p ps] eqn:Hs; [contradiction|].
      change (Js.join "/" ("" :: p :: ps)) with ("" ++ "/" ++ Js.join "/" (p :: ps))%string.
      change (Js.occurrences "/" ("" ++ "/" ++ Js.join "/" (p :: ps)))
        with (S (Js.occurrences "/" (Js.join "/" (p :: ps)))).
      change (Js.occurrences "/" (String "\" value))
        with (Js.occurrences "/" value).
      change (Js.occurrences "\" (String "\" value))
        with (S (Js.occurrences "\" value)).
      lia.
    + pose proof (split_nonempty "\" value) as Hne.
      destruct (Js.split "\" value) as [|p ps] eqn:Hs; [contradiction|].
      assert (Js.occurrences "/" (Js.join "/" (String a p :: ps))
              = ((if Ascii.eqb a "/" then 1 else 0)
                 + Js.occurrences "/" (Js.join "/" (p :: ps)))%nat) as ->.
      { destruct ps; reflexivity. }
      cbn [Js.occurrences].
      destruct (Ascii.eqb_spec a "\"%char); [contradiction|]. lia.
Qed.
(** ** [arrayEquivalent] *)

Lemma includes_permutation (l l' : list string) (x : string) :
  Permutation l l' -> Js.includes l x = Js.includes l' x.
Proof.
  intros H. apply eq_true_iff_eq. rewrite !includes_In.
  split; apply Permutation_in; [exact H | apply Permutation_sym; exact H].
Qed.

Lemma forallb_permutation {A : Type} (f : A -> bool) (l l' : list A) :
  Permutation l l' -> forallb f l = forallb f l'.
Proof.
  intros H. apply eq_true_iff_eq. rewrite !forallb_forall.
  split; intros Hall x Hx; apply Hall;
    [apply Permutation_sym in H|]; eapply Permutation_in; eassumption.
Qed.

Lemma forallb_pointwise {A : Type} (f g : A -> bool) (l : list A) :
  (forall x, f x = g x) -> forallb f l = forallb g l.
Proof.
  intros H. induction l as [|x l IH]; simpl; [reflexivity|].
  rewrite H, IH. reflexivity.
Qed.

(** X2.  [arrayEquivalent] does not look at the order of either array: rearranging
    them does not change its answer, and an array is equivalent to each of
    its rearrangements. *)
Theorem arrayEquivalent_ignores_order :
  forall l l' r r' : list string,
    Permutation l l' -> Permutation r r' ->
    arrayEquivalent l r = arrayEquivalent l' r'
    /\ arrayEquivalent l l' = true.
Proof.
  intros l l' r r' Hl Hr.
  assert (forall a a' b b' : list string,
             Permutation a a' -> Permutation b b' ->
             arrayEquivalent a b = arrayEquivalent a' b') as Hinv.
  { intros a a' b b' Ha Hb. unfold arrayEquivalent.
    rewrite (Permutation_length Ha), (Permutation_length Hb).
    rewrite (forallb_permutation _ _ _ Ha). f_equal.
    apply forallb_pointwise. intros x. apply includes_permutation. exact Hb. }
  split; [apply Hinv; assumption|].
  rewrite <- (Hinv l l l l' (Permutation_refl l) Hl).
  unfold arrayEquivalent. rewrite Nat.eqb_refl. simpl.
  apply forallb_forall. intros x Hx. apply includes_In. exact Hx.
Qed.

Lemma arrayEquivalent_ignores_order_witness :
  Permutation ["import"; "node"; "default"] ["node"; "default"; "import"]
  /\ Permutation ["default"; "node"; "import"] ["default"; "import"; "node"]
  /\ arrayEquivalent ["import"; "node"; "default"] ["default"; "node"; "import"]
     = arrayEquivalent ["node"; "default"; "import"] ["default"; "import"; "node"]
  /\ arrayEquivalent ["import"; "node"; "default"] ["node"; "default"; "import"]
     = true.
Proof.
  assert (Permutation ["import"; "node"; "default"] ["node"; "default"; "import"])
    as H1.
  { apply perm_trans with ["node"; "import"; "default"];
      [apply perm_swap | apply perm_skip; apply perm_swap]. }
  assert (Permutation ["default"; "node"; "import"] ["default"; "import"; "node"])
    as H2 by (apply perm_skip; apply perm_swap).
  split; [exact H1|]. split; [exact H2|].
  exact (arrayEquivalent_ignores_order _ _ _ _ H1 H2).
Defined.

(** X3.  On arrays without repeated names [arrayEquivalent] is equality of the
    sets of names, in both directions. *)
Theorem arrayEquivalent_is_set_equality_without_repeats :
  forall l r : list string,
    NoDup l -> NoDup r ->
    (arrayEquivalent l r = true <-> (forall x, In x l <-> In x r))
    /\ arrayEquivalent l r = arrayEquivalent r l.
Proof.
  intros l r Hl Hr.
  pose proof (arrayEquivalent_sets l r Hl Hr) as Hlr.
  pose proof (arrayEquivalent_sets r l Hr Hl) as Hrl.
  split; [exact Hlr|].
  apply eq_true_iff_eq. rewrite Hlr, Hrl.
  split; intros H x; symmetry; apply H.
Qed.

Lemma arrayEquivalent_is_set_equality_without_repeats_witness :
  NoDup ["import"; "node"] /\ NoDup ["node"; "import"]
  /\ (arrayEquivalent ["import"; "node"] ["node"; "import"] = true
      <-> (forall x, In x ["import"; "node"] <-> In x ["node"; "import"])).
Proof.
  assert (NoDup ["import"; "node"]) as H1
    by (repeat constructor; simpl; intuition discriminate).
  assert (NoDup ["node"; "import"]) as H2
    by (repeat constructor; simpl; intuition discriminate).
  split; [exact H1|]. split; [exact H2|].
  exact (proj1 (arrayEquivalent_is_set_equality_without_repeats _ _ H1 H2)).
Defined.

(** ** The negation pass as a whole *)

Lemma filter_filter_and {A : Type} (p q : A -> bool) (l : list A) :
  filter p (filter q l) = filter (fun x => q x && p x) l.
Proof.
  induction l as [|x l IH]; simpl; [reflexivity|].
  destruct (q x); simpl; [destruct (p x)|]; rewrite IH; reflexivity.
Qed.

Lemma removeNegated_fields (st : State) (negated : NegatedExport) :
  exports (removeNegated st negated) = filter (keptBy negated) (exports st)
  /\ negatedExports (removeNegated st negated) = negatedExports st
  /\ packagedFiles (removeNegated st negated) = packagedFiles st
  /\ rejected (removeNegated st negated) = rejected st
  /\ messages (removeNegated st negated)
     = messages st
       ++ (if existsb (negationMatches negated) (exports st) then []
           else [missingMessage negated]).
Proof.
  rewrite removeNegated_filter. cbv zeta.
  destruct (existsb (negationMatches negated) (exports st)); simpl;
    rewrite ?app_nil_r; repeat split; reflexivity.
Qed.

Lemma fold_removeNegated_exports :
  forall (negations : list NegatedExport) (st : State),
    exports (fold_left removeNegated negations st)
    = filter (fun export_ => negb (negatedBy negations export_)) (exports st).
Proof.
  induction negations as [|n negations IH]; intros st; simpl.
  - induction (exports st) as [|e l IHl]; simpl; [reflexivity|].
    rewrite <- IHl. reflexivity.
  - rewrite IH. destruct (removeNegated_fields st n) as [-> _].
    rewrite filter_filter_and. apply filter_ext. intros e.
    unfold keptBy, negatedBy. simpl. rewrite negb_orb. reflexivity.
Qed.

(** X4.  The negation pass keeps, in their order, exactly the entries that no
    negation record matches; it leaves the negation records and the packed
    files as they are. *)
Theorem negation_pass_keeps_unmatched_entries :
  forall st : State,
    exports (removeAllNegated st)
    = filter (fun export_ => negb (negatedBy (negatedExports st) export_))
        (exports st)
    /\ negatedExports (removeAllNegated st) = negatedExports st
    /\ packagedFiles (removeAllNegated st) = packagedFiles st.
Proof.
  intros st. unfold removeAllNegated. split; [apply fold_removeNegated_exports|].
  generalize (negatedExports st) at 1 3 as negations. intros negations.
  assert (forall s, negatedExports (fold_left removeNegated negations s)
                    = negatedExports s
                    /\ packagedFiles (fold_left removeNegated negations s)
                       = packagedFiles s) as H.
  { induction negations as [|n negations IH]; intros s; simpl; [split; reflexivity|].
    destruct (IH (removeNegated s n)) as [-> ->].
    destruct (removeNegated_fields s n) as [_ [-> [-> _]]]. split; reflexivity. }
  split; apply H.
Qed.

(** X5.  A negation applied a second time finds nothing left to remove: the
    entries stay as they are and [exports-negated-missing] is reported. *)
Theorem negation_twice_reports_missing :
  forall (st : State) (negated : NegatedExport),
    removeNegated (removeNegated st negated) negated
    = message (removeNegated st negated) "exports-negated-missing"
        [neg_specifier negated] (neg_jsonPath negated).
Proof.
  intros st negated. apply removeNegated_unmatched.
  destruct (removeNegated_fields st negated) as [-> _].
  induction (exports st) as [|e l IH]; simpl; [reflexivity|].
  unfold keptBy at 1.
  destruct (negationMatches negated e) eqn:E; simpl; [exact IH|].
  rewrite E. exact IH.
Qed.
(** ** The comparator is an ordering *)

Lemma string_compare_transitive :
  forall a b c : string,
    String.compare a b <> Gt -> String.compare b c <> Gt ->
    String.compare a c <> Gt.
Proof.
  induction a as [|x a IH]; intros [|y b] [|z c]; simpl; try congruence.
  unfold Ascii.compare.
  destruct (N.compare_spec (N_of_ascii x) (N_of_ascii y)) as [Hxy|Hxy|Hxy];
    destruct (N.compare_spec (N_of_ascii y) (N_of_ascii z)) as [Hyz|Hyz|Hyz];
    destruct (N.compare_spec (N_of_ascii x) (N_of_ascii z)) as [Hxz|Hxz|Hxz];
    try congruence; try lia.
  apply IH.
Qed.

Lemma sample_localeCompare_transitive :
  forall a b c,
    (Sample.localeCompare a b <= 0)%Z -> (Sample.localeCompare b c <= 0)%Z ->
    (Sample.localeCompare a c <= 0)%Z.
Proof.
  intros a b c. unfold Sample.localeCompare.
  pose proof (string_compare_transitive a b c) as H.
  destruct (String.compare a b), (String.compare b c), (String.compare a c);
    intros; try lia;
    exfalso; apply H; congruence.
Qed.

(** X6.  [compareExport] is a consistent comparator whenever [localeCompare] is
    one: any two entries are in order one way or the other, being in order
    is transitive, and so in the sorted sequence every entry is in order
    with every later entry, not only with its successor. *)
Theorem compareExport_orders_entries :
  forall (localeCompare : string -> string -> Z),
    (forall a b, (localeCompare a b > 0)%Z -> (localeCompare b a <= 0)%Z) ->
    (forall a b c,
        (localeCompare a b <= 0)%Z -> (localeCompare b c <= 0)%Z ->
        (localeCompare a c <= 0)%Z) ->
    (forall x y, inOrder localeCompare x y \/ inOrder localeCompare y x)
    /\ (forall x y z,
           inOrder localeCompare x y -> inOrder localeCompare y z ->
           inOrder localeCompare x z)
    /\ (forall l,
           StronglySorted (inOrder localeCompare) (sortExports localeCompare l)).
Proof.
  intros localeCompare Htotal Htrans. split; [|split].
  - intros x y.
    destruct (Z.le_gt_cases (compareExport localeCompare x y) 0) as [H|H];
      [left; exact H|].
    right. apply compareExport_total; [exact Htotal|]. unfold inOrder. lia.
  - intros x y z. apply compareExport_transitive. exact Htrans.
  - intros l. apply Sorted_StronglySorted.
    + intros x y z. apply compareExport_transitive. exact Htrans.
    + apply sortExports_sorted. exact Htotal.
Qed.

Lemma compareExport_orders_entries_witness :
  (forall a b,
      (Sample.localeCompare a b > 0)%Z -> (Sample.localeCompare b a <= 0)%Z)
  /\ (forall a b c,
         (Sample.localeCompare a b <= 0)%Z -> (Sample.localeCompare b c <= 0)%Z ->
         (Sample.localeCompare a c <= 0)%Z)
  /\ StronglySorted (inOrder Sample.localeCompare)
       (sortExports Sample.localeCompare legacyEntries).
Proof.
  split; [exact sample_localeCompare_total|].
  split; [exact sample_localeCompare_transitive|].
  exact (proj2 (proj2 (compareExport_orders_entries Sample.localeCompare
                         sample_localeCompare_total
                         sample_localeCompare_transitive))
           legacyEntries).
Defined.
(** ** Recovering substitutions *)

Lemma length_append (a b : string) :
  String.length (a ++ b) = (String.length a + String.length b)%nat.
Proof. induction a as [|x a IH]; simpl; [reflexivity | rewrite IH; reflexivity]. Qed.

Lemma append_empty_r (a : string) : (a ++ "")%string = a.
Proof. induction a as [|x a IH]; simpl; [reflexivity | rewrite IH; reflexivity]. Qed.

Lemma drop_append (a b : string) : Js.drop (String.length a) (a ++ b) = b.
Proof. induction a as [|x a IH]; simpl; [reflexivity | exact IH]. Qed.

Lemma take_append (a b : string) : Js.take (String.length a) (a ++ b) = a.
Proof. induction a as [|x a IH]; simpl; [reflexivity | rewrite IH; reflexivity]. Qed.

Lemma drop_drop (n m : nat) (s : string) :
  Js.drop n (Js.drop m s) = Js.drop (m + n) s.
Proof.
  revert s. induction m as [|m IH]; intros s; simpl; [reflexivity|].
  destruct s as [|x s]; [destruct n; reflexivity | apply IH].
Qed.

Lemma append_inv_head (a b c : string) : (a ++ b = a ++ c)%string -> b = c.
Proof.
  induction a as [|x a IH]; simpl; intros H; [exact H|].
  inversion H. apply IH. assumption.
Qed.

Lemma append_inv_tail (a b c : string) : (a ++ c = b ++ c)%string -> a = b.
Proof.
  revert b. induction a as [|x a IH]; intros [|y b] H; simpl in H.
  - reflexivity.
  - exfalso. apply (f_equal String.length) in H. simpl in H.
    rewrite length_append in H. lia.
  - exfalso. apply (f_equal String.length) in H. simpl in H.
    rewrite length_append in H. lia.
  - inversion H. f_equal. apply IH. assumption.
Qed.

Lemma prefix_append (a b : string) : String.prefix a (a ++ b) = true.
Proof.
  induction a as [|x a IH]; simpl; [destruct b; reflexivity|].
  destruct (ascii_dec x x); [exact IH | contradiction].
Qed.

(** A search finds an occurrence at or before any given one. *)
Lemma search_finds (pat : string) :
  forall (s : string) (pos n : nat),
    String.prefix pat (Js.drop n s) = true ->
    (n <= String.length s)%nat ->
    exists k, Js.search pat s pos = Some k /\ (pos <= k <= pos + n)%nat.
Proof.
  induction s as [|x s IH]; intros pos n Hocc Hn.
  - simpl in Hn. assert (n = 0)%nat as -> by lia. cbn [Js.drop] in Hocc.
    exists pos. unfold Js.search. rewrite Hocc. split; [reflexivity | lia].
  - unfold Js.search; fold Js.search.
    destruct (String.prefix pat (String x s)) eqn:Hhere.
    + exists pos. split; [reflexivity | lia].
    + destruct n as [|n]; [cbn [Js.drop] in Hocc; congruence|].
      cbn [Js.drop] in Hocc. simpl in Hn.
      destruct (IH (S pos) n Hocc) as [k [Hk Hbound]]; [lia|].
      exists k. split; [exact Hk | lia].
Qed.

Lemma indexOf_finds (s pat : string) (from e : nat) :
  (from <= e <= String.length s)%nat ->
  String.prefix pat (Js.drop e s) = true ->
  exists k, Js.indexOf s pat from = Some k /\ (from <= k <= e)%nat.
Proof.
  intros Hbound Hocc. unfold Js.indexOf.
  rewrite Nat.min_l by lia.
  destruct (search_finds pat (Js.drop from s) from (e - from)) as [k [Hk Hk']].
  - rewrite drop_drop. replace (from + (e - from))%nat with e by lia. exact Hocc.
  - rewrite length_drop. lia.
  - exists k. split; [exact Hk | lia].
Qed.

(** The scan reaches every occurrence of the suffix. *)
Lemma optionsLoop_reaches (filePath_ second : string) (start e : nat) :
  second <> EmptyString ->
  String.prefix second (Js.drop e filePath_) = true ->
  (e < String.length filePath_)%nat ->
  forall fuel from,
    (from <= e)%nat -> (e - from < fuel)%nat ->
    In (Js.slice filePath_ start e)
      (optionsLoop filePath_ second start (Js.indexOf filePath_ second from) fuel).
Proof.
  intros Hsecond Hocc He.
  induction fuel as [|fuel IH]; intros from Hfrom Hfuel; [lia|].
  destruct (indexOf_finds filePath_ second from e) as [k [Hk Hbound]];
    [lia | exact Hocc |].
  rewrite Hk. simpl.
  destruct (Nat.eq_dec k e) as [->|Hne]; [left; reflexivity|].
  right. apply IH; lia.
Qed.

Lemma find_unique {A : Type} (p : A -> bool) (x : A) (l : list A) :
  In x l -> (forall y, p y = true <-> y = x) -> find p l = Some x.
Proof.
  intros Hin Hp. induction l as [|y l IH]; [contradiction|].
  simpl. destruct (p y) eqn:E.
  - apply Hp in E. subst. reflexivity.
  - destruct Hin as [->|Hin]; [|apply IH; exact Hin].
    assert (p x = true) as Hx by (apply Hp; reflexivity). congruence.
Qed.

Lemma replacementFor_recovers (first second replacement : string) :
  replacementFor [first; second] (first ++ replacement ++ second)
  = Some [replacement].
Proof.
  unfold replacementFor. simpl nth_error. cbv beta iota.
  unfold Js.slice at 1. simpl Js.drop. rewrite Nat.sub_0_r, take_append.
  rewrite String.eqb_refl.
  rewrite (find_unique _ replacement); [reflexivity| |].
  - unfold replacementOptions. apply in_or_app.
    destruct (String.eqb_spec second EmptyString) as [->|Hsecond].
    + right. left. unfold Js.sliceFrom.
      rewrite drop_append, append_empty_r. reflexivity.
    + left.
      assert (Js.slice (first ++ replacement ++ second) (String.length first)
                (String.length first + String.length replacement)
              = replacement) as Hslice.
      { unfold Js.slice. rewrite drop_append.
        replace (String.length first + String.length replacement
                 - String.length first)%nat
          with (String.length replacement) by lia.
        apply take_append. }
      rewrite <- Hslice at 1.
      apply optionsLoop_reaches; try lia; try assumption.
      * rewrite <- length_append, <- string_app_assoc, drop_append.
        rewrite <- (append_empty_r second) at 2. apply prefix_append.
      * rewrite !length_append. destruct second; [contradiction|].
        simpl. lia.
      * rewrite !length_append. lia.
  - intros option. rewrite String.eqb_eq. simpl Js.join. split.
    + intros H. apply append_inv_head in H. apply append_inv_tail in H. exact H.
    + intros ->. reflexivity.
Qed.

(** X7.  For a pattern of two parts, [findWildcardReplacements] gives back, for
    files made of the first part, a substitution and the second part, exactly
    the substitutions, in order: nothing is lost and nothing is cut short,
    also when the second part occurs inside a substitution or is empty. *)
Theorem findWildcardReplacements_recovers_substitutions :
  forall (first second : string) (replacements : list string),
    findWildcardReplacements [first; second]
      (map (fun replacement => (first ++ replacement ++ second)%string)
         replacements)
    = Some replacements.
Proof.
  intros first second. induction replacements as [|r rs IH]; simpl;
    [reflexivity|].
  rewrite replacementFor_recovers, IH. reflexivity.
Qed.

(** ** The entries of a wildcard leaf *)





Lemma findWildcardReplacements_fails (parts : list string) (first f : string) :
  nth_error parts 0 = Some first ->
  Js.slice f 0 (String.length first) <> first ->
  forall filePaths,
    In f filePaths -> findWildcardReplacements parts filePaths = None.
Proof.
  intros Hfirst Hslice. induction filePaths as [|g rest IH]; [contradiction|].
  intros [->|Hin]; simpl.
  - unfold replacementFor. rewrite Hfirst.
    destruct (nth_error parts 1); [|reflexivity].
    destruct (String.eqb_spec (Js.slice f 0 (String.length first)) first);
      [contradiction | reflexivity].
  - rewrite (IH Hin). destruct (replacementFor parts g); reflexivity.
Qed.

(** X8.  When the glob matches a packed file that does not start with the text
    before the wildcard (a value with other glob characters), the assertion
    of [findWildcardReplacements] fails: the expansion is rejected and adds
    nothing, not even for the files that do start with it. *)
Theorem wildcard_expansion_rejects_foreign_match :
  forall (minimatch : string -> string -> bool) (fsAccess : string -> bool)
         (resolveUrl : string -> string -> string) (st : State) (info : Info)
         (specifier_ : string * string) (valueParts : list string)
         (first file : string),
    nth_error valueParts 0 = Some first ->
    In file (packagedFiles st) ->
    minimatch (Js.join "**/*" valueParts) file = true ->
    Js.slice file 0 (String.length first) <> first ->
    addDynamic minimatch fsAccess resolveUrl st info specifier_ valueParts
    = reject st.
Proof.
  intros minimatch fsAccess resolveUrl st info specifier_ valueParts first file
    Hfirst Hin Hmatch Hslice.
  unfold addDynamic.
  assert (In file (filter (minimatch (Js.join "**/*" valueParts))
                     (packagedFiles st))) as Hfile
    by (apply filter_In; split; assumption).
  destruct (filter _ (packagedFiles st)) as [|g results] eqn:Hresults;
    [contradiction|].
  rewrite (findWildcardReplacements_fails valueParts first file Hfirst Hslice
             (g :: results) Hfile).
  reflexivity.
Qed.

Lemma wildcard_expansion_rejects_foreign_match_witness :
  nth_error ["./li?/"; ".js"] 0 = Some "./li?/"
  /\ In "./lib/a.js" (packagedFiles (Sample.emptyState ["./lib/a.js"]))
  /\ (fun _ _ : string => true) (Js.join "**/*" ["./li?/"; ".js"]) "./lib/a.js"
     = true
  /\ Js.slice "./lib/a.js" 0 (String.length "./li?/") <> "./li?/"
  /\ addDynamic (fun _ _ => true) Sample.noFile Sample.resolveUrl
       (Sample.emptyState ["./lib/a.js"])
       (mkInfo None [Key "exports"; Key "./*"] [0%nat; 0%nat] (Some "./*"))
       ("./", "") ["./li?/"; ".js"]
     = reject (Sample.emptyState ["./lib/a.js"]).
Proof.
  assert (Js.slice "./lib/a.js" 0 (String.length "./li?/") <> "./li?/") as Hne
    by (vm_compute; discriminate).
  split; [reflexivity|]. split; [left; reflexivity|]. split; [reflexivity|].
  split; [exact Hne|].
  exact (wildcard_expansion_rejects_foreign_match (fun _ _ => true)
           Sample.noFile Sample.resolveUrl (Sample.emptyState ["./lib/a.js"])
           (mkInfo None [Key "exports"; Key "./*"] [0%nat; 0%nat] (Some "./*"))
           ("./", "") ["./li?/"; ".js"] "./li?/" "./lib/a.js"
           eq_refl (or_introl eq_refl) eq_refl Hne).
Defined.
(** ** Leaves under a dynamic specifier *)

Lemma second_wildcard_found (s : string) :
  (2 <= Js.occurrences "*" s)%nat ->
  exists i,
    Js.indexOf s "*" 0 = Some i /\ Js.includesFrom s "*" (i + 1) = true.
Proof.
  intros Htwo.
  destruct (Js.indexOf s "*" 0) as [i|] eqn:Hi.
  - exists i. split; [reflexivity|].
    destruct (Js.includesFrom s "*" (i + 1)) eqn:Hmore; [reflexivity|].
    destruct (single_wildcard s i Hi Hmore) as [_ [_ Hone]]. lia.
  - apply indexOf_char_None in Hi. lia.
Qed.

(** X9.  A specifier with two wildcards or more: a string leaf gets the
    [exports-specifier-wildcard-invalid] diagnostic and nothing else, with
    or without a wildcard in the value; a [null] leaf is not checked and is
    recorded as a negation all the same. *)
Theorem double_wildcard_specifier_is_invalid :
  forall (minimatch : string -> string -> bool) (fsAccess : string -> bool)
         (resolveUrl : string -> string -> string) (st : State) (info : Info)
         (value : string),
    (2 <= Js.occurrences "*" (specifierOrMain info))%nat ->
    Js.startsWith value "./" = true ->
    addValue minimatch fsAccess resolveUrl st info (JString value)
    = message st "exports-specifier-wildcard-invalid"
        [specifierOrMain info] (info_path info)
    /\ addValue minimatch fsAccess resolveUrl st info JNull
       = pushNegated st
           (mkNegated (info_conditions info) (info_path info)
              (info_pathOrder info) (specifierOrMain info)).
Proof.
  intros minimatch fsAccess resolveUrl st info value Htwo Hprefix.
  split; [|reflexivity].
  destruct (second_wildcard_found _ Htwo) as [i [Hi Hmore]].
  unfold addValue. rewrite Hprefix. cbv beta iota delta [negb].
  rewrite Hi, Hmore. reflexivity.
Qed.

Lemma double_wildcard_specifier_is_invalid_witness :
  (2 <= Js.occurrences "*"
          (specifierOrMain
             (mkInfo None [Key "exports"; Key "./x/*/y/*"] [0%nat; 0%nat]
                (Some "./x/*/y/*"))))%nat
  /\ Js.startsWith "./lib/*.js" "./" = true
  /\ addValue Sample.minimatch Sample.noFile Sample.resolveUrl
       (Sample.emptyState ["./lib/a.js"])
       (mkInfo None [Key "exports"; Key "./x/*/y/*"] [0%nat; 0%nat]
          (Some "./x/*/y/*"))
       (JString "./lib/*.js")
     = message (Sample.emptyState ["./lib/a.js"])
         "exports-specifier-wildcard-invalid" ["./x/*/y/*"]
         [Key "exports"; Key "./x/*/y/*"].
Proof.
  assert (2 <= Js.occurrences "*"
                 (specifierOrMain
                    (mkInfo None [Key "exports"; Key "./x/*/y/*"]
                       [0%nat; 0%nat] (Some "./x/*/y/*"))))%nat as Htwo
    by (vm_compute; lia).
  split; [exact Htwo|]. split; [reflexivity|].
  exact (proj1 (double_wildcard_specifier_is_invalid Sample.minimatch
                  Sample.noFile Sample.resolveUrl
                  (Sample.emptyState ["./lib/a.js"])
                  (mkInfo None [Key "exports"; Key "./x/*/y/*"] [0%nat; 0%nat]
                     (Some "./x/*/y/*"))
                  "./lib/*.js" Htwo eq_refl)).
Defined.
(** ** A walk, step by step

    Whatever relation between states is kept by the leaves, by the
    diagnostics of arrays and objects and by a failed assertion, and is
    reflexive and transitive, holds between the state before a walk and the
    state after it. *)

Section WalkRelation.

Variable minimatch : string -> string -> bool.
Variable fsAccess : string -> bool.
Variable resolveUrl : string -> string -> string.

Variable T : State -> State -> Prop.
Variable OK : Info -> json -> Prop.

Hypothesis T_refl : forall st, T st st.
Hypothesis T_trans : forall a b c, T a b -> T b c -> T a c.
Hypothesis T_leaf :
  forall st info v,
    OK info v -> isLeaf v ->
    T st (addValue minimatch fsAccess resolveUrl st info v).
Hypothesis T_message :
  forall st info v rule details_ p,
    OK info v -> ownMessage info v (mkMessage rule p details_) ->
    T st (message st rule details_ p).
Hypothesis T_reject :
  forall st info fields,
    OK info (JObject fields) ->
    fields <> [] ->
    Js.truthy (last (keysOf fields) EmptyString) = false ->
    T st (reject st).
Hypothesis OK_item :
  forall info first others,
    OK info (JArray (first :: others)) -> OK (listChild info) first.
Hypothesis OK_condition :
  forall info fields index condition value,
    OK info (JObject fields) ->
    Js.startsWith condition "." = false ->
    nth_error fields index = Some (condition, value) ->
    OK (conditionChild info condition index) value.
Hypothesis OK_specifier :
  forall info fields index specifier_ value,
    OK info (JObject fields) ->
    specifierSet info = false ->
    Js.startsWith specifier_ "." = true ->
    nth_error fields index = Some (specifier_, value) ->
    OK (specifierChild info specifier_ index) value.

Abbreviation walk := (resolveExports minimatch fsAccess resolveUrl).

Lemma T_here (st : State) (info : Info) (v : json) (rule : string)
    (details_ : list string) :
  OK info v -> In rule nodeRules ->
  T st (message st rule details_ (info_path info)).
Proof.
  intros Hok Hrule. apply (T_message st info v); [exact Hok|].
  left. split; [reflexivity | exact Hrule].
Qed.

Lemma T_key (st : State) (info : Info) (fields : list (string * json))
    (key rule : string) (details_ : list string) :
  OK info (JObject fields) -> In key (keysOf fields) -> In rule keyedRules ->
  T st (message st rule details_ (info_path info ++ [Key key])).
Proof.
  intros Hok Hkey Hrule. apply (T_message st info (JObject fields)); [exact Hok|].
  right. exists fields, key. repeat split; assumption.
Qed.

Lemma exclusiveCheck_keeps (st : State) (info : Info)
    (fields : list (string * json)) (condition : string) :
  OK info (JObject fields) -> In condition (keysOf fields) ->
  T st (exclusiveCheck st info condition).
Proof.
  intros Hok Hkey. unfold exclusiveCheck.
  generalize mutuallyExclusiveConditions as groups. intros groups. revert st.
  induction groups as [|g groups IH]; intros st; simpl; [apply T_refl|].
  eapply T_trans; [|apply IH].
  destruct (info_conditions info) as [active|]; [|apply T_refl].
  destruct (negb (Js.includes (me_conditions g) condition)); [apply T_refl|].
  destruct (find (Js.includes (me_conditions g)) active); [|apply T_refl].
  apply (T_key st info fields); [exact Hok | exact Hkey|].
  right. left. reflexivity.
Qed.

Lemma nth_error_middle {A : Type} (l1 l2 : list A) (x : A) :
  nth_error (l1 ++ x :: l2) (length l1) = Some x.
Proof. rewrite nth_error_app2, Nat.sub_diag by lia. reflexivity. Qed.

Lemma conditionsLoop_keeps (info : Info) (fields : list (string * json)) :
  OK info (JObject fields) ->
  Forall (fun kv => Js.startsWith (fst kv) "." = false) fields ->
  forall rest done,
    fields = done ++ rest ->
    Forall (fun kv => walkKeeps minimatch fsAccess resolveUrl T OK (snd kv)) rest ->
    forall st hasDefault last_,
      T st (fst (fst (conditionsLoop walk info rest (length done) st
                        hasDefault last_))).
Proof.
  intros Hok Hdots.
  induction rest as [|[condition value] rest IH];
    intros done Hfields Hrest st hasDefault last_; simpl; [apply T_refl|].
  inversion Hrest as [|? ? Hvalue Hrest']; subst.
  assert (In (condition, value) (done ++ (condition, value) :: rest)) as Hin
    by (apply in_or_app; right; left; reflexivity).
  eapply T_trans; cycle 1.
  - replace (S (length done)) with (length (done ++ [(condition, value)]))
      by (rewrite length_app; simpl; lia).
    apply IH; [rewrite <- app_assoc; reflexivity | exact Hrest'].
  - eapply T_trans;
      [apply (exclusiveCheck_keeps st info _ condition Hok);
       apply (in_map fst) in Hin; exact Hin|].
    apply Hvalue.
    apply (OK_condition info _ (length done) condition value Hok).
    + rewrite Forall_forall in Hdots. apply (Hdots _ Hin).
    + apply nth_error_middle.
Qed.

Lemma specifiersLoop_keeps (info : Info) (fields : list (string * json))
    (keys : list string) :
  OK info (JObject fields) ->
  specifierSet info = false ->
  Forall (fun kv => Js.startsWith (fst kv) "." = true) fields ->
  forall rest done,
    fields = done ++ rest ->
    Forall (fun kv => walkKeeps minimatch fsAccess resolveUrl T OK (snd kv)) rest ->
    forall st,
      T st (specifiersLoop walk info keys rest (length done) st).
Proof.
  intros Hok Hunset Hdots.
  induction rest as [|[key value] rest IH]; intros done Hfields Hrest st; simpl;
    [apply T_refl|].
  inversion Hrest as [|? ? Hvalue Hrest']; subst.
  assert (In (key, value) (done ++ (key, value) :: rest)) as Hin
    by (apply in_or_app; right; left; reflexivity).
  eapply T_trans; cycle 1.
  - replace (S (length done)) with (length (done ++ [(key, value)]))
      by (rewrite length_app; simpl; lia).
    apply IH; [rewrite <- app_assoc; reflexivity | exact Hrest'].
  - eapply T_trans; cycle 1.
    + apply Hvalue.
      apply (OK_specifier info _ (length done) key value Hok Hunset).
      * rewrite Forall_forall in Hdots. apply (Hdots _ Hin).
      * apply nth_error_middle.
    + match goal with
      | |- T _ (if ?c then _ else _) => destruct c
      end; [|apply T_refl].
      apply (T_here st info _ _ _ Hok). do 8 right. left. reflexivity.
Qed.

Lemma last_In {A : Type} (l : list A) (d : A) : l <> [] -> In (last l d) l.
Proof.
  induction l as [|x l IH]; [contradiction|]. intros _.
  destruct l as [|y l]; [left; reflexivity|].
  right. apply IH. discriminate.
Qed.

Lemma resolveExportsConditions_keeps (st : State) (info : Info)
    (fields : list (string * json)) :
  OK info (JObject fields) ->
  fields <> [] ->
  Forall (fun kv => Js.startsWith (fst kv) "." = false) fields ->
  Forall (fun kv => walkKeeps minimatch fsAccess resolveUrl T OK (snd kv)) fields ->
  T st (resolveExportsConditions walk st info fields).
Proof.
  intros Hok Hne Hdots Hfields. unfold resolveExportsConditions.
  match goal with
  | |- context [if typesVerbose fields then message ?s1 _ _ _ else _] =>
      assert (T st s1) as H1; [|remember s1 as st1 eqn:E1; clear E1]
  end.
  { destruct (keysOf fields) as [|only [|]]; try apply T_refl.
    destruct (String.eqb only "default"); [|apply T_refl].
    apply (T_here st info _ _ _ Hok). do 5 right. left. reflexivity. }
  match goal with
  | |- context [conditionsLoop walk info fields 0 ?s2 false None] =>
      assert (T st1 s2) as H2; [|remember s2 as st2 eqn:E2; clear E2]
  end.
  { destruct (typesVerbose fields) eqn:Htypes; [|apply T_refl].
    apply (T_key st1 info fields); [exact Hok | | left; reflexivity].
    unfold typesVerbose in Htypes.
    apply andb_true_iff in Htypes as [Htypes _].
    apply andb_true_iff in Htypes as [_ Htypes].
    apply includes_In. exact Htypes. }
  pose proof (conditionsLoop_keeps info fields Hok Hdots fields [] eq_refl
                Hfields st2 false None) as Hloop.
  pose proof (conditionsLoop_flags minimatch fsAccess resolveUrl info fields 0
                st2 false None) as [_ Hlast].
  simpl length in Hloop.
  destruct (conditionsLoop walk info fields 0 st2 false None)
    as [[st3 hasDefault] last_].
  simpl in Hloop, Hlast. subst last_.
  eapply T_trans; [exact H1|]. eapply T_trans; [exact H2|].
  eapply T_trans; [exact Hloop|].
  destruct fields as [|kv fields']; [contradiction|].
  destruct (Js.truthy (last (keysOf (kv :: fields')) EmptyString)) eqn:Htruthy;
    [|apply (T_reject st3 info (kv :: fields') Hok Hne Htruthy)].
  destruct hasDefault.
  - destruct (negb (String.eqb (last (keysOf (kv :: fields')) EmptyString)
                      "default")); [|apply T_refl].
    apply (T_key st3 info (kv :: fields')); [exact Hok | |].
    + apply last_In. discriminate.
    + do 2 right. left. reflexivity.
  - destruct (negb (exhaustiveKeys (keysOf (kv :: fields')))); [|apply T_refl].
    apply (T_here st3 info _ _ _ Hok). do 6 right. left. reflexivity.
Qed.

Lemma resolveExportsSpecifiers_keeps (st : State) (info : Info)
    (fields : list (string * json)) :
  OK info (JObject fields) ->
  specifierSet info = false ->
  Forall (fun kv => Js.startsWith (fst kv) "." = true) fields ->
  Forall (fun kv => walkKeeps minimatch fsAccess resolveUrl T OK (snd kv)) fields ->
  T st (resolveExportsSpecifiers walk st info fields).
Proof.
  intros Hok Hunset Hdots Hfields. unfold resolveExportsSpecifiers.
  eapply T_trans;
    [|apply (specifiersLoop_keeps info fields (keysOf fields) Hok Hunset Hdots
               fields [] eq_refl Hfields)].
  destruct (keysOf fields) as [|only [|]]; try apply T_refl.
  destruct (String.eqb only "."); [|apply T_refl].
  apply (T_here st info _ _ _ Hok). do 7 right. left. reflexivity.
Qed.

Lemma dotsLoop_nonempty (keys : list string) (mixed : bool) :
  fst (dotsLoop keys None mixed) = None -> keys = [].
Proof.
  destruct keys as [|key rest]; [reflexivity|]. simpl.
  destruct (dotsLoop rest (Some (Js.startsWith key ".")) mixed)
    as [d m] eqn:E.
  apply dotsLoop_some in E as [-> _]. discriminate.
Qed.

Lemma walk_keeps :
  forall v, walkKeeps minimatch fsAccess resolveUrl T OK v.
Proof.
  induction v as [| | | |items IH|fields IH] using json_nested_ind;
    intros st info Hok;
    try (apply T_leaf; [exact Hok | exact I]).
  - cbn [resolveExports]. unfold resolveExportsList.
    destruct items as [|first others].
    + apply (T_here st info _ _ _ Hok). left. reflexivity.
    + inversion IH as [|? ? Hfirst _]; subst.
      eapply T_trans;
        [apply (T_here st info _ "exports-alternatives" [] Hok);
         right; left; reflexivity|].
      apply Hfirst. apply (OK_item info first others Hok).
  - cbn [resolveExports]. unfold resolveExportsObject.
    destruct (dotsLoop (keysOf fields) None false) as [[dots|] mixed] eqn:Hdots.
    + destruct mixed;
        [apply (T_here st info _ _ _ Hok); do 3 right; left; reflexivity|].
      assert (fields <> []) as Hne
        by (intros ->; simpl in Hdots; discriminate).
      apply dotsLoop_unmixed in Hdots. unfold keysOf in Hdots.
      rewrite Forall_map in Hdots.
      destruct (dots && specifierSet info) eqn:Hnested;
        [apply (T_here st info _ _ _ Hok); do 4 right; left; reflexivity|].
      destruct dots.
      * apply resolveExportsSpecifiers_keeps; assumption.
      * apply resolveExportsConditions_keeps; assumption.
    + apply (T_here st info _ _ _ Hok). do 2 right. left. reflexivity.
Qed.

End WalkRelation.
(** ** What a leaf adds *)

Section Adds.

Variable PE : RawExport -> Prop.
Variable PN : NegatedExport -> Prop.
Variable PM : Message -> Prop.

Lemma adds_refl (st : State) : adds PE PN PM st st.
Proof.
  split; [apply grows_refl|]. exists []. rewrite app_nil_r. split; constructor.
Qed.

Lemma adds_trans (st1 st2 st3 : State) :
  adds PE PN PM st1 st2 -> adds PE PN PM st2 st3 -> adds PE PN PM st1 st3.
Proof.
  intros [Hg [ns [Hn HPn]]] [Hg' [ns' [Hn' HPn']]].
  split; [eapply grows_trans; eassumption|].
  exists (ns ++ ns'). rewrite Hn', Hn, app_assoc.
  split; [reflexivity | apply Forall_app; split; assumption].
Qed.

Lemma adds_message (st : State) (rule : string) (info : list string)
    (p : jsonPath) :
  PM (mkMessage rule p info) -> adds PE PN PM st (message st rule info p).
Proof.
  intros H. split; [apply grows_message; exact H|].
  exists []. simpl. rewrite app_nil_r. split; constructor.
Qed.

Lemma adds_pushExport (st : State) (e : RawExport) :
  PE e -> adds PE PN PM st (pushExport st e).
Proof.
  intros H. split; [apply grows_pushExport; exact H|].
  exists []. simpl. rewrite app_nil_r. split; constructor.
Qed.

Lemma adds_pushNegated (st : State) (n : NegatedExport) :
  PN n -> adds PE PN PM st (pushNegated st n).
Proof.
  intros H. split; [apply grows_pushNegated|].
  exists [n]. simpl. split; [reflexivity | repeat constructor; exact H].
Qed.

Lemma adds_reject (st : State) : adds PE PN PM st (reject st).
Proof.
  split; [apply grows_reject|].
  exists []. simpl. rewrite app_nil_r. split; constructor.
Qed.

End Adds.

Lemma adds_weaken (PE PE' : RawExport -> Prop) (PN PN' : NegatedExport -> Prop)
    (PM PM' : Message -> Prop) (st st' : State) :
  (forall e, PE e -> PE' e) -> (forall n, PN n -> PN' n) ->
  (forall m, PM m -> PM' m) ->
  adds PE PN PM st st' -> adds PE' PN' PM' st st'.
Proof.
  intros HE HN HM [Hg [ns [Hn HPn]]].
  split; [eapply grows_weaken; eassumption|].
  exists ns. split; [exact Hn | eapply Forall_impl; eassumption].
Qed.

Lemma adds_same_inputs (PE : RawExport -> Prop) (PN : NegatedExport -> Prop)
    (PM : Message -> Prop) (st st' : State) :
  adds PE PN PM st st' ->
  packagedFiles st' = packagedFiles st /\ packageUrl st' = packageUrl st.
Proof. intros [[es [ms [ns H]]] _]. tauto. Qed.

Lemma split_keeps_prefix (value : string) :
  Js.startsWith value "./" = true ->
  exists first others,
    Js.split "*" value = first :: others /\ Js.startsWith first "./" = true.
Proof.
  unfold Js.startsWith. intros H.
  destruct value as [|a [|b value]]; cbn [String.prefix] in H;
    try discriminate H.
  { destruct (ascii_dec "."%char a); discriminate H. }
  destruct (ascii_dec "."%char a) as [<-|]; [|discriminate].
  destruct (ascii_dec "/"%char b) as [<-|]; [|discriminate].
  simpl.
  pose proof (split_nonempty "*" value) as Hne.
  destruct (Js.split "*" value) as [|p ps]; [contradiction|].
  exists (String "." (String "/" p)), ps. split; [reflexivity|].
  simpl. destruct p; reflexivity.
Qed.

Lemma join_keeps_prefix (replacement first second : string)
    (others : list string) :
  Js.startsWith first "./" = true ->
  Js.startsWith (Js.join replacement (first :: second :: others)) "./" = true.
Proof.
  intros H.
  change (Js.join replacement (first :: second :: others))
    with (first ++ replacement ++ Js.join replacement (second :: others))%string.
  apply startsWith_app. exact H.
Qed.

Section LeafFacts.

Variable minimatch : string -> string -> bool.
Variable fsAccess : string -> bool.
Variable resolveUrl : string -> string -> string.

Lemma expansions_packed (st : State) (valueParts : list string)
    (replacement : string) :
  In replacement (expansions minimatch st valueParts) ->
  In (Js.join replacement valueParts) (packagedFiles st).
Proof.
  intros Hr.
  destruct (expansions_matched minimatch fsAccess resolveUrl st valueParts)
    as [matched [Hincl [_ Hmap]]].
  assert (In (Js.join replacement valueParts) matched) as Hin
    by (rewrite <- Hmap;
        apply (in_map (fun r => Js.join r valueParts)); exact Hr).
  apply Hincl in Hin. apply filter_In in Hin. tauto.
Qed.

Lemma addDynamic_state (st : State) (info : Info)
    (specifier_ : string * string) (valueParts : list string) :
  let st' :=
    addDynamic minimatch fsAccess resolveUrl st info specifier_ valueParts in
  exports st'
  = exports st
    ++ map (expandedEntry resolveUrl st info specifier_ valueParts)
         (expansions minimatch st valueParts)
  /\ negatedExports st' = negatedExports st
  /\ packagedFiles st' = packagedFiles st
  /\ packageUrl st' = packageUrl st
  /\ (messages st' = messages st
      \/ messages st'
         = messages st
           ++ [mkMessage "exports-path-wildcard-not-found" (info_path info)
                 [Js.join "*" valueParts]]).
Proof.
  cbv zeta. split; [apply addDynamic_exports|].
  unfold addDynamic.
  destruct (filter _ (packagedFiles st)) as [|f results].
  - simpl. repeat split; try reflexivity. right. reflexivity.
  - destruct (findWildcardReplacements valueParts (f :: results)).
    + rewrite addDynamic_fold. simpl. repeat split; try reflexivity.
      left. reflexivity.
    + simpl. repeat split; try reflexivity. left. reflexivity.
Qed.

Lemma in_leafRules_not_found :
  In "exports-path-not-found" leafRules.
Proof. do 5 right. left. reflexivity. Qed.

(** A leaf adds only what [leafEntry], [leafNegation] and [leafMessage]
    describe. *)
Lemma addValue_adds (st : State) (info : Info) (v : json) :
  isLeaf v ->
  adds
    (leafEntry fsAccess resolveUrl (packagedFiles st) (packageUrl st) info v)
    (leafNegation info v) (leafMessage info) st
    (addValue minimatch fsAccess resolveUrl st info v).
Proof.
  intros Hleaf.
  assert (forall rule details_,
             In rule leafRules ->
             forall s,
               adds
                 (leafEntry fsAccess resolveUrl (packagedFiles st)
                    (packageUrl st) info v)
                 (leafNegation info v) (leafMessage info) s
                 (message s rule details_ (info_path info))) as Hmsg.
  { intros rule details_ Hrule s. apply adds_message.
    split; [reflexivity | exact Hrule]. }
  destruct v as [|b|n|value|items|fields]; try contradiction;
    unfold addValue; cbv beta iota;
    try (apply Hmsg; left; reflexivity).
  - apply adds_pushNegated. split; reflexivity.
  - destruct (Js.startsWith value "./") eqn:Hprefix; cbv beta iota delta [negb];
      [|apply Hmsg; right; left; reflexivity].
    assert (forall s,
               packagedFiles s = packagedFiles st ->
               packageUrl s = packageUrl st ->
               adds
                 (leafEntry fsAccess resolveUrl (packagedFiles st)
                    (packageUrl st) info (JString value))
                 (leafNegation info (JString value)) (leafMessage info) s
                 (addResolved fsAccess resolveUrl s info false true
                    (specifierOrMain info) (Some value))) as Hliteral.
    { intros s Hfiles Hurl. unfold addResolved. cbv zeta.
      assert (leafEntry fsAccess resolveUrl (packagedFiles st) (packageUrl st)
                info (JString value)
                (mkExport (info_conditions info)
                   (false || Js.includes (packagedFiles s) value
                    || fsAccess (resolveUrl value (packageUrl s)))
                   value (negb true) (info_path info) (info_pathOrder info)
                   (specifierOrMain info) (resolveUrl value (packageUrl s))))
        as Hentry.
      { unfold leafEntry; simpl. rewrite Hfiles, Hurl.
        repeat split; try assumption.
        exists value. repeat split; try reflexivity; discriminate. }
      destruct (false || Js.includes (packagedFiles s) value
                || fsAccess (resolveUrl value (packageUrl s))) eqn:Hfound.
      - apply adds_pushExport. exact Hentry.
      - eapply adds_trans; [apply adds_pushExport; exact Hentry|].
        apply adds_message. split; [reflexivity | apply in_leafRules_not_found]. }
    destruct (Js.indexOf (specifierOrMain info) "*" 0) as [i|];
      [|apply Hliteral; reflexivity].
    destruct (Js.includesFrom (specifierOrMain info) "*" (i + 1));
      [apply Hmsg; do 2 right; left; reflexivity|].
    destruct (Js.indexOf value "*" 0) as [j|] eqn:Hj.
    + destruct (addDynamic_state st info
                  (Js.slice (specifierOrMain info) 0 i,
                   Js.sliceFrom (specifierOrMain info) (i + 1))
                  (Js.split "*" value))
        as [He [Hn [Hf [Hu Hm]]]].
      assert (Forall
                (leafEntry fsAccess resolveUrl (packagedFiles st)
                   (packageUrl st) info (JString value))
                (map (expandedEntry resolveUrl st info
                        (Js.slice (specifierOrMain info) 0 i,
                         Js.sliceFrom (specifierOrMain info) (i + 1))
                        (Js.split "*" value))
                   (expansions minimatch st (Js.split "*" value)))) as Hall.
      { apply Forall_forall. intros e He'.
        apply in_map_iff in He' as [r [<- Hr]].
        unfold leafEntry, expandedEntry; simpl.
        repeat split.
        - destruct (split_keeps_prefix value Hprefix)
            as [first [others [Hsplit Hfirst]]].
          assert (2 <= length (Js.split "*" value))%nat as Hlen
            by (rewrite split_length;
                pose proof (indexOf_char_occurs "*" value j Hj); lia).
          rewrite Hsplit in Hlen |- *.
          destruct others as [|second others]; [simpl in Hlen; lia|].
          apply join_keeps_prefix. exact Hfirst.
        - exists value. repeat split; try discriminate.
          apply expansions_packed. exact Hr. }
      split; [|exists []; rewrite app_nil_r; split; [exact Hn | constructor]].
      destruct Hm as [Hm|Hm].
      * eexists; exists [], [].
        split; [exact He|]. rewrite !app_nil_r.
        repeat split; try assumption. constructor.
      * eexists; eexists; exists [].
        split; [exact He|]. split; [exact Hall|]. split; [exact Hm|].
        rewrite !app_nil_r. repeat split; try assumption.
        constructor; [|constructor].
        split; [reflexivity | do 4 right; left; reflexivity].
    + eapply adds_trans; [apply Hmsg; do 3 right; left; reflexivity|].
      apply Hliteral; reflexivity.
Qed.

End LeafFacts.
(** ** Where the additions of a walk come from *)

Section Provenance.

Variable minimatch : string -> string -> bool.
Variable fsAccess : string -> bool.
Variable resolveUrl : string -> string -> string.

Lemma walk_provenance (root : Info) (rootValue : json) (st : State) :
  adds
    (entryAt fsAccess resolveUrl (packagedFiles st) (packageUrl st) root
       rootValue)
    (negationAt root rootValue) (messageAt root rootValue) st
    (resolveExports minimatch fsAccess resolveUrl st root rootValue).
Proof.
  set (packed := packagedFiles st). set (base := packageUrl st).
  set (T := fun a b : State =>
              packagedFiles a = packed -> packageUrl a = base ->
              adds (entryAt fsAccess resolveUrl packed base root rootValue)
                (negationAt root rootValue) (messageAt root rootValue) a b).
  assert (walkKeeps minimatch fsAccess resolveUrl T (reaches root rootValue)
            rootValue) as H.
  { apply walk_keeps; unfold T.
    - intros a _ _. apply adds_refl.
    - intros a b c Hab Hbc Hp Hu.
      specialize (Hab Hp Hu).
      destruct (adds_same_inputs _ _ _ _ _ Hab) as [Hp' Hu'].
      eapply adds_trans; [exact Hab|].
      apply Hbc; congruence.
    - intros a info v Hreach Hleaf Hp Hu.
      eapply adds_weaken; [| | |apply addValue_adds; exact Hleaf].
      + intros e He. exists info, v. rewrite <- Hp, <- Hu. tauto.
      + intros n Hn. exists info, v. tauto.
      + intros m Hm. exists info, v. tauto.
    - intros a info v rule details_ p Hreach Hown _ _.
      apply adds_message. exists info, v. tauto.
    - intros a info fields _ _ _ _ _. apply adds_reject.
    - intros info first others. apply reaches_item.
    - intros info fields index condition value. apply reaches_condition.
    - intros info fields index specifier_ value. apply reaches_specifier. }
  apply H; [apply reaches_root | reflexivity | reflexivity].
Qed.

End Provenance.
(** ** The shape of the node information *)

Lemma follow_app (v w x : json) (order : list nat) (p : jsonPath) (i : nat)
    (seg : segment) :
  follow v order = Some (p, w) ->
  follow w [i] = Some ([seg], x) ->
  follow v (order ++ [i]) = Some (p ++ [seg], x).
Proof.
  revert v p. induction order as [|j order IH]; intros v p Hv Hw.
  - simpl in Hv. injection Hv as <- <-. exact Hw.
  - cbn [follow app] in Hv |- *.
    destruct v as [| | | |items|fields]; try discriminate Hv.
    + destruct (nth_error items j) as [u|]; [|discriminate].
      destruct (follow u order) as [[q y]|] eqn:Hu; [|discriminate].
      injection Hv as <- <-.
      rewrite (IH u q Hu Hw). reflexivity.
    + destruct (nth_error fields j) as [[k u]|]; [|discriminate].
      destruct (follow u order) as [[q y]|] eqn:Hu; [|discriminate].
      injection Hv as <- <-.
      rewrite (IH u q Hu Hw). reflexivity.
Qed.

Lemma conditionKeys_app (p q : jsonPath) :
  conditionKeys (p ++ q) = conditionKeys p ++ conditionKeys q.
Proof. apply flat_map_app. Qed.

Lemma specifierKeys_app (p q : jsonPath) :
  specifierKeys (p ++ q) = specifierKeys p ++ specifierKeys q.
Proof. apply flat_map_app. Qed.

Lemma moreConditions_step (active : option (list string))
    (keys : list string) (condition : string) :
  moreConditions active (keys ++ [condition])
  = match moreConditions active keys with
    | Some a => Some (a ++ [condition])
    | None => Some [condition]
    end.
Proof.
  destruct keys as [|k keys]; simpl.
  - destruct active; reflexivity.
  - destruct active; simpl; [rewrite <- app_assoc|]; reflexivity.
Qed.

Lemma dot_key_truthy (key : string) :
  Js.startsWith key "." = true -> Js.truthy key = true.
Proof. destruct key; [discriminate | reflexivity]. Qed.

(** The information that a walk has at a node records how it got there. *)
Lemma reaches_shape (root : Info) (rootValue : json) (info : Info) (v : json) :
  reaches root rootValue info v ->
  exists rel relOrder,
    info_path info = info_path root ++ rel
    /\ info_pathOrder info = info_pathOrder root ++ relOrder
    /\ locates rootValue rel relOrder v
    /\ info_conditions info
       = moreConditions (info_conditions root) (conditionKeys rel)
    /\ (info_specifier root = None ->
        (length (specifierKeys rel) <= 1)%nat
        /\ info_specifier info = hd_error (specifierKeys rel)).
Proof.
  unfold locates.
  induction 1 as [|info first others _ IH
                  |info fields index condition value _ IH Hdot Hnth
                  |info fields index key value _ IH Hset Hdot Hnth].
  - exists [], []. rewrite !app_nil_r. repeat split; auto.
  - destruct IH as [rel [relOrder [Hp [Ho [Hf [Hc Hs]]]]]].
    exists (rel ++ [Idx 0]), (relOrder ++ [0%nat]). simpl.
    rewrite Hp, Ho, !app_assoc. repeat split.
    + eapply follow_app; [exact Hf | reflexivity].
    + rewrite conditionKeys_app. simpl. rewrite app_nil_r. exact Hc.
    + rewrite specifierKeys_app. simpl. rewrite app_nil_r. apply Hs. assumption.
    + rewrite specifierKeys_app. simpl. rewrite app_nil_r. apply Hs. assumption.
  - destruct IH as [rel [relOrder [Hp [Ho [Hf [Hc Hs]]]]]].
    exists (rel ++ [Key condition]), (relOrder ++ [index]).
    unfold conditionChild;
      cbn [info_path info_pathOrder info_conditions info_specifier].
    rewrite Hp, Ho, !app_assoc. repeat split.
    + eapply follow_app; [exact Hf|]. simpl. rewrite Hnth. reflexivity.
    + rewrite conditionKeys_app.
      replace (conditionKeys [Key condition]) with [condition]
        by (simpl; rewrite Hdot; reflexivity).
      rewrite moreConditions_step, <- Hc. reflexivity.
    + rewrite specifierKeys_app. simpl. rewrite Hdot, app_nil_r.
      apply Hs. assumption.
    + rewrite specifierKeys_app. simpl. rewrite Hdot, app_nil_r.
      apply Hs. assumption.
  - destruct IH as [rel [relOrder [Hp [Ho [Hf [Hc Hs]]]]]].
    exists (rel ++ [Key key]), (relOrder ++ [index]). simpl.
    rewrite Hp, Ho, !app_assoc.
    assert (info_specifier root = None -> specifierKeys rel = []) as Hnone.
    { intros Hroot. destruct (Hs Hroot) as [_ Hhd].
      destruct (specifierKeys rel) as [|s keys] eqn:Hkeys; [reflexivity|].
      exfalso. unfold specifierSet in Hset. rewrite Hhd in Hset. simpl in Hset.
      assert (In s (specifierKeys rel)) as Hin by (rewrite Hkeys; left; reflexivity).
      apply in_flat_map in Hin as [seg [_ Hseg]].
      destruct seg as [k|]; [|contradiction].
      destruct (Js.startsWith k ".") eqn:Hk; [|contradiction].
      destruct Hseg as [->|[]].
      rewrite (dot_key_truthy s Hk) in Hset. discriminate. }
    repeat split.
    + eapply follow_app; [exact Hf|]. simpl. rewrite Hnth. reflexivity.
    + rewrite conditionKeys_app. simpl. rewrite Hdot, app_nil_r. exact Hc.
    + rewrite specifierKeys_app, (Hnone H). simpl. rewrite Hdot. simpl. lia.
    + rewrite specifierKeys_app, (Hnone H). simpl. rewrite Hdot. reflexivity.
Qed.
(** ** What the walk records *)

Lemma keyed_child (fields : list (string * json)) (key : string) :
  In key (keysOf fields) ->
  exists index value, nth_error fields index = Some (key, value).
Proof.
  unfold keysOf. intros Hin. apply in_map_iff in Hin as [[k value] [Hk Hin]].
  simpl in Hk. subst k.
  apply In_nth_error in Hin as [index Hindex]. exists index, value. exact Hindex.
Qed.

Lemma leaf_rule_not_own (info : Info) (v : json) (m : Message) :
  ownMessage info v m -> In (ruleId m) leafRules -> False.
Proof.
  intros [[_ Hrule]|[fields [key [_ [_ [_ Hrule]]]]]] Hleaf;
    unfold nodeRules, keyedRules, leafRules in *;
    simpl in Hrule, Hleaf;
    repeat match goal with
           | H : _ \/ _ |- _ => destruct H as [H|H]
           | H : False |- _ => contradiction
           end;
    rewrite <- Hleaf in Hrule; discriminate Hrule.
Qed.

Section Recorded.

Variable minimatch : string -> string -> bool.
Variable fsAccess : string -> bool.
Variable resolveUrl : string -> string -> string.

(** X10.  The JSON path and the path order of every entry and negation record
    that a walk adds extend those of the root, and, followed from the walked
    value, lead to the leaf it was made for: a string (the file path of a
    literal entry) or [null]. *)
Theorem walk_positions_lead_to_leaves (st : State) (root : Info)
    (rootValue : json) :
  adds
    (fun e =>
       exists rel relOrder value,
         jsonPath_ e = info_path root ++ rel
         /\ jsonPathOrder e = info_pathOrder root ++ relOrder
         /\ locates rootValue rel relOrder (JString value)
         /\ (globbed e = false -> filePath e = value))
    (fun n =>
       exists rel relOrder,
         neg_jsonPath n = info_path root ++ rel
         /\ neg_jsonPathOrder n = info_pathOrder root ++ relOrder
         /\ locates rootValue rel relOrder JNull)
    (fun _ => True) st
    (resolveExports minimatch fsAccess resolveUrl st root rootValue).
Proof.
  eapply adds_weaken; [| | |apply walk_provenance]; [| |exact (fun _ _ => I)].
  - intros e [info [v [Hreach [_ [Hp [Ho [_ [_ [value [-> [Hlit _]]]]]]]]]]].
    destruct (reaches_shape _ _ _ _ Hreach)
      as [rel [relOrder [Hip [Hio [Hloc _]]]]].
    exists rel, relOrder, value. rewrite Hp, Ho.
    repeat split; try assumption. intros Hg. apply Hlit. exact Hg.
  - intros n [info [v [Hreach [-> ->]]]].
    destruct (reaches_shape _ _ _ _ Hreach)
      as [rel [relOrder [Hip [Hio [Hloc _]]]]].
    exists rel, relOrder. simpl. repeat split; assumption.
Qed.

(** X11.  Every diagnostic of a walk has one of the rules of the walk and is
    placed at a node of the walked value; the leaf rules are used at leaves
    only. *)
Theorem walk_diagnostics_are_placed_on_nodes (st : State) (root : Info)
    (rootValue : json) :
  adds (fun _ => True) (fun _ => True)
    (fun m =>
       In (ruleId m) walkRules
       /\ exists rel relOrder node,
            place m = info_path root ++ rel
            /\ locates rootValue rel relOrder node
            /\ (In (ruleId m) leafRules -> isLeaf node))
    st (resolveExports minimatch fsAccess resolveUrl st root rootValue).
Proof.
  eapply adds_weaken; [| | |apply walk_provenance];
    [exact (fun _ _ => I) | exact (fun _ _ => I) |].
  intros m [info [v [Hreach Hm]]].
  destruct (reaches_shape _ _ _ _ Hreach)
    as [rel [relOrder [Hip [_ [Hloc _]]]]].
  unfold walkRules.
  destruct Hm as [[Hleaf [Hplace Hrule]]|Hown].
  - split; [apply in_or_app; right; apply in_or_app; right; exact Hrule|].
    exists rel, relOrder, v. rewrite Hplace.
    repeat split; try assumption. intros _. exact Hleaf.
  - pose proof (leaf_rule_not_own info v m Hown) as Hnot.
    destruct Hown as [[Hplace Hrule]|[fields [key [-> [Hkey [Hplace Hrule]]]]]].
    + split; [apply in_or_app; left; exact Hrule|].
      exists rel, relOrder, v. rewrite Hplace.
      repeat split; try assumption. intros H. destruct (Hnot H).
    + split; [apply in_or_app; right; apply in_or_app; left; exact Hrule|].
      destruct (keyed_child fields key Hkey) as [index [value Hindex]].
      exists (rel ++ [Key key]), (relOrder ++ [index]), value.
      rewrite Hplace, Hip, app_assoc. repeat split.
      * unfold locates in *. eapply follow_app; [exact Hloc|].
        simpl. rewrite Hindex. reflexivity.
      * intros H. destruct (Hnot H).
Qed.

(** X12.  The conditions of every entry and negation record that a walk adds
    are the conditions of the root followed by the condition keys on its
    JSON path, in order; without any of them they are those of the root. *)
Theorem walk_conditions_are_the_keys_on_the_path (st : State) (root : Info)
    (rootValue : json) :
  adds
    (fun e =>
       exists rel,
         jsonPath_ e = info_path root ++ rel
         /\ conditions e
            = moreConditions (info_conditions root) (conditionKeys rel))
    (fun n =>
       exists rel,
         neg_jsonPath n = info_path root ++ rel
         /\ neg_conditions n
            = moreConditions (info_conditions root) (conditionKeys rel))
    (fun _ => True) st
    (resolveExports minimatch fsAccess resolveUrl st root rootValue).
Proof.
  eapply adds_weaken; [| | |apply walk_provenance]; [| |exact (fun _ _ => I)].
  - intros e [info [v [Hreach [Hc [Hp _]]]]].
    destruct (reaches_shape _ _ _ _ Hreach)
      as [rel [relOrder [Hip [_ [_ [Hic _]]]]]].
    exists rel. rewrite Hp, Hc. split; assumption.
  - intros n [info [v [Hreach [_ ->]]]].
    destruct (reaches_shape _ _ _ _ Hreach)
      as [rel [relOrder [Hip [_ [_ [Hic _]]]]]].
    exists rel. simpl. split; assumption.
Qed.

(** X13.  In a walk that starts without a specifier, the JSON path of an
    entry or a negation record has at most one key that starts with a dot;
    the specifier of a literal entry and of a negation record is that key,
    and [.] when there is none. *)
Theorem walk_specifier_is_the_dot_key_on_the_path (st : State) (root : Info)
    (rootValue : json) :
  info_specifier root = None ->
  adds
    (fun e =>
       exists rel,
         jsonPath_ e = info_path root ++ rel
         /\ (length (specifierKeys rel) <= 1)%nat
         /\ (globbed e = false -> specifier e = hd "." (specifierKeys rel)))
    (fun n =>
       exists rel,
         neg_jsonPath n = info_path root ++ rel
         /\ (length (specifierKeys rel) <= 1)%nat
         /\ neg_specifier n = hd "." (specifierKeys rel))
    (fun _ => True) st
    (resolveExports minimatch fsAccess resolveUrl st root rootValue).
Proof.
  intros Hroot.
  assert (forall info v rel,
             reaches root rootValue info v ->
             info_specifier info = hd_error (specifierKeys rel) ->
             specifierOrMain info = hd "." (specifierKeys rel)) as Hmain.
  { intros info v rel _ Hhd. unfold specifierOrMain. rewrite Hhd.
    destruct (specifierKeys rel) as [|s keys] eqn:Hkeys; [reflexivity|].
    simpl.
    assert (In s (specifierKeys rel)) as Hin
      by (rewrite Hkeys; left; reflexivity).
    apply in_flat_map in Hin as [seg [_ Hseg]].
    destruct seg as [k|]; [|contradiction].
    destruct (Js.startsWith k ".") eqn:Hk; [|contradiction].
    destruct Hseg as [->|[]].
    rewrite (dot_key_truthy s Hk). reflexivity. }
  eapply adds_weaken; [| | |apply walk_provenance]; [| |exact (fun _ _ => I)].
  - intros e [info [v [Hreach [_ [Hp [_ [_ [_ [value [_ [Hlit _]]]]]]]]]]].
    destruct (reaches_shape _ _ _ _ Hreach)
      as [rel [relOrder [Hip [_ [_ [_ Hspec]]]]]].
    destruct (Hspec Hroot) as [Hlen Hhd].
    exists rel. rewrite Hp. repeat split; try assumption.
    intros Hg. destruct (Hlit Hg) as [_ [-> _]].
    apply (Hmain info v rel Hreach Hhd).
  - intros n [info [v [Hreach [_ ->]]]].
    destruct (reaches_shape _ _ _ _ Hreach)
      as [rel [relOrder [Hip [_ [_ [_ Hspec]]]]]].
    destruct (Hspec Hroot) as [Hlen Hhd].
    exists rel. simpl. repeat split; try assumption.
    apply (Hmain info v rel Hreach Hhd).
Qed.

(** X14.  Every entry that a walk adds has a file path that starts with [./]
    and the URL of that path against the package; an entry expanded from a
    wildcard is a packed file and exists; a literal entry exists exactly
    when its file is packed or found on disk. *)
Theorem walk_entries_exist_when_packed_or_on_disk (st : State) (root : Info)
    (rootValue : json) :
  adds
    (fun e =>
       Js.startsWith (filePath e) "./" = true
       /\ url e = resolveUrl (filePath e) (packageUrl st)
       /\ (globbed e = true ->
           exists_ e = true /\ In (filePath e) (packagedFiles st))
       /\ (globbed e = false ->
           exists_ e
           = Js.includes (packagedFiles st) (filePath e) || fsAccess (url e)))
    (fun _ => True) (fun _ => True) st
    (resolveExports minimatch fsAccess resolveUrl st root rootValue).
Proof.
  eapply adds_weaken; [| | |apply walk_provenance];
    [|exact (fun _ _ => I) | exact (fun _ _ => I)].
  intros e [info [v [_ [_ [_ [_ [Hu [Hprefix [value [_ [Hlit Hglob]]]]]]]]]]].
  repeat split; try assumption; try (apply Hglob; assumption).
  intros Hg. destruct (Hlit Hg) as [-> [_ ->]]. reflexivity.
Qed.

End Recorded.

Lemma walk_specifier_is_the_dot_key_on_the_path_witness :
  info_specifier Sample.rootInfo = None
  /\ adds
       (fun e =>
          exists rel,
            jsonPath_ e = info_path Sample.rootInfo ++ rel
            /\ (length (specifierKeys rel) <= 1)%nat
            /\ (globbed e = false -> specifier e = hd "." (specifierKeys rel)))
       (fun n =>
          exists rel,
            neg_jsonPath n = info_path Sample.rootInfo ++ rel
            /\ (length (specifierKeys rel) <= 1)%nat
            /\ neg_specifier n = hd "." (specifierKeys rel))
       (fun _ => True) (Sample.emptyState ["./index.js"])
       (resolveExports Sample.minimatch Sample.noFile Sample.resolveUrl
          (Sample.emptyState ["./index.js"]) Sample.rootInfo
          (JObject
             [("./a", JObject [("import", JString "./index.js");
                               ("default", JNull)])])).
Proof.
  split; [reflexivity|].
  apply (walk_specifier_is_the_dot_key_on_the_path Sample.minimatch
           Sample.noFile Sample.resolveUrl).
  reflexivity.
Defined.
(** ** When the walk is rejected *)

Lemma findWildcardReplacements_succeeds (parts : list string) :
  (2 <= length parts)%nat ->
  forall filePaths,
    Forall (fun file => startsWithFirstPart parts file = true) filePaths ->
    exists replacements,
      findWildcardReplacements parts filePaths = Some replacements.
Proof.
  intros Hlen. induction filePaths as [|f rest IH]; intros Hall.
  - exists []. reflexivity.
  - inversion Hall as [|? ? Hf Hrest]; subst.
    destruct (IH Hrest) as [results Hresults].
    destruct parts as [|first [|second parts]]; simpl in Hlen; try lia.
    simpl in Hf. cbn [findWildcardReplacements]. rewrite Hresults.
    unfold replacementFor. cbn [nth_error]. rewrite Hf.
    eexists. reflexivity.
Qed.

Lemma last_default {A : Type} (l : list A) (a b : A) :
  l <> [] -> last l a = last l b.
Proof.
  induction l as [|x [|y l] IH]; intros Hne;
    [contradiction | reflexivity |].
  change (last (y :: l) a = last (y :: l) b). apply IH. discriminate.
Qed.

Section Rejection.

Variable minimatch : string -> string -> bool.
Variable fsAccess : string -> bool.
Variable resolveUrl : string -> string -> string.

Lemma addResolved_flags (st : State) (info : Info)
    (definitelyExists explicitlyDefined : bool) (specifier_ : string)
    (value : option string) :
  rejected
    (addResolved fsAccess resolveUrl st info definitelyExists
       explicitlyDefined specifier_ value)
  = rejected st
  /\ packagedFiles
       (addResolved fsAccess resolveUrl st info definitelyExists
          explicitlyDefined specifier_ value)
     = packagedFiles st.
Proof.
  unfold addResolved. destruct value as [value|]; [|split; reflexivity].
  cbv zeta.
  destruct (definitelyExists || Js.includes (packagedFiles st) value
            || fsAccess (resolveUrl value (packageUrl st)));
    split; reflexivity.
Qed.

Lemma addResolved_fold_flags (info : Info) (specifier_ : string * string)
    (valueParts : list string) (replacements : list string) (st : State) :
  rejected
    (fold_left
       (fun st' replacement =>
          addResolved fsAccess resolveUrl st' info true false
            (fst specifier_ ++ replacement ++ snd specifier_)
            (Some (Js.join replacement valueParts)))
       replacements st)
  = rejected st
  /\ packagedFiles
       (fold_left
          (fun st' replacement =>
             addResolved fsAccess resolveUrl st' info true false
               (fst specifier_ ++ replacement ++ snd specifier_)
               (Some (Js.join replacement valueParts)))
          replacements st)
     = packagedFiles st.
Proof.
  revert st. induction replacements as [|r rest IH]; intros st;
    [split; reflexivity|].
  cbn [fold_left]. destruct (IH
    (addResolved fsAccess resolveUrl st info true false
       (fst specifier_ ++ r ++ snd specifier_)
       (Some (Js.join r valueParts)))) as [-> ->].
  apply addResolved_flags.
Qed.

(** A leaf whose assertions hold leaves the rejection flag alone. *)
Lemma addValue_flags (st : State) (info : Info) (v : json) :
  isLeaf v ->
  assertionsHold minimatch (packagedFiles st) v = true ->
  rejected (addValue minimatch fsAccess resolveUrl st info v) = rejected st
  /\ packagedFiles (addValue minimatch fsAccess resolveUrl st info v)
     = packagedFiles st.
Proof.
  intros Hleaf Hhold.
  destruct v as [|b|n|value|items|fields]; try contradiction;
    unfold addValue; cbv beta iota; try (split; reflexivity).
  destruct (negb (Js.startsWith value "./")); [split; reflexivity|].
  destruct (Js.indexOf (specifierOrMain info) "*" 0) as [i|];
    [|apply addResolved_flags].
  destruct (Js.includesFrom (specifierOrMain info) "*" (i + 1));
    [split; reflexivity|].
  destruct (Js.indexOf value "*" 0) as [j|] eqn:Hj;
    [|destruct (addResolved_flags
                 (message st "exports-specifier-wildcard-useless"
                    [specifierOrMain info; value] (info_path info))
                 info false true (specifierOrMain info) (Some value))
        as [-> ->]; split; reflexivity].
  unfold addDynamic.
  destruct (filter (minimatch (Js.join "**/*" (Js.split "*" value)))
              (packagedFiles st)) as [|f results] eqn:Hfilter;
    [split; reflexivity|].
  destruct (findWildcardReplacements_succeeds (Js.split "*" value))
    with (filePaths := f :: results) as [replacements Hfound].
  + rewrite split_length.
    pose proof (indexOf_char_occurs "*" value j Hj). lia.
  + rewrite <- Hfilter. apply Forall_forall. intros file Hin.
    apply filter_In in Hin as [Hin Hmatch].
    cbn [assertionsHold] in Hhold. unfold matchesKeepPrefix in Hhold.
    rewrite Hj in Hhold.
    rewrite forallb_forall in Hhold. specialize (Hhold file Hin).
    rewrite Hmatch in Hhold. exact Hhold.
  + rewrite Hfound. apply addResolved_fold_flags.
Qed.

(** X15.  The assertions of the walk itself, [assert(last)] in
    [resolveExportsConditions] and those of [findWildcardReplacements], do
    not fail when, in the walked value, the last property name of each
    object is not empty and the files matched for a wildcard value start
    with the text before its wildcard: the walk leaves the rejection flag
    as it was.  (The assertions of [message], on the position of a path in
    the file, belong to the presentation and are outside the embedding.) *)
Theorem walk_assertions_hold_on_checked_values (st : State) (root : Info)
    (rootValue : json) :
  assertionsHold minimatch (packagedFiles st) rootValue = true ->
  rejected (resolveExports minimatch fsAccess resolveUrl st root rootValue)
  = rejected st.
Proof.
  intros Hhold.
  set (packed := packagedFiles st) in *.
  set (T := fun a b : State =>
              packagedFiles a = packed ->
              rejected b = rejected a /\ packagedFiles b = packed).
  set (OK := fun (_ : Info) (v : json) =>
               assertionsHold minimatch packed v = true).
  assert (forall fields index key value,
             assertionsHold minimatch packed (JObject fields) = true ->
             nth_error fields index = Some (key, value) ->
             assertionsHold minimatch packed value = true) as Hchild.
  { intros fields index key value H Hnth. cbn [assertionsHold] in H.
    apply andb_true_iff in H as [_ H]. rewrite forallb_forall in H.
    apply (H (key, value)). eapply nth_error_In. exact Hnth. }
  assert (walkKeeps minimatch fsAccess resolveUrl T OK rootValue) as H.
  { apply walk_keeps; unfold T, OK.
    - intros a Ha. split; [reflexivity | exact Ha].
    - intros a b c Hab Hbc Ha. destruct (Hab Ha) as [Hr Hp].
      destruct (Hbc Hp) as [Hr' Hp']. split; [congruence | exact Hp'].
    - intros a info v Hok Hleaf Ha. rewrite <- Ha in Hok |- *.
      apply addValue_flags; assumption.
    - intros a info v rule details_ p _ _ Ha. split; [reflexivity | exact Ha].
    - intros a info fields Hok Hne Hlast _. exfalso.
      cbn [assertionsHold] in Hok. apply andb_true_iff in Hok as [Hok _].
      destruct fields as [|kv fields]; [contradiction|].
      rewrite (last_default (keysOf (kv :: fields)) "default" EmptyString)
        in Hok by discriminate.
      rewrite Hok in Hlast. discriminate.
    - intros info first others Hok. cbn [assertionsHold forallb] in Hok.
      apply andb_true_iff in Hok as [Hok _]. exact Hok.
    - intros info fields index condition value Hok _ Hnth.
      exact (Hchild fields index condition value Hok Hnth).
    - intros info fields index key value Hok _ _ Hnth.
      exact (Hchild fields index key value Hok Hnth). }
  apply H; [exact Hhold | reflexivity].
Qed.

End Rejection.

Lemma walk_assertions_hold_on_checked_values_witness :
  assertionsHold Sample.minimatch
    (packagedFiles (Sample.emptyState ["./index.js"; "./lib/a.js"]))
    (JObject
       [(".", JObject [("import", JString "./index.js"); ("default", JNull)]);
        ("./*", JString "./lib/*.js")])
  = true
  /\ rejected
       (resolveExports Sample.minimatch Sample.noFile Sample.resolveUrl
          (Sample.emptyState ["./index.js"; "./lib/a.js"]) Sample.rootInfo
          (JObject
             [(".", JObject [("import", JString "./index.js");
                             ("default", JNull)]);
              ("./*", JString "./lib/*.js")]))
     = rejected (Sample.emptyState ["./index.js"; "./lib/a.js"]).
Proof.
  assert (assertionsHold Sample.minimatch
            (packagedFiles (Sample.emptyState ["./index.js"; "./lib/a.js"]))
            (JObject
               [(".", JObject [("import", JString "./index.js");
                               ("default", JNull)]);
                ("./*", JString "./lib/*.js")])
          = true) as H by (vm_compute; reflexivity).
  split; [exact H|].
  exact (walk_assertions_hold_on_checked_values Sample.minimatch Sample.noFile
           Sample.resolveUrl (Sample.emptyState ["./index.js"; "./lib/a.js"])
           Sample.rootInfo _ H).
Defined.

(** ** The passes of [packageExports] *)

Lemma has_app (rule : string) (ms ms' : list Message) :
  has rule (ms ++ ms') = has rule ms || has rule ms'.
Proof. apply existsb_app. Qed.

Lemma has_other_rules (rule : string) (rules : list string)
    (ms : list Message) :
  Js.includes rules rule = false ->
  Forall (fun m => In (ruleId m) rules) ms ->
  has rule ms = false.
Proof.
  intros Hnot Hall. induction Hall as [|m ms Hm _ IH]; [reflexivity|].
  simpl. rewrite IH, orb_false_r.
  destruct (String.eqb_spec (ruleId m) rule) as [<-|]; [|reflexivity].
  apply includes_In in Hm. congruence.
Qed.

Lemma type_cases {A : Type} (P : A -> Prop) (kind : string) (a b : A) :
  P a -> P b ->
  P match kind with
    | "commonjs" | "module" => a
    | _ => b
    end.
Proof.
  intros Ha Hb.
  repeat match goal with
         | |- context [match ?x with _ => _ end] => destruct x
         end;
    assumption.
Qed.

Section Passes.

Variable minimatch : string -> string -> bool.
Variable fsAccess : string -> bool.
Variable resolveUrl : string -> string -> string.
Variable localeCompare : string -> string -> Z.

Lemma checkFields_fields (st : State) (packageData : PackageJson) :
  exports (checkFields st packageData) = exports st
  /\ negatedExports (checkFields st packageData) = negatedExports st
  /\ packageUrl (checkFields st packageData) = packageUrl st
  /\ packagedFiles (checkFields st packageData) = packagedFiles st
  /\ rejected (checkFields st packageData) = rejected st
  /\ exists ms,
       messages (checkFields st packageData) = messages st ++ ms
       /\ Forall (fun m => In (ruleId m) fieldRules) ms.
Proof.
  unfold checkFields.
  set (st1 := match pkg_name packageData with
              | Some (JString _) => st
              | _ => message st "name-missing" [] []
              end).
  assert (exports st1 = exports st
          /\ negatedExports st1 = negatedExports st
          /\ packageUrl st1 = packageUrl st
          /\ packagedFiles st1 = packagedFiles st
          /\ rejected st1 = rejected st
          /\ exists ms,
               messages st1 = messages st ++ ms
               /\ Forall (fun m => In (ruleId m) fieldRules) ms) as H1.
  { subst st1.
    destruct (pkg_name packageData) as [[| | |name| |]|];
      repeat split; try reflexivity;
      try (exists []; rewrite app_nil_r; split; [reflexivity | constructor]);
      (eexists; split; [reflexivity|]; repeat constructor). }
  clearbody st1. destruct H1 as [He [Hn [Hu [Hp [Hr [ms1 [Hm Hall]]]]]]].
  set (st2 := if negb (jsTruthy (pkg_type packageData)) then _ else _).
  assert (exports st2 = exports st
          /\ negatedExports st2 = negatedExports st
          /\ packageUrl st2 = packageUrl st
          /\ packagedFiles st2 = packagedFiles st
          /\ rejected st2 = rejected st
          /\ exists ms,
               messages st2 = messages st ++ ms
               /\ Forall (fun m => In (ruleId m) fieldRules) ms) as H2.
  { assert (forall rule p,
               In rule fieldRules ->
               exists ms,
                 messages (message st1 rule [] p) = messages st ++ ms
                 /\ Forall (fun m => In (ruleId m) fieldRules) ms) as Hadd.
    { intros rule p Hrule. exists (ms1 ++ [mkMessage rule p []]).
      simpl. rewrite Hm, app_assoc. split; [reflexivity|].
      apply Forall_app. split; [exact Hall|].
      constructor; [exact Hrule | constructor]. }
    subst st2.
    destruct (negb (jsTruthy (pkg_type packageData)));
      [repeat split; try assumption; apply Hadd; right; left; reflexivity|].
    destruct (pkg_type packageData) as [[| | |kind| |]|];
      try (repeat split; try assumption;
           apply Hadd; do 2 right; left; reflexivity).
    apply type_cases;
      repeat split; try assumption;
      try (exists ms1; split; assumption);
      apply Hadd; do 2 right; left; reflexivity. }
  clearbody st2. clear He Hn Hu Hp Hr Hm Hall ms1 st1.
  destruct H2 as [He [Hn [Hu [Hp [Hr [ms2 [Hm Hall]]]]]]].
  destruct (pkg_files packageData);
    repeat split; try assumption; try (exists ms2; split; assumption).
  exists (ms2 ++ [mkMessage "files-missing" [] []]).
  simpl. rewrite Hm, app_assoc. split; [reflexivity|].
  apply Forall_app. split; [exact Hall|].
  constructor; [do 3 right; left; reflexivity | constructor].
Qed.


Lemma walk_rules (st : State) (root : Info) (rootValue : json) :
  exists ms,
    messages (resolveExports minimatch fsAccess resolveUrl st root rootValue)
    = messages st ++ ms
    /\ Forall (fun m => In (ruleId m) walkRules) ms.
Proof.
  destruct (walk_provenance minimatch fsAccess resolveUrl root rootValue st)
    as [[es [ms [ns [_ [_ [Hm [Hall _]]]]]]] _].
  exists ms. split; [exact Hm|].
  eapply Forall_impl; [|exact Hall].
  intros m [info [v [_ [[_ [_ Hrule]]|Hown]]]]; unfold walkRules.
  - apply in_or_app; right; apply in_or_app; right; exact Hrule.
  - destruct Hown as [[_ Hrule]|[fields [key [_ [_ [_ Hrule]]]]]].
    + apply in_or_app; left; exact Hrule.
    + apply in_or_app; right; apply in_or_app; left; exact Hrule.
Qed.

Lemma removeNegated_fold_messages :
  forall (negations : list NegatedExport) (st : State),
    exists ms,
      messages (fold_left removeNegated negations st) = messages st ++ ms
      /\ Forall (fun m => In (ruleId m) ["exports-negated-missing"]) ms.
Proof.
  induction negations as [|n negations IH]; intros st; simpl.
  - exists []. rewrite app_nil_r. split; constructor.
  - destruct (IH (removeNegated st n)) as [ms [Hm Hall]].
    destruct (removeNegated_fields st n) as [_ [_ [_ [_ Hn]]]].
    rewrite Hm, Hn, <- app_assoc. eexists. split; [reflexivity|].
    apply Forall_app. split; [|exact Hall].
    destruct (existsb (negationMatches n) (exports st)); repeat constructor.
Qed.

Lemma existsb_permutation {A : Type} (p : A -> bool) (l l' : list A) :
  Permutation l l' -> existsb p l = existsb p l'.
Proof.
  induction 1 as [|x l l' _ IH|x y l|l l' l'' _ IH1 _ IH2]; simpl.
  - reflexivity.
  - rewrite IH. reflexivity.
  - destruct (p x), (p y); reflexivity.
  - rewrite IH1. exact IH2.
Qed.

Lemma existsb_mapped {A B : Type} (f : A -> B) (p : B -> bool) (l : list A) :
  existsb p (map f l) = existsb (fun x => p (f x)) l.
Proof.
  induction l as [|x l IH]; simpl; [reflexivity | rewrite IH; reflexivity].
Qed.

Lemma has_ignored (rule : string) (files : bool) (l : list RawExport) :
  String.eqb "npm-ignored" rule = false ->
  has rule (map (ignoredMessage files) l) = false.
Proof.
  intros Hrule. induction l as [|e l IH]; [reflexivity|].
  cbn [map]. unfold has in *. cbn [existsb]. rewrite IH.
  unfold ignoredMessage. cbn [ruleId]. rewrite Hrule. reflexivity.
Qed.

(** X16.  When there is an export map, [exports-main-missing] is among the
    diagnostics of the result exactly when no entry of the result has the
    main specifier [.]. *)
Theorem main_missing_reported_iff_no_main_entry (packageUrl_ : string)
    (packed : list string) (packageData : PackageJson) (exportsValue : json)
    (result : Result) :
  pkg_exports packageData = Some exportsValue ->
  packageExports minimatch fsAccess resolveUrl localeCompare packageUrl_
    packed packageData
  = Some result ->
  has "exports-main-missing" (res_messages result)
  = negb (existsb (fun e => String.eqb (ex_specifier e) ".")
            (res_exports result)).
Proof.
  intros Hexports Hresult. unfold packageExports, resolvePackage in Hresult.
  rewrite Hexports in Hresult.
  destruct (checkFields_fields (mkState [] [] [] packageUrl_ packed false)
              packageData) as [_ [_ [_ [_ [_ [ms0 [Hm0 Hall0]]]]]]].
  set (st0 := checkFields (mkState [] [] [] packageUrl_ packed false)
                packageData) in *.
  destruct (walk_rules st0 (mkInfo None [Key "exports"] [0%nat] None)
              exportsValue) as [ms1 [Hm1 Hall1]].
  set (st1 := resolveExports minimatch fsAccess resolveUrl st0
                (mkInfo None [Key "exports"] [0%nat] None) exportsValue) in *.
  destruct (rejected st1); [discriminate|].
  destruct (removeNegated_fold_messages (negatedExports st1) st1)
    as [ms2 [Hm2 Hall2]].
  fold (removeAllNegated st1) in Hm2.
  set (st2 := removeAllNegated st1) in *.
  assert (has "exports-main-missing" (messages st2) = false) as Hnone.
  { rewrite Hm2, Hm1, Hm0, !has_app. cbn [messages has existsb orb].
    rewrite (has_other_rules "exports-main-missing" fieldRules ms0 eq_refl
               Hall0).
    rewrite (has_other_rules "exports-main-missing" walkRules ms1 eq_refl
               Hall1).
    rewrite (has_other_rules "exports-main-missing"
               ["exports-negated-missing"] ms2 eq_refl Hall2).
    reflexivity. }
  remember (existsb (fun d => String.eqb (specifier d) ".") (exports st2))
    as main eqn:Hmain.
  cbv zeta in Hresult.
  match type of Hresult with
  | context [npmIgnored ?files ?st4] =>
      pose proof (npmIgnored_fold files (packagedFiles st4) (exports st4) st4
                    eq_refl) as Hfold;
      change (npmIgnored files st4
              = mkState (exports st4)
                  (messages st4
                   ++ map (ignoredMessage files)
                        (filter (reportedIgnored (packagedFiles st4))
                           (exports st4)))
                  (negatedExports st4) (packageUrl st4) (packagedFiles st4)
                  (rejected st4)) in Hfold;
      rewrite Hfold in Hresult
  end.
  injection Hresult as <-. cbn [res_messages res_exports messages exports].
  rewrite existsb_mapped.
  rewrite <- (existsb_permutation _ _ _ (sortExports_permutation localeCompare _)).
  rewrite has_app, has_ignored by reflexivity. rewrite orb_false_r.
  change (fun x : RawExport => String.eqb (ex_specifier (rawExportToExport x)) ".")
    with (fun d : RawExport => String.eqb (specifier d) ".").
  destruct main, (pkg_main packageData);
    cbn [negb message exports messages];
    rewrite ?has_app, Hnone, <- Hmain; reflexivity.
Qed.

(** ** Without an export map *)






End Passes.

Lemma main_missing_reported_iff_no_main_entry_witness :
  exists exportsValue result,
    pkg_exports wildcardPackage = Some exportsValue
    /\ packageExports Sample.minimatch Sample.noFile Sample.resolveUrl
         Sample.localeCompare Sample.packageUrl ["./index.js"; "./lib/a.js"]
         wildcardPackage
       = Some result
    /\ has "exports-main-missing" (res_messages result)
       = negb (existsb (fun e => String.eqb (ex_specifier e) ".")
                 (res_exports result)).
Proof.
  eexists. eexists.
  split; [reflexivity|]. split; [vm_compute; reflexivity|].
  eapply (main_missing_reported_iff_no_main_entry Sample.minimatch
            Sample.noFile Sample.resolveUrl Sample.localeCompare
            Sample.packageUrl ["./index.js"; "./lib/a.js"] wildcardPackage);
    [reflexivity | vm_compute; reflexivity].
Defined.

(** ** Entries that do not exist *)

Lemma reportsMissing_refl (st : State) : reportsMissing st st.
Proof. exists [], []. rewrite !app_nil_r. repeat split. Qed.

Lemma reportsMissing_trans (a b c : State) :
  reportsMissing a b -> reportsMissing b c -> reportsMissing a c.
Proof.
  intros [es [ms [He [Hm H]]]] [es' [ms' [He' [Hm' H']]]].
  exists (es ++ es'), (ms ++ ms').
  rewrite He', He, Hm', Hm, !app_assoc, !filter_app, map_app, H, H'.
  repeat split.
Qed.

Lemma reportsMissing_message (st : State) (rule : string)
    (details_ : list string) (p : jsonPath) :
  String.eqb rule "exports-path-not-found" = false ->
  reportsMissing st (message st rule details_ p).
Proof.
  intros Hrule. exists [], [mkMessage rule p details_].
  rewrite app_nil_r. cbn [filter ruleId]. rewrite Hrule. repeat split.
Qed.

Lemma own_rule_found (info : Info) (v : json) (m : Message) :
  ownMessage info v m ->
  String.eqb (ruleId m) "exports-path-not-found" = false.
Proof.
  intros Hown. destruct (String.eqb_spec (ruleId m) "exports-path-not-found")
    as [Heq|]; [|reflexivity].
  exfalso. apply (leaf_rule_not_own info v m Hown).
  rewrite Heq. apply in_leafRules_not_found.
Qed.

Section Missing.

Variable minimatch : string -> string -> bool.
Variable fsAccess : string -> bool.
Variable resolveUrl : string -> string -> string.

Lemma addResolved_reportsMissing (st : State) (info : Info)
    (definitelyExists explicitlyDefined : bool) (specifier_ : string)
    (value : option string) :
  reportsMissing st
    (addResolved fsAccess resolveUrl st info definitelyExists
       explicitlyDefined specifier_ value).
Proof.
  unfold addResolved. destruct value as [value|];
    [|exists [], []; rewrite !app_nil_r; repeat split].
  cbv zeta.
  destruct (definitelyExists || Js.includes (packagedFiles st) value
            || fsAccess (resolveUrl value (packageUrl st))) eqn:Hfound.
  - eexists; exists []. cbn [pushExport exports messages].
    split; [reflexivity|]. split; [rewrite app_nil_r; reflexivity|].
    cbn [filter exists_ negb map]. reflexivity.
  - eexists; eexists. cbn [pushExport message exports messages].
    split; [reflexivity|]. split; [reflexivity|].
    cbn [filter exists_ negb map ruleId].
    rewrite String.eqb_refl. reflexivity.
Qed.

Lemma expanded_exist (st : State) (info : Info) (specifier_ : string * string)
    (valueParts replacements : list string) :
  filter (fun e => negb (exists_ e))
    (map (expandedEntry resolveUrl st info specifier_ valueParts) replacements)
  = [].
Proof.
  induction replacements as [|r rest IH]; [reflexivity | exact IH].
Qed.

Lemma addValue_reportsMissing (st : State) (info : Info) (v : json) :
  isLeaf v ->
  reportsMissing st (addValue minimatch fsAccess resolveUrl st info v).
Proof.
  intros Hleaf.
  destruct v as [|b|n|value|items|fields]; try contradiction;
    unfold addValue; cbv beta iota;
    try (apply reportsMissing_message; reflexivity).
  - apply addResolved_reportsMissing.
  - destruct (negb (Js.startsWith value "./"));
      [apply reportsMissing_message; reflexivity|].
    destruct (Js.indexOf (specifierOrMain info) "*" 0) as [i|];
      [|apply addResolved_reportsMissing].
    destruct (Js.includesFrom (specifierOrMain info) "*" (i + 1));
      [apply reportsMissing_message; reflexivity|].
    destruct (Js.indexOf value "*" 0) as [j|].
    + destruct (addDynamic_state minimatch fsAccess resolveUrl st info
                  (Js.slice (specifierOrMain info) 0 i,
                   Js.sliceFrom (specifierOrMain info) (i + 1))
                  (Js.split "*" value))
        as [He [_ [_ [_ Hm]]]].
      eexists. destruct Hm as [Hm|Hm].
      * exists [].
        split; [exact He|]. split; [rewrite app_nil_r; exact Hm|].
        rewrite expanded_exist. reflexivity.
      * eexists. split; [exact He|]. split; [exact Hm|].
        rewrite expanded_exist. reflexivity.
    + eapply reportsMissing_trans; [|apply addResolved_reportsMissing].
      apply reportsMissing_message. reflexivity.
Qed.

Lemma walk_reportsMissing (st : State) (root : Info) (rootValue : json) :
  reportsMissing st
    (resolveExports minimatch fsAccess resolveUrl st root rootValue).
Proof.
  apply (walk_keeps minimatch fsAccess resolveUrl reportsMissing
           (fun _ _ => True));
    try exact I.
  - exact reportsMissing_refl.
  - exact reportsMissing_trans.
  - intros a info v _ Hleaf. apply addValue_reportsMissing. exact Hleaf.
  - intros a info v rule details_ p _ Hown.
    apply reportsMissing_message. exact (own_rule_found info v _ Hown).
  - intros a info fields _ _ _. exists [], []. rewrite !app_nil_r. repeat split.
  - intros; exact I.
  - intros; exact I.
  - intros; exact I.
Qed.

(** X19.  Among what a walk adds, the [exports-path-not-found] diagnostics
    are, up to their order, one for each entry that does not exist, at the
    JSON path of the entry and with its file path and specifier; nothing
    else is reported under that rule. *)
Theorem walk_reports_each_missing_entry (st : State) (root : Info)
    (rootValue : json) :
  exists es ms,
    exports (resolveExports minimatch fsAccess resolveUrl st root rootValue)
    = exports st ++ es
    /\ messages (resolveExports minimatch fsAccess resolveUrl st root rootValue)
       = messages st ++ ms
    /\ Permutation
         (map notFoundMessage (filter (fun e => negb (exists_ e)) es))
         (filter (fun m => String.eqb (ruleId m) "exports-path-not-found") ms).
Proof.
  destruct (walk_reportsMissing st root rootValue) as [es [ms [He [Hm H]]]].
  exists es, ms. rewrite H. repeat split; try assumption.
  apply Permutation_refl.
Qed.

End Missing.
(** ** Objects that are not walked *)

Lemma dotsLoop_other_kind (keys : list string) :
  forall (d mixed : bool),
    (mixed = true
     \/ exists key, In key keys /\ Js.startsWith key "." = negb d) ->
    dotsLoop keys (Some d) mixed = (Some d, true).
Proof.
  induction keys as [|key rest IH]; intros d mixed H; cbn [dotsLoop].
  - destruct H as [->|[key [[] _]]]. reflexivity.
  - apply IH.
    destruct (Bool.eqb d (Js.startsWith key ".")) eqn:Hkind;
      [|left; reflexivity].
    apply Bool.eqb_prop in Hkind.
    destruct H as [H|[other [[<-|Hin] Hother]]].
    + left. exact H.
    + rewrite <- Hkind in Hother. destruct d; discriminate.
    + right. exists other. split; assumption.
Qed.

Lemma dotsLoop_one_kind (keys : list string) :
  forall (d mixed : bool),
    Forall (fun key => Js.startsWith key "." = d) keys ->
    dotsLoop keys (Some d) mixed = (Some d, mixed).
Proof.
  induction keys as [|key rest IH]; intros d mixed H; cbn [dotsLoop];
    [reflexivity|].
  inversion H as [|? ? Hkey Hrest]; subst.
  rewrite Bool.eqb_reflx. apply IH. exact Hrest.
Qed.

Section Skipped.

Variable minimatch : string -> string -> bool.
Variable fsAccess : string -> bool.
Variable resolveUrl : string -> string -> string.

(** X20.  An object that has both a key that starts with a dot and a key
    that does not is not walked: its only effect is one
    [exports-object-mixed] diagnostic at its path. *)
Theorem mixed_object_is_reported_and_skipped (st : State) (info : Info)
    (fields : list (string * json)) (dotKey plainKey : string) :
  In dotKey (keysOf fields) ->
  Js.startsWith dotKey "." = true ->
  In plainKey (keysOf fields) ->
  Js.startsWith plainKey "." = false ->
  resolveExports minimatch fsAccess resolveUrl st info (JObject fields)
  = message st "exports-object-mixed" [] (info_path info).
Proof.
  intros Hdot Hdotted Hplain Hplainly.
  cbn [resolveExports]. unfold resolveExportsObject. cbv zeta.
  destruct (keysOf fields) as [|key rest]; [contradiction|].
  cbn [dotsLoop]. rewrite dotsLoop_other_kind; [reflexivity|].
  right. destruct (Js.startsWith key ".") eqn:Hkey.
  - exists plainKey. split; [|exact Hplainly].
    destruct Hplain as [<-|Hin]; [congruence | exact Hin].
  - exists dotKey. split; [|exact Hdotted].
    destruct Hdot as [<-|Hin]; [congruence | exact Hin].
Qed.

(** X21.  Under a specifier, an object whose keys all start with a dot is
    not walked: its only effect is one [exports-specifier-nested]
    diagnostic at its path, which lists the keys. *)
Theorem nested_specifiers_are_reported_and_skipped (st : State) (info : Info)
    (fields : list (string * json)) :
  fields <> [] ->
  Forall (fun key => Js.startsWith key "." = true) (keysOf fields) ->
  specifierSet info = true ->
  resolveExports minimatch fsAccess resolveUrl st info (JObject fields)
  = message st "exports-specifier-nested" (keysOf fields) (info_path info).
Proof.
  intros Hne Hdots Hset.
  cbn [resolveExports]. unfold resolveExportsObject. cbv zeta.
  destruct fields as [|[key value] fields]; [contradiction|].
  cbn [keysOf map fst] in Hdots |- *. fold (keysOf fields) in Hdots |- *.
  inversion Hdots as [|? ? Hkey Hrest]; subst.
  cbn [dotsLoop]. rewrite Hkey, (dotsLoop_one_kind _ true false Hrest), Hset.
  reflexivity.
Qed.

End Skipped.

Lemma mixed_object_is_reported_and_skipped_witness :
  In "./a" (keysOf mixedObject)
  /\ Js.startsWith "./a" "." = true
  /\ In "import" (keysOf mixedObject)
  /\ Js.startsWith "import" "." = false
  /\ resolveExports Sample.minimatch Sample.noFile Sample.resolveUrl
       (Sample.emptyState ["./index.js"; "./a.js"]) Sample.rootInfo
       (JObject mixedObject)
     = message (Sample.emptyState ["./index.js"; "./a.js"])
         "exports-object-mixed" [] (info_path Sample.rootInfo).
Proof.
  split; [right; left; reflexivity|]. split; [reflexivity|].
  split; [left; reflexivity|]. split; [reflexivity|].
  exact (mixed_object_is_reported_and_skipped Sample.minimatch Sample.noFile
           Sample.resolveUrl (Sample.emptyState ["./index.js"; "./a.js"])
           Sample.rootInfo mixedObject "./a" "import"
           (or_intror (or_introl eq_refl)) eq_refl (or_introl eq_refl) eq_refl).
Defined.

Lemma nested_specifiers_are_reported_and_skipped_witness :
  nestedSpecifiers <> []
  /\ Forall (fun key => Js.startsWith key "." = true) (keysOf nestedSpecifiers)
  /\ specifierSet (specifierChild Sample.rootInfo "./a" 0) = true
  /\ resolveExports Sample.minimatch Sample.noFile Sample.resolveUrl
       (Sample.emptyState ["./b.js"]) (specifierChild Sample.rootInfo "./a" 0)
       (JObject nestedSpecifiers)
     = message (Sample.emptyState ["./b.js"]) "exports-specifier-nested"
         (keysOf nestedSpecifiers)
         (info_path (specifierChild Sample.rootInfo "./a" 0)).
Proof.
  assert (nestedSpecifiers <> []) as Hne by discriminate.
  assert (Forall (fun key => Js.startsWith key "." = true)
            (keysOf nestedSpecifiers)) as Hdots
    by (constructor; [reflexivity | constructor]).
  split; [exact Hne|]. split; [exact Hdots|]. split; [reflexivity|].
  exact (nested_specifiers_are_reported_and_skipped Sample.minimatch
           Sample.noFile Sample.resolveUrl (Sample.emptyState ["./b.js"])
           (specifierChild Sample.rootInfo "./a" 0) nestedSpecifiers
           Hne Hdots eq_refl).
Defined.
